(** * Capture/resample engine and streaming transport client

    A shallow embedding of two parts of the repository:

    - [PCM] and [PCM64]: the AudioWorklet processor [PCMProcessor]
      (resampling by linear interpolation, the output accumulator,
      quantization to 16-bit PCM, [stop]);
    - [Transport]: the React hook [useTranscription] (backpressure queue,
      heartbeat health, transcript assembly, the socket's open handler).

    What the model leaves out or fixes:

    - A JavaScript number is NaN, an infinity or a finite rational ([Q]).
      [PCM] computes with the rationals exactly; it carries the facts that
      do not depend on rounding (the order and the grouping of the samples,
      the messages posted, [stop]).  [PCM64] is the same processor with
      every arithmetic operation rounded to double precision and every
      store into the [Float32Array] rounded to single precision ([IEEE]:
      round to nearest, ties to even, subnormals, overflow to infinity); it
      carries the facts that depend on the values computed (the number of
      output samples, the 16-bit values, termination of the resampling
      loop).  Signed zeros are not distinguished.  The resample ratio and
      position are finite, as they are for rates whose quotient is below
      [2^1024].
    - The processor's message port is the log of the messages posted;
      [postMessage] does not throw.  The level message carries the mean
      square, of which the code posts the square root.
    - The socket is the list of frames sent, with a schedule saying which of
      the coming calls of [send] throw.
    - A string is the sequence of the bytes of its UTF-8 encoding.
    - React state updates are applied at once, in program order. *)

From Stdlib Require Import String Ascii ZArith NArith QArith Qround Qabs Qpower
  Bool Lia Lqa List Permutation.
Import ListNotations.

Local Open Scope Z_scope.

(* ================================================================== *)
(** ** JavaScript numbers *)

Module JS.

(** A number: NaN, plus or minus infinity ([Inf true] is the negative one),
    or a finite value. *)
Inductive float : Type :=
| NaN : float
| Inf (neg : bool) : float
| Fin (q : Q) : float.

Definition Qneg (q : Q) : bool := if Qlt_le_dec q 0 then true else false.
Definition Qzero (q : Q) : bool := Qeq_bool q 0.

(** [a + b] *)
Definition fadd (a b : float) : float :=
  match a, b with
  | NaN, _ | _, NaN => NaN
  | Inf s, Inf s' => if Bool.eqb s s' then Inf s else NaN
  | Inf s, Fin _ => Inf s
  | Fin _, Inf s => Inf s
  | Fin x, Fin y => Fin (x + y)
  end.

(** [- a] *)
Definition fopp (a : float) : float :=
  match a with
  | NaN => NaN
  | Inf s => Inf (negb s)
  | Fin x => Fin (- x)
  end.

(** [a - b] *)
Definition fsub (a b : float) : float := fadd a (fopp b).

(** [a * b] *)
Definition fmul (a b : float) : float :=
  match a, b with
  | NaN, _ | _, NaN => NaN
  | Inf s, Inf s' => Inf (xorb s s')
  | Inf s, Fin y => if Qzero y then NaN else Inf (xorb s (Qneg y))
  | Fin x, Inf s => if Qzero x then NaN else Inf (xorb s (Qneg x))
  | Fin x, Fin y => Fin (x * y)
  end.

(** [a < b]; every comparison with NaN is false. *)
Definition flt (a b : float) : bool :=
  match a, b with
  | NaN, _ | _, NaN => false
  | Inf s, Inf s' => s && negb s'
  | Inf s, Fin _ => s
  | Fin _, Inf s => negb s
  | Fin x, Fin y => if Qlt_le_dec x y then true else false
  end.

(** [Math.min(a, b)] and [Math.max(a, b)]: NaN if either argument is. *)
Definition Math_min (a b : float) : float :=
  match a, b with
  | NaN, _ | _, NaN => NaN
  | _, _ => if flt b a then b else a
  end.

Definition Math_max (a b : float) : float :=
  match a, b with
  | NaN, _ | _, NaN => NaN
  | _, _ => if flt a b then b else a
  end.

(** Truncation toward zero, the integer part taken by the typed-array
    conversions. *)
Definition Qtrunc (q : Q) : Z :=
  if Qlt_le_dec q 0 then Qceiling q else Qfloor q.

(** [ToInt16]: what storing a number into an [Int16Array] keeps.  NaN and the
    infinities become 0; a finite value is truncated and wrapped modulo
    2^16 into the signed range. *)
Definition ToInt16 (x : float) : Z :=
  match x with
  | NaN | Inf _ => 0
  | Fin q =>
      let m := (Qtrunc q) mod 65536 in
      if m >=? 32768 then m - 65536 else m
  end.

(** Reading a typed array or an array of numbers at an integer index:
    out of range gives [undefined], which behaves as NaN in arithmetic. *)
Definition get (l : list float) (i : Z) : float :=
  if i <? 0 then NaN else nth (Z.to_nat i) l NaN.

(** Writing a typed array at an index: out of range is a no-op. *)
Fixpoint set (l : list float) (i : nat) (v : float) : list float :=
  match l, i with
  | [], _ => []
  | _ :: t, O => v :: t
  | h :: t, S i' => h :: set t i' v
  end.

End JS.

(* ================================================================== *)
(** ** The capture/resample engine: [PCMProcessor] *)

Module PCM.
Import JS.

Inductive State : Type := initialized | running | stopped | error.

(** Messages posted to the main thread.  The port is modelled as the log of
    the messages posted so far, oldest first; posting never fails. *)
Inductive Msg : Type :=
| MsgAudio (int16Data : list Z)      (* { type: 'audio', buffer } *)
| MsgLevel (meanSquare : float)      (* { type: 'level', level }: the code
                                        posts the square root of this value *)
| MsgError (err : string)            (* { type: 'error', error } *)
| MsgState (s : State).              (* { type: 'state', state } *)

Record PCMProcessor : Type := mkPCM {
  bufferSize : nat;
  targetSampleRate : Q;
  buffer : list float;               (* Float32Array(bufferSize) *)
  bytesWritten : nat;
  state : State;
  isRunning : bool;
  inputSampleRate : Q;
  resampleRatio : Q;
  resamplePosition : Q;
  levelUpdateInterval : nat;
  levelSampleCount : nat;
  levelSum : float;
  port : list Msg
}.

Definition postMessage (m : Msg) (p : PCMProcessor) : PCMProcessor :=
  mkPCM (bufferSize p) (targetSampleRate p) (buffer p) (bytesWritten p)
        (state p) (isRunning p) (inputSampleRate p) (resampleRatio p)
        (resamplePosition p) (levelUpdateInterval p) (levelSampleCount p)
        (levelSum p) (port p ++ [m]).

Definition set_buffer (b : list float) (n : nat) (p : PCMProcessor) : PCMProcessor :=
  mkPCM (bufferSize p) (targetSampleRate p) b n
        (state p) (isRunning p) (inputSampleRate p) (resampleRatio p)
        (resamplePosition p) (levelUpdateInterval p) (levelSampleCount p)
        (levelSum p) (port p).

Definition set_bytesWritten (n : nat) (p : PCMProcessor) : PCMProcessor :=
  set_buffer (buffer p) n p.

Definition set_bufferSize (n : nat) (p : PCMProcessor) : PCMProcessor :=
  mkPCM n (targetSampleRate p) (buffer p) (bytesWritten p)
        (state p) (isRunning p) (inputSampleRate p) (resampleRatio p)
        (resamplePosition p) (levelUpdateInterval p) (levelSampleCount p)
        (levelSum p) (port p).

Definition set_state (s : State) (p : PCMProcessor) : PCMProcessor :=
  mkPCM (bufferSize p) (targetSampleRate p) (buffer p) (bytesWritten p)
        s (isRunning p) (inputSampleRate p) (resampleRatio p)
        (resamplePosition p) (levelUpdateInterval p) (levelSampleCount p)
        (levelSum p) (port p).

Definition set_isRunning (b : bool) (p : PCMProcessor) : PCMProcessor :=
  mkPCM (bufferSize p) (targetSampleRate p) (buffer p) (bytesWritten p)
        (state p) b (inputSampleRate p) (resampleRatio p)
        (resamplePosition p) (levelUpdateInterval p) (levelSampleCount p)
        (levelSum p) (port p).

Definition set_target (t r : Q) (p : PCMProcessor) : PCMProcessor :=
  mkPCM (bufferSize p) t (buffer p) (bytesWritten p)
        (state p) (isRunning p) (inputSampleRate p) r
        (resamplePosition p) (levelUpdateInterval p) (levelSampleCount p)
        (levelSum p) (port p).

Definition set_resamplePosition (x : Q) (p : PCMProcessor) : PCMProcessor :=
  mkPCM (bufferSize p) (targetSampleRate p) (buffer p) (bytesWritten p)
        (state p) (isRunning p) (inputSampleRate p) (resampleRatio p)
        x (levelUpdateInterval p) (levelSampleCount p)
        (levelSum p) (port p).

Definition set_level (n : nat) (s : float) (p : PCMProcessor) : PCMProcessor :=
  mkPCM (bufferSize p) (targetSampleRate p) (buffer p) (bytesWritten p)
        (state p) (isRunning p) (inputSampleRate p) (resampleRatio p)
        (resamplePosition p) (levelUpdateInterval p) n s (port p).

(** [notifyState(newState)] *)
Definition notifyState (newState : State) (p : PCMProcessor) : PCMProcessor :=
  postMessage (MsgState newState) (set_state newState p).

(** [reportError(error)] *)
Definition reportError (e : string) (p : PCMProcessor) : PCMProcessor :=
  postMessage (MsgError e) (set_state error p).

(** [sendAudioLevel(level)] *)
Definition sendAudioLevel (meanSquare : float) (p : PCMProcessor) : PCMProcessor :=
  postMessage (MsgLevel meanSquare) p.

(** The constructor.  [bufferSize || 4096] and [targetSampleRate || 16000]:
    a missing or zero option takes the default.  [sampleRate] is the global
    of the AudioWorklet scope. *)
Definition constructor (optBufferSize : option nat) (optTargetSampleRate : option Q)
           (sampleRate : Q) : PCMProcessor :=
  let bufferSize :=
    match optBufferSize with
    | Some (S n) => S n
    | _ => 4096%nat
    end in
  let targetSampleRate :=
    match optTargetSampleRate with
    | Some t => if Qzero t then 16000%Q else t
    | None => 16000%Q
    end in
  notifyState running
    (mkPCM bufferSize targetSampleRate (repeat (Fin 0) bufferSize) 0
           initialized true sampleRate (sampleRate / targetSampleRate) 0
           512 0 (Fin 0) []).

(** The conversion of one stored sample in [flush] (line
    [int16Data[i] = s < 0 ? s * 0x8000 : s * 0x7FFF]). *)
Definition scale (s : float) : float :=
  if flt s (Fin 0) then fmul s (Fin 32768) else fmul s (Fin 32767).

Definition quantize (s : float) : Z := ToInt16 (scale s).

(** [flush()] *)
Definition flush (p : PCMProcessor) : PCMProcessor :=
  if Nat.eqb (bytesWritten p) 0 then p
  else
    let int16Data :=
      map (fun i => quantize (get (buffer p) (Z.of_nat i)))
          (seq 0 (bytesWritten p)) in
    set_bytesWritten 0 (postMessage (MsgAudio int16Data) p).

(** The clamp of [addSample]: [Math.max(-1, Math.min(1, sample))]. *)
Definition clamp (sample : float) : float :=
  Math_max (Fin (-1)) (Math_min (Fin 1) sample).

(** [addSample(sample)] *)
Definition addSample (sample : float) (p : PCMProcessor) : PCMProcessor :=
  let clampedSample := clamp sample in
  let p := set_buffer (set (buffer p) (bytesWritten p) clampedSample)
                      (S (bytesWritten p)) p in
  let p := set_level (S (levelSampleCount p))
                     (fadd (levelSum p) (fmul clampedSample clampedSample)) p in
  let p :=
    if Nat.leb (levelUpdateInterval p) (levelSampleCount p) then
      let meanSquare :=
        fmul (levelSum p) (Fin (1 / inject_Z (Z.of_nat (levelSampleCount p)))) in
      set_level 0 (Fin 0) (sendAudioLevel meanSquare p)
    else p in
  if Nat.leb (bufferSize p) (bytesWritten p) then flush p else p.

(** The bypass test [Math.abs(this.resampleRatio - 1) < 0.001], on the exact
    values ([PCM64.bypass] is the test on doubles). *)
Definition bypass (ratio : Q) : bool :=
  if Qlt_le_dec (Qabs (ratio - 1)) (1 / 1000) then true else false.

(** The [while (this.resamplePosition < inputLength)] loop.  [fuel] bounds the
    number of iterations; [None] means that the condition still holds after
    [fuel] iterations. *)
Fixpoint resample_loop (fuel : nat) (inputData : list float) (p : PCMProcessor)
  {struct fuel} : option PCMProcessor :=
  let inputLength := Z.of_nat (length inputData) in
  if Qlt_le_dec (resamplePosition p) (inject_Z inputLength) then
    match fuel with
    | O => None
    | S fuel' =>
        let intPos := Qfloor (resamplePosition p) in
        let fracPos := (resamplePosition p - inject_Z intPos)%Q in
        let sample1 := get inputData intPos in
        let sample2 :=
          if intPos + 1 <? inputLength then get inputData (intPos + 1)
          else sample1 in
        let interpolatedSample :=
          fadd sample1 (fmul (fsub sample2 sample1) (Fin fracPos)) in
        let p := addSample interpolatedSample p in
        resample_loop fuel' inputData
          (set_resamplePosition (resamplePosition p + resampleRatio p) p)
    end
  else Some p.

(** [processWithDownsampling(inputData)] *)
Definition processWithDownsampling (fuel : nat) (inputData : list float)
           (p : PCMProcessor) : option PCMProcessor :=
  let inputLength := Z.of_nat (length inputData) in
  if bypass (resampleRatio p) then
    Some (fold_left (fun p s => addSample s p) inputData p)
  else
    match resample_loop fuel inputData p with
    | Some p =>
        Some (set_resamplePosition (resamplePosition p - inject_Z inputLength) p)
    | None => None
    end.

(** [stop()] *)
Definition stop (p : PCMProcessor) : PCMProcessor :=
  let p := if Nat.ltb 0 (bytesWritten p) then flush p else p in
  notifyState stopped (set_isRunning false p).

(** Messages received from the main thread. *)
Inductive Command : Type :=
| CmdStop
| CmdConfig (bufferSize : option nat) (targetSampleRate : option Q)
| CmdUnknown.

(** [handleMessage(event)] *)
Definition handleMessage (c : Command) (p : PCMProcessor) : PCMProcessor :=
  match c with
  | CmdStop => stop p
  | CmdConfig bs ts =>
      let p :=
        match bs with
        | Some (S n) =>
            set_buffer (repeat (Fin 0) (S n)) 0 (set_bufferSize (S n) p)
        | _ => p
        end in
      match ts with
      | Some t =>
          if Qlt_le_dec 0 t then set_target t (inputSampleRate p / t) p else p
      | None => p
      end
  | CmdUnknown => p
  end.

(** [process(inputs)]: the result is the returned boolean and the new state.
    [inputs] is the list of inputs, each a list of channels. *)
Definition process (fuel : nat) (inputs : list (list (list float)))
           (p : PCMProcessor) : option (bool * PCMProcessor) :=
  if negb (isRunning p) then Some (false, p)
  else
    match inputs with
    | [] => Some (true, p)
    | input :: _ =>
        match input with
        | [] => Some (true, p)
        | channelData :: _ =>
            match channelData with
            | [] => Some (true, p)
            | _ =>
                match processWithDownsampling fuel channelData p with
                | Some p' => Some (true, p')
                | None => None
                end
            end
        end
    end.

(** Feeding a sequence of frames through [processWithDownsampling]. *)
Fixpoint feed (fuel : nat) (frames : list (list float)) (p : PCMProcessor)
  : option PCMProcessor :=
  match frames with
  | [] => Some p
  | f :: rest =>
      match processWithDownsampling fuel f p with
      | Some p' => feed fuel rest p'
      | None => None
      end
  end.

(** The samples carried by the audio messages of a port log, in order. *)
Fixpoint audio_samples (log : list Msg) : list Z :=
  match log with
  | [] => []
  | MsgAudio d :: t => d ++ audio_samples t
  | _ :: t => audio_samples t
  end.

(** Output samples produced so far: those already posted in audio chunks and
    those held in the accumulator. *)
Definition produced (p : PCMProcessor) : nat :=
  (length (audio_samples (port p)) + bytesWritten p)%nat.

(** What [flush] would post now: the accumulator's samples, quantized. *)
Definition pending (p : PCMProcessor) : list Z :=
  map (fun i => quantize (get (buffer p) (Z.of_nat i))) (seq 0 (bytesWritten p)).

(** Every quantized sample the engine has output or holds, in order. *)
Definition emitted (p : PCMProcessor) : list Z :=
  audio_samples (port p) ++ pending p.

(** The accumulator is allocated at its configured size and is never full
    between two calls. *)
Definition wf (p : PCMProcessor) : Prop :=
  length (buffer p) = bufferSize p /\ (bytesWritten p < bufferSize p)%nat.

(** The count the specification gives for [N] input samples:
    [floor (N / (R/T))], with a tolerance of one either way. *)
Definition expected_count (R T : Q) (N : nat) : Z :=
  Qfloor (inject_Z (Z.of_nat N) / (R / T)).

Definition count_as_specified (R T : Q) (N : nat) (p : PCMProcessor) : Prop :=
  expected_count R T N - 1 <= Z.of_nat (produced p) <= expected_count R T N + 1.

Definition total_length (frames : list (list float)) : nat :=
  length (concat frames).

End PCM.

(* ================================================================== *)
(** ** The streaming transport client: [useTranscription] *)

Module Transport.

(** [ReadyState] of react-use-websocket. *)
Inductive ReadyState : Type :=
| UNINSTANTIATED | CONNECTING | OPEN | CLOSING | CLOSED.

Definition ReadyState_eqb (a b : ReadyState) : bool :=
  match a, b with
  | UNINSTANTIATED, UNINSTANTIATED | CONNECTING, CONNECTING | OPEN, OPEN
  | CLOSING, CLOSING | CLOSED, CLOSED => true
  | _, _ => false
  end.

Inductive Health : Type := healthy | degraded | unhealthy.

Definition Health_eqb (a b : Health) : bool :=
  match a, b with
  | healthy, healthy | degraded, degraded | unhealthy, unhealthy => true
  | _, _ => false
  end.

Definition ArrayBuffer : Type := list Byte.byte.
Definition byteLength (b : ArrayBuffer) : nat := length b.

Inductive ModerationLabel : Type := CLEAN | OFFENSIVE | HATE.

Record ModerationResult : Type := mkModeration {
  request_id : option string;
  label : ModerationLabel;
  confidence : Q;
  is_flagged : bool;
  detected_keywords : list string
}.

Record TranscriptionResponse : Type := mkResponse {
  text : string;
  is_final : bool
}.

(** A message from the server, after [JSON.parse]. *)
Inductive ServerMessage : Type :=
| Pong (timestamp : Z)
| Transcription (response : TranscriptionResponse)
| Moderation (result : ModerationResult)
| Malformed.                         (* [JSON.parse] throws *)

(** JSON messages the client sends. *)
Inductive ClientMessage : Type :=
| ConfigMessage (model : string) (sample_rate : Z)
| StartSessionMessage (sessionId : string)
| FlushMessage
| PingMessage (timestamp : Z).

Inductive Frame : Type :=
| TextFrame (m : ClientMessage)
| BinaryFrame (b : ArrayBuffer).

(** The socket: the frames sent so far, oldest first, and the outcome of the
    coming calls of [send] ([false]: the call throws; none left: it
    succeeds). *)
Record WebSocket : Type := mkWS {
  ws_readyState : ReadyState;
  sent : list Frame;
  outcomes : list bool
}.

(** [ws.send(chunk)] of a binary chunk. *)
Definition ws_send (chunk : ArrayBuffer) (w : WebSocket) : bool * WebSocket :=
  match outcomes w with
  | false :: rest => (false, mkWS (ws_readyState w) (sent w) rest)
  | true :: rest => (true, mkWS (ws_readyState w) (sent w ++ [BinaryFrame chunk]) rest)
  | [] => (true, mkWS (ws_readyState w) (sent w ++ [BinaryFrame chunk]) [])
  end.

(** The binary frames among the frames sent. *)
Fixpoint binary_frames (l : list Frame) : list ArrayBuffer :=
  match l with
  | [] => []
  | BinaryFrame b :: t => b :: binary_frames t
  | TextFrame _ :: t => binary_frames t
  end.

Record TranscriptionState : Type := mkState {
  interimText : string;
  finalizedSegments : list string;
  fullTranscript : string;
  sessionId : option string;
  connectionState : ReadyState;
  error : option string;
  bytesSent : nat;
  queuedChunks : nat;
  lastPingLatency : option Z;
  connectionHealth : Health;
  latestModeration : option ModerationResult;
  moderationResults : list ModerationResult
}.

Inductive Callback : Type :=
| onTranscription (r : TranscriptionResponse)
| onModeration (m : ModerationResult)
| onConnectionChange (s : ReadyState)
| onError (e : string)
| onHealthChange (h : Health).

Record Options : Type := mkOptions {
  model : string;
  sampleRate : Z;
  maxQueueSize : nat;
  enableQueue : bool
}.

Definition DEFAULT_MAX_QUEUE_SIZE : nat := 50.
Definition UNHEALTHY_THRESHOLD : nat := 3.

(** The refs and state the hook keeps between renders. *)
Record Hook : Type := mkHook {
  state : TranscriptionState   (* the React state *);
  configSentRef : bool;
  pingIntervalRef : bool   (* true: the interval timer is armed *);
  pingTimeoutRef : bool   (* true: a pong timeout is pending *);
  lastPingTimeRef : Z;
  missedPingsRef : nat;
  audioQueueRef : list ArrayBuffer   (* oldest first *);
  isProcessingQueueRef : bool;
  bytesSentRef : nat;
  readyState : ReadyState   (* the readyState the current render sees *);
  ws : option WebSocket   (* getWebSocket() *);
  calls : list Callback   (* callbacks invoked so far, oldest first *)
}.

Definition set_state (x : TranscriptionState) (h : Hook) : Hook :=
  mkHook x (configSentRef h) (pingIntervalRef h) (pingTimeoutRef h)
        (lastPingTimeRef h) (missedPingsRef h) (audioQueueRef h)
        (isProcessingQueueRef h) (bytesSentRef h) (readyState h) (ws h)
        (calls h).

Definition set_configSentRef (x : bool) (h : Hook) : Hook :=
  mkHook (state h) x (pingIntervalRef h) (pingTimeoutRef h)
        (lastPingTimeRef h) (missedPingsRef h) (audioQueueRef h)
        (isProcessingQueueRef h) (bytesSentRef h) (readyState h) (ws h)
        (calls h).

Definition set_pingIntervalRef (x : bool) (h : Hook) : Hook :=
  mkHook (state h) (configSentRef h) x (pingTimeoutRef h)
        (lastPingTimeRef h) (missedPingsRef h) (audioQueueRef h)
        (isProcessingQueueRef h) (bytesSentRef h) (readyState h) (ws h)
        (calls h).

Definition set_pingTimeoutRef (x : bool) (h : Hook) : Hook :=
  mkHook (state h) (configSentRef h) (pingIntervalRef h) x
        (lastPingTimeRef h) (missedPingsRef h) (audioQueueRef h)
        (isProcessingQueueRef h) (bytesSentRef h) (readyState h) (ws h)
        (calls h).

Definition set_lastPingTimeRef (x : Z) (h : Hook) : Hook :=
  mkHook (state h) (configSentRef h) (pingIntervalRef h) (pingTimeoutRef h)
        x (missedPingsRef h) (audioQueueRef h) (isProcessingQueueRef h)
        (bytesSentRef h) (readyState h) (ws h) (calls h).

Definition set_missedPingsRef (x : nat) (h : Hook) : Hook :=
  mkHook (state h) (configSentRef h) (pingIntervalRef h) (pingTimeoutRef h)
        (lastPingTimeRef h) x (audioQueueRef h) (isProcessingQueueRef h)
        (bytesSentRef h) (readyState h) (ws h) (calls h).

Definition set_audioQueueRef (x : list ArrayBuffer) (h : Hook) : Hook :=
  mkHook (state h) (configSentRef h) (pingIntervalRef h) (pingTimeoutRef h)
        (lastPingTimeRef h) (missedPingsRef h) x (isProcessingQueueRef h)
        (bytesSentRef h) (readyState h) (ws h) (calls h).

Definition set_isProcessingQueueRef (x : bool) (h : Hook) : Hook :=
  mkHook (state h) (configSentRef h) (pingIntervalRef h) (pingTimeoutRef h)
        (lastPingTimeRef h) (missedPingsRef h) (audioQueueRef h) x
        (bytesSentRef h) (readyState h) (ws h) (calls h).

Definition set_bytesSentRef (x : nat) (h : Hook) : Hook :=
  mkHook (state h) (configSentRef h) (pingIntervalRef h) (pingTimeoutRef h)
        (lastPingTimeRef h) (missedPingsRef h) (audioQueueRef h)
        (isProcessingQueueRef h) x (readyState h) (ws h) (calls h).

Definition set_readyState (x : ReadyState) (h : Hook) : Hook :=
  mkHook (state h) (configSentRef h) (pingIntervalRef h) (pingTimeoutRef h)
        (lastPingTimeRef h) (missedPingsRef h) (audioQueueRef h)
        (isProcessingQueueRef h) (bytesSentRef h) x (ws h) (calls h).

Definition set_ws (x : option WebSocket) (h : Hook) : Hook :=
  mkHook (state h) (configSentRef h) (pingIntervalRef h) (pingTimeoutRef h)
        (lastPingTimeRef h) (missedPingsRef h) (audioQueueRef h)
        (isProcessingQueueRef h) (bytesSentRef h) (readyState h) x (calls h).

Definition set_calls (x : list Callback) (h : Hook) : Hook :=
  mkHook (state h) (configSentRef h) (pingIntervalRef h) (pingTimeoutRef h)
        (lastPingTimeRef h) (missedPingsRef h) (audioQueueRef h)
        (isProcessingQueueRef h) (bytesSentRef h) (readyState h) (ws h) x.

(** The state of [useState] and the refs of [useRef] at mount. *)
Definition initial_state : TranscriptionState :=
  mkState ""%string [] ""%string None CLOSED None 0 0 None healthy None [].

Definition mount : Hook :=
  mkHook initial_state false false false 0 0 [] false 0 UNINSTANTIATED
         None [].

Definition setState (f : TranscriptionState -> TranscriptionState) (h : Hook)
  : Hook :=
  set_state (f (state h)) h.

Definition call (c : Callback) (h : Hook) : Hook :=
  set_calls (calls h ++ [c]) h.

(** [sendJsonMessage] of react-use-websocket, on an open socket: a text
    frame. *)
Definition sendJsonMessage (m : ClientMessage) (h : Hook) : Hook :=
  match ws h with
  | Some w =>
      set_ws (Some (mkWS (ws_readyState w) (sent w ++ [TextFrame m])
                         (outcomes w))) h
  | None => h
  end.

(** *** Heartbeat *)

Definition health_of (missed : nat) : Health :=
  if Nat.eqb missed 0 then healthy
  else if Nat.ltb missed UNHEALTHY_THRESHOLD then degraded
  else unhealthy.

(** [updateConnectionHealth(missed)] *)
Definition updateConnectionHealth (missed : nat) (h : Hook) : Hook :=
  let health := health_of missed in
  if Health_eqb (connectionHealth (state h)) health then h
  else
    setState (fun prev =>
      mkState (interimText prev) (finalizedSegments prev) (fullTranscript prev)
              (sessionId prev) (connectionState prev) (error prev)
              (bytesSent prev) (queuedChunks prev) (lastPingLatency prev)
              health (latestModeration prev) (moderationResults prev))
      (call (onHealthChange health) h).

(** [handlePong(timestamp)]; [now] is [Date.now()]. *)
Definition handlePong (timestamp now : Z) (h : Hook) : Hook :=
  let h := set_pingTimeoutRef false h in
  let latency := now - timestamp in
  let h := set_missedPingsRef 0 h in
  let h :=
    setState (fun prev =>
      mkState (interimText prev) (finalizedSegments prev) (fullTranscript prev)
              (sessionId prev) (connectionState prev) (error prev)
              (bytesSent prev) (queuedChunks prev) (Some latency)
              healthy (latestModeration prev) (moderationResults prev)) h in
  updateConnectionHealth 0 h.

Definition dead_message : string :=
  "Connection appears dead (no heartbeat response)"%string.

(** The callback of the pong timeout armed by [sendPing]. *)
Definition pingTimeout (h : Hook) : Hook :=
  let h := set_missedPingsRef (S (missedPingsRef h)) h in
  let h := updateConnectionHealth (missedPingsRef h) h in
  if Nat.leb UNHEALTHY_THRESHOLD (missedPingsRef h) then
    call (onError dead_message)
      (setState (fun prev =>
         mkState (interimText prev) (finalizedSegments prev) (fullTranscript prev)
                 (sessionId prev) (connectionState prev) (Some dead_message)
                 (bytesSent prev) (queuedChunks prev) (lastPingLatency prev)
                 (connectionHealth prev) (latestModeration prev)
                 (moderationResults prev)) h)
  else h.

(** [sendPing()]; [now] is [Date.now()]. *)
Definition sendPing (now : Z) (h : Hook) : Hook :=
  if negb (ReadyState_eqb (readyState h) OPEN) then h
  else
    let h := set_lastPingTimeRef now h in
    let h := sendJsonMessage (PingMessage (lastPingTimeRef h)) h in
    set_pingTimeoutRef true h.

(** *** The socket's handlers *)

(** [onOpen] *)
Definition onOpen (h : Hook) : Hook :=
  let h := set_configSentRef false h in
  let h := set_missedPingsRef 0 h in
  let h := set_bytesSentRef 0 h in
  let h := set_audioQueueRef [] h in
  setState (fun prev =>
    mkState ""%string [] ""%string None (connectionState prev) None 0 0 None healthy None []) h.

(** [onClose] *)
Definition onClose (h : Hook) : Hook :=
  set_pingTimeoutRef false (set_pingIntervalRef false (set_configSentRef false h)).

(** [onError] *)
Definition onErrorEvent (h : Hook) : Hook :=
  let errorMsg : string := "WebSocket connection error"%string in
  call (onError errorMsg)
    (setState (fun prev =>
       mkState (interimText prev) (finalizedSegments prev) (fullTranscript prev)
               (sessionId prev) (connectionState prev) (Some errorMsg)
               (bytesSent prev) (queuedChunks prev) (lastPingLatency prev)
               unhealthy (latestModeration prev) (moderationResults prev)) h).

(** *** The backpressure queue *)

(** The loop [while (audioQueueRef.current.length > 0)] that [processQueue]
    and [sendAudio] share: it works on the queue, the socket and
    [bytesSentRef], and stops at the first [send] that throws, putting the
    chunk back with [unshift]. *)
Fixpoint drain (queue : list ArrayBuffer) (w : WebSocket) (bytes : nat)
  : list ArrayBuffer * WebSocket * nat :=
  match queue with
  | [] => ([], w, bytes)
  | chunk :: rest =>
      match ws_send chunk w with
      | (true, w') => drain rest w' (bytes + byteLength chunk)
      | (false, w') => (chunk :: rest, w', bytes)
      end
  end.

Definition drain_queue (w : WebSocket) (h : Hook) : Hook :=
  let '(queue, w', bytes) := drain (audioQueueRef h) w (bytesSentRef h) in
  set_bytesSentRef bytes (set_ws (Some w') (set_audioQueueRef queue h)).

Definition is_empty {A : Type} (l : list A) : bool :=
  match l with [] => true | _ => false end.

(** [processQueue()] *)
Definition processQueue (h : Hook) : Hook :=
  if isProcessingQueueRef h then h
  else if negb (ReadyState_eqb (readyState h) OPEN) then h
  else if is_empty (audioQueueRef h) then h
  else
    let h := set_isProcessingQueueRef true h in
    match ws h with
    | None => set_isProcessingQueueRef false h
    | Some w =>
        if negb (ReadyState_eqb (ws_readyState w) OPEN)
        then set_isProcessingQueueRef false h
        else
          let h := drain_queue w h in
          let h :=
            setState (fun prev =>
              mkState (interimText prev) (finalizedSegments prev)
                      (fullTranscript prev) (sessionId prev)
                      (connectionState prev) (error prev)
                      (bytesSentRef h) (length (audioQueueRef h))
                      (lastPingLatency prev) (connectionHealth prev)
                      (latestModeration prev) (moderationResults prev)) h in
          set_isProcessingQueueRef false h
    end.

(** [audioQueueRef.current.push(audioBuffer)] followed by the [shift] when
    the queue is over [maxQueueSize]. *)
Definition push_bounded (maxQueueSize : nat) (audioBuffer : ArrayBuffer)
           (queue : list ArrayBuffer) : list ArrayBuffer :=
  let queue := queue ++ [audioBuffer] in
  if Nat.ltb maxQueueSize (length queue) then tl queue else queue.

(** [sendAudio(audioBuffer)]: the returned boolean and the new state. *)
Definition sendAudio (o : Options) (audioBuffer : ArrayBuffer) (h : Hook)
  : bool * Hook :=
  if negb (ReadyState_eqb (readyState h) OPEN) then
    if enableQueue o then
      (true, set_audioQueueRef
               (push_bounded (maxQueueSize o) audioBuffer (audioQueueRef h)) h)
    else (false, h)
  else
    match ws h with
    | None => (false, h)
    | Some w =>
        if negb (ReadyState_eqb (ws_readyState w) OPEN) then (false, h)
        else
          let h :=
            if negb (isProcessingQueueRef h) && negb (is_empty (audioQueueRef h))
            then
              set_isProcessingQueueRef false
                (drain_queue w (set_isProcessingQueueRef true h))
            else h in
          let w := match ws h with Some w' => w' | None => w end in
          match ws_send audioBuffer w with
          | (true, w') =>
              (true, set_bytesSentRef (bytesSentRef h + byteLength audioBuffer)
                       (set_ws (Some w') h))
          | (false, w') =>
              let h := set_ws (Some w') h in
              if enableQueue o then
                let h :=
                  set_audioQueueRef
                    (push_bounded (maxQueueSize o) audioBuffer (audioQueueRef h)) h in
                (false,
                 setState (fun prev =>
                   mkState (interimText prev) (finalizedSegments prev)
                           (fullTranscript prev) (sessionId prev)
                           (connectionState prev) (error prev)
                           (bytesSent prev) (length (audioQueueRef h))
                           (lastPingLatency prev) (connectionHealth prev)
                           (latestModeration prev) (moderationResults prev)) h)
              else (false, h)
          end
    end.

(** Calling [sendAudio] on each chunk in turn; the results are in call
    order. *)
Fixpoint sendAudio_all (o : Options) (chunks : list ArrayBuffer) (h : Hook)
  : list bool * Hook :=
  match chunks with
  | [] => ([], h)
  | c :: rest =>
      let '(r, h1) := sendAudio o c h in
      let '(rs, h2) := sendAudio_all o rest h1 in
      (r :: rs, h2)
  end.

(** *** Effects *)

(** The effect [Update connection state], run when [readyState] changes. *)
Definition connectionStateEffect (h : Hook) : Hook :=
  let h :=
    setState (fun prev =>
      mkState (interimText prev) (finalizedSegments prev) (fullTranscript prev)
              (sessionId prev) (readyState h) (error prev)
              (bytesSent prev) (queuedChunks prev) (lastPingLatency prev)
              (connectionHealth prev) (latestModeration prev)
              (moderationResults prev)) h in
  let h := call (onConnectionChange (readyState h)) h in
  if ReadyState_eqb (readyState h) OPEN then processQueue h else h.

(** The effect [Send config when connected]; [sid] is the generated session
    id and [now] is [Date.now()]. *)
Definition configEffect (o : Options) (sid : string) (now : Z) (h : Hook) : Hook :=
  if ReadyState_eqb (readyState h) OPEN && negb (configSentRef h) then
    let h := sendJsonMessage (ConfigMessage (model o) (sampleRate o)) h in
    let h := sendJsonMessage (StartSessionMessage sid) h in
    let h := set_configSentRef true h in
    let h :=
      setState (fun prev =>
        mkState ""%string [] ""%string (Some sid) (connectionState prev) None
                (bytesSent prev) (queuedChunks prev) (lastPingLatency prev)
                (connectionHealth prev) (latestModeration prev)
                (moderationResults prev)) h in
    let h := set_pingIntervalRef true h in
    sendPing now h
  else h.

(** The socket opens: react-use-websocket calls [onOpen] from the socket's
    open event, then publishes [readyState = OPEN]; the render that follows
    runs the two effects that depend on [readyState], in source order. *)
Definition socket_opens (o : Options) (sid : string) (now : Z) (h : Hook) : Hook :=
  let h :=
    match ws h with
    | Some w => set_ws (Some (mkWS OPEN (sent w) (outcomes w))) h
    | None => set_ws (Some (mkWS OPEN [] [])) h
    end in
  let h := onOpen h in
  let h := set_readyState OPEN h in
  let h := connectionStateEffect h in
  configEffect o sid now h.

(** [connect()] followed by the render that creates the socket. *)
Definition connect (h : Hook) : Hook :=
  set_ws (Some (mkWS CONNECTING [] [])) (set_readyState CONNECTING h).

(** *** Incoming messages *)

(** [String.prototype.trim] strips the white space and line terminator code
    points of ECMAScript: U+0009 to U+000D, U+0020, U+00A0, U+1680, U+2000
    to U+200A, U+2028, U+2029, U+202F, U+205F, U+3000 and U+FEFF.  In UTF-8
    they take one, two or three bytes. *)

(** White space and line terminators of one byte: U+0009 to U+000D and
    U+0020. *)
Definition is_ws (a : ascii) : bool :=
  match nat_of_ascii a with
  | 9%nat | 10%nat | 11%nat | 12%nat | 13%nat | 32%nat => true
  | _ => false
  end.

(** The byte [a] has the value [n]. *)
Definition byte_is (a : ascii) (n : N) : bool := N.eqb (N_of_ascii a) n.

(** Of two bytes: U+00A0 (C2 A0). *)
Definition is_ws2 (a b : ascii) : bool := byte_is a 194 && byte_is b 160.

(** Of three bytes: U+1680 (E1 9A 80), U+2000 to U+200A (E2 80 80 to
    E2 80 8A), U+2028, U+2029 and U+202F (E2 80 A8, A9, AF), U+205F
    (E2 81 9F), U+3000 (E3 80 80) and U+FEFF (EF BB BF). *)
Definition is_ws3 (a b c : ascii) : bool :=
  (byte_is a 225 && byte_is b 154 && byte_is c 128)
  || (byte_is a 226 && byte_is b 128
      && ((N.leb 128 (N_of_ascii c) && N.leb (N_of_ascii c) 138)
          || byte_is c 168 || byte_is c 169 || byte_is c 175))
  || (byte_is a 226 && byte_is b 129 && byte_is c 159)
  || (byte_is a 227 && byte_is b 128 && byte_is c 128)
  || (byte_is a 239 && byte_is b 187 && byte_is c 191).

(** [s.trimStart()] *)
Fixpoint trimStart (s : string) : string :=
  match s with
  | EmptyString => EmptyString
  | String a t =>
      if is_ws a then trimStart t
      else
        match t with
        | String b t2 =>
            if is_ws2 a b then trimStart t2
            else
              match t2 with
              | String c t3 => if is_ws3 a b c then trimStart t3 else s
              | EmptyString => s
              end
        | EmptyString => s
        end
  end.

(** The string is white space from end to end. *)
Fixpoint all_ws (s : string) : bool :=
  match s with
  | EmptyString => true
  | String a t =>
      if is_ws a then all_ws t
      else
        match t with
        | String b t2 =>
            if is_ws2 a b then all_ws t2
            else
              match t2 with
              | String c t3 => is_ws3 a b c && all_ws t3
              | EmptyString => false
              end
        | EmptyString => false
        end
  end.

(** [s.trimEnd()]: the string is cut where what remains is white space. *)
Fixpoint trimEnd (s : string) : string :=
  match s with
  | EmptyString => EmptyString
  | String a t => if all_ws s then EmptyString else String a (trimEnd t)
  end.

(** [s.trim()] *)
Definition trim (s : string) : string := trimEnd (trimStart s).

(** [Boolean(s)] for a string: it is not empty. *)
Definition truthy (s : string) : bool :=
  match s with EmptyString => false | _ => true end.

(** The string starts with a white space character. *)
Definition starts_ws (s : string) : bool :=
  match s with
  | String a t =>
      is_ws a
      || match t with
         | String b t2 =>
             is_ws2 a b
             || match t2 with
                | String c _ => is_ws3 a b c
                | EmptyString => false
                end
         | EmptyString => false
         end
  | EmptyString => false
  end.

(** The string ends with a white space character: some suffix that is not
    empty is white space from end to end. *)
Fixpoint ends_ws (s : string) : bool :=
  match s with
  | EmptyString => false
  | String a t => all_ws s || ends_ws t
  end.

(** A string that neither starts nor ends with white space. *)
Definition trimmed (s : string) : Prop :=
  starts_ws s = false /\ ends_ws s = false.

(** The string of the given bytes. *)
Definition utf8 (bytes : list nat) : string :=
  fold_right (fun n s => String (ascii_of_nat n) s) EmptyString bytes.

(** The white space and line terminator code points of ECMAScript, in
    UTF-8. *)
Definition white_space : list string :=
  map utf8
      [[9]; [10]; [11]; [12]; [13]; [32]; [194; 160]; [225; 154; 128];
       [226; 128; 128]; [226; 128; 129]; [226; 128; 130]; [226; 128; 131];
       [226; 128; 132]; [226; 128; 133]; [226; 128; 134]; [226; 128; 135];
       [226; 128; 136]; [226; 128; 137]; [226; 128; 138]; [226; 128; 168];
       [226; 128; 169]; [226; 128; 175]; [226; 129; 159]; [227; 128; 128];
       [239; 187; 191]]%nat.

(** One step of the scan from the left: the string starts with white space
    of one, two or three bytes, or with none. *)
Inductive ws_head : string -> string -> Prop :=
| ws_head1 a t : is_ws a = true -> ws_head (String a t) t
| ws_head2 a b t :
    is_ws a = false -> is_ws2 a b = true -> ws_head (String a (String b t)) t
| ws_head3 a b c t :
    is_ws a = false -> is_ws2 a b = false -> is_ws3 a b c = true ->
    ws_head (String a (String b (String c t))) t.

(** The updater of the transcription branch of the message effect. *)
Definition transcriptionUpdate (response : TranscriptionResponse)
           (prev : TranscriptionState) : TranscriptionState :=
  let newInterim :=
    if is_final response then EmptyString else text response in
  let newSegments :=
    if is_final response then
      if truthy (trim (text response))
      then finalizedSegments prev ++ [trim (text response)]
      else finalizedSegments prev
    else finalizedSegments prev in
  let fullTranscript :=
    String.concat " "%string (filter truthy (newSegments ++ [newInterim])) in
  mkState newInterim newSegments fullTranscript
          (sessionId prev) (connectionState prev) (error prev)
          (bytesSent prev) (queuedChunks prev) (lastPingLatency prev)
          (connectionHealth prev) (latestModeration prev)
          (moderationResults prev).

(** A message arrives: the [filter] callback consumes a pong; the message
    effect handles the rest.  [now] is [Date.now()]. *)
Definition onMessage (m : ServerMessage) (now : Z) (h : Hook) : Hook :=
  match m with
  | Pong timestamp => handlePong timestamp now h
  | Malformed => h
  | Moderation moderationResult =>
      call (onModeration moderationResult)
        (setState (fun prev =>
           mkState (interimText prev) (finalizedSegments prev)
                   (fullTranscript prev) (sessionId prev)
                   (connectionState prev) (error prev)
                   (bytesSent prev) (queuedChunks prev)
                   (lastPingLatency prev) (connectionHealth prev)
                   (Some moderationResult)
                   (moderationResults prev ++ [moderationResult])) h)
  | Transcription response =>
      call (onTranscription response)
        (setState (transcriptionUpdate response) h)
  end.

(** [clearTranscription()] *)
Definition clearTranscription (h : Hook) : Hook :=
  setState (fun prev =>
    mkState ""%string [] ""%string (sessionId prev) (connectionState prev) (error prev)
            (bytesSent prev) (queuedChunks prev) (lastPingLatency prev)
            (connectionHealth prev) None []) h.

(** [disconnect()]: the socket starts closing with code 1000. *)
Definition disconnect (h : Hook) : Hook :=
  let h := set_configSentRef false h in
  let h := set_pingIntervalRef false h in
  let h := set_audioQueueRef [] h in
  match ws h with
  | Some w => set_ws (Some (mkWS CLOSING (sent w) (outcomes w))) h
  | None => h
  end.

(** The socket closes: react-use-websocket calls [onClose] and publishes
    [readyState = CLOSED]; the effect on [readyState] runs. *)
Definition socket_closes (h : Hook) : Hook :=
  let h :=
    match ws h with
    | Some w => set_ws (Some (mkWS CLOSED (sent w) (outcomes w))) h
    | None => h
    end in
  let h := onClose h in
  let h := set_readyState CLOSED h in
  connectionStateEffect h.

(** *** The hook as a transition system *)

(** What can happen to a mounted hook: calls of its actions by the
    application, events of the socket, timers that fire.  [ESendOutcomes] is
    the environment fixing which of the coming calls of [send] throw. *)
Inductive Event : Type :=
| EConnect
| EDisconnect
| ESocketOpens (sid : string) (now : Z)
| ESocketCloses
| ESocketError
| EMessage (m : ServerMessage) (now : Z)
| EPingInterval (now : Z)
| EPingTimeout
| ESendAudio (audioBuffer : ArrayBuffer)
| EClearTranscription
| ESendOutcomes (outs : list bool).

Definition step (o : Options) (h : Hook) (e : Event) : Hook :=
  match e with
  | EConnect => connect h
  | EDisconnect => disconnect h
  | ESocketOpens sid now => socket_opens o sid now h
  | ESocketCloses => socket_closes h
  | ESocketError => onErrorEvent h
  | EMessage m now => onMessage m now h
  | EPingInterval now => if pingIntervalRef h then sendPing now h else h
  | EPingTimeout => if pingTimeoutRef h then pingTimeout h else h
  | ESendAudio audioBuffer => snd (sendAudio o audioBuffer h)
  | EClearTranscription => clearTranscription h
  | ESendOutcomes outs =>
      match ws h with
      | Some w => set_ws (Some (mkWS (ws_readyState w) (sent w) outs)) h
      | None => h
      end
  end.

(** The state reached from the mounted hook by a sequence of events. *)
Definition run (o : Options) (events : list Event) : Hook :=
  fold_left (step o) events mount.

(** The full transcript is the non-empty entries of the finalized segments
    followed by the interim text, joined by single spaces. *)
Definition transcript_consistent (st : TranscriptionState) : Prop :=
  fullTranscript st
  = String.concat " "%string
      (filter truthy (finalizedSegments st ++ [interimText st])).

(** The last [n] elements of a list. *)
Definition lastn {A : Type} (n : nat) (l : list A) : list A :=
  skipn (length l - n) l.

(** The audio chunks that went over the socket, oldest first. *)
Definition delivered (h : Hook) : list ArrayBuffer :=
  match ws h with
  | Some w => binary_frames (sent w)
  | None => []
  end.

(** The options with their defaults, for a given model. *)
Definition default_options (model : string) : Options :=
  mkOptions model 16000 DEFAULT_MAX_QUEUE_SIZE true.

(** The bytes of a list of chunks. *)
Definition total_bytes (q : list ArrayBuffer) : nat :=
  list_sum (map byteLength q).

(** The coming [n] calls of [send] succeed. *)
Definition sends_succeed (n : nat) (w : WebSocket) : Prop :=
  forallb (fun b => b) (firstn n (outcomes w)) = true.

(** The coming [n] calls of [send] succeed and the next one throws. *)
Definition send_fails_after (n : nat) (w : WebSocket) : Prop :=
  sends_succeed n w /\ nth_error (outcomes w) n = Some false.

End Transport.

(* ================================================================== *)
(** ** The engine: its port log and its inputs *)

Module PCMAux.
Import JS PCM.

(** The payloads of the audio messages of a port log, one per chunk. *)
Fixpoint audio_chunks (log : list Msg) : list (list Z) :=
  match log with
  | [] => []
  | MsgAudio d :: t => d :: audio_chunks t
  | _ :: t => audio_chunks t
  end.



(** What reaches the processor: a message on its port, or a render quantum
    ([process] called with its inputs). *)
Inductive Input : Type :=
| InMessage (c : Command)
| InProcess (inputs : list (list (list float))).

Definition engine_step (fuel : nat) (p : PCMProcessor) (i : Input)
  : option PCMProcessor :=
  match i with
  | InMessage c => Some (handleMessage c p)
  | InProcess inputs =>
      match process fuel inputs p with
      | Some (_, p') => Some p'
      | None => None
      end
  end.

Fixpoint engine_run (fuel : nat) (ins : list Input) (p : PCMProcessor)
  : option PCMProcessor :=
  match ins with
  | [] => Some p
  | i :: rest =>
      match engine_step fuel p i with
      | Some p' => engine_run fuel rest p'
      | None => None
      end
  end.



(** The accumulator is well formed and every chunk posted so far has
    [n] samples, [n] being the buffer size. *)
Definition chunked (n : nat) (p : PCMProcessor) : Prop :=
  wf p /\ bufferSize p = n
  /\ Forall (fun d => length d = n) (audio_chunks (port p)).


End PCMAux.

(* ================================================================== *)
(** ** The transport client: further actions *)

Module TransportAux.
Import Transport.

(** [flush()]: the returned boolean and the new state. *)
Definition flush (h : Hook) : bool * Hook :=
  if negb (ReadyState_eqb (readyState h) OPEN) then (false, h)
  else (true, sendJsonMessage FlushMessage h).

(** The frames sent on the socket so far (none before a socket exists). *)
Definition frames_sent (h : Hook) : list Frame :=
  match ws h with
  | Some w => sent w
  | None => []
  end.

(** The moderation results a list of server messages carries, in order. *)
Fixpoint moderations (ms : list ServerMessage) : list ModerationResult :=
  match ms with
  | [] => []
  | Moderation r :: t => r :: moderations t
  | _ :: t => moderations t
  end.

(** The results [onModeration] was called with, in call order. *)
Fixpoint moderation_calls (cs : list Callback) : list ModerationResult :=
  match cs with
  | [] => []
  | onModeration r :: t => r :: moderation_calls t
  | _ :: t => moderation_calls t
  end.

(** Messages arriving one after the other, all at time [now]. *)
Definition onMessages (ms : list ServerMessage) (now : Z) (h : Hook) : Hook :=
  fold_left (fun h m => onMessage m now h) ms h.

(** A finalized segment as the hook stores it: not empty, no whitespace at
    either end. *)
Definition clean_segment (s : string) : Prop :=
  truthy s = true /\ trimmed s.

(** The health is the classification of the missed-ping counter, or it is
    unhealthy. *)
Definition health_tracks_counter (h : Hook) : Prop :=
  connectionHealth (state h) = health_of (missedPingsRef h)
  \/ connectionHealth (state h) = unhealthy.

End TransportAux.

(* ================================================================== *)
(** ** The recorder hook (useAudioRecorder) *)

Module Recorder.
Import JS PCM.

(** Sample rates are in Hz, whole numbers. *)
Definition fallbackRates : list Z := [48000; 44100; 22050].

(** [getBestSampleRate(preferredRate)]: the chosen rate and
    [needsDownsampling].  [testSampleRateSupport] is what the browser
    answers for a rate, [defaultRate] the rate of an [AudioContext] created
    without options. *)
Definition getBestSampleRate (testSampleRateSupport : Z -> bool)
           (defaultRate preferredRate : Z) : Z * bool :=
  if testSampleRateSupport preferredRate then (preferredRate, false)
  else
    match find testSampleRateSupport fallbackRates with
    | Some rate => (rate, true)
    | None => (defaultRate, negb (defaultRate =? preferredRate))
    end.

(** The callbacks of the hook's options. *)
Inductive Callback : Type :=
| onAudioData (data : list Z)
| onAudioLevel (level : float)
| onError (e : string)
| onStateChange (s : State).

(** The hook with the processor of its worklet node.  The two sides talk
    through the port only: [inbox] holds what the hook posted and the
    processor has not handled yet; of the processor's port log the first
    [dispatched] messages have been dispatched on the main thread. *)
Record AudioRecorder : Type := mkRecorder {
  isRecording : bool;
  error : option string;
  audioLevel : float;
  workletNodeRef : bool              (* true: a node is held *);
  onmessage : bool                   (* true: [port.onmessage] is the handler *);
  processor : option PCMProcessor;
  inbox : list Command;
  dispatched : nat;
  calls : list Callback              (* callbacks invoked so far, oldest first *)
}.

Definition mount : AudioRecorder :=
  mkRecorder false None (Fin 0) false false None [] 0 [].

Definition call (c : Callback) (r : AudioRecorder) : AudioRecorder :=
  mkRecorder (isRecording r) (error r) (audioLevel r) (workletNodeRef r)
             (onmessage r) (processor r) (inbox r) (dispatched r)
             (calls r ++ [c]).

Definition set_processor (p : option PCMProcessor) (r : AudioRecorder)
  : AudioRecorder :=
  mkRecorder (isRecording r) (error r) (audioLevel r) (workletNodeRef r)
             (onmessage r) p (inbox r) (dispatched r) (calls r).

(** [start()], when the microphone is granted, on a recorder that holds no
    node: the node is created with the hook's [bufferSize] and target rate
    on a context running at [contextRate], and the handler is attached. *)
Definition start (contextRate : Z) (bufferSize : nat) (targetSampleRate : Z)
           (r : AudioRecorder) : AudioRecorder :=
  mkRecorder true None (Fin 0) true true
             (Some (constructor (Some bufferSize)
                                (Some (inject_Z targetSampleRate))
                                (inject_Z contextRate)))
             [] 0 (calls r).

(** The handler [workletNode.port.onmessage]. *)
Definition handler (m : Msg) (r : AudioRecorder) : AudioRecorder :=
  match m with
  | MsgAudio buffer => call (onAudioData buffer) r
  | MsgLevel level =>
      call (onAudioLevel level)
        (mkRecorder (isRecording r) (error r) level (workletNodeRef r)
                    (onmessage r) (processor r) (inbox r) (dispatched r)
                    (calls r))
  | MsgError e =>
      match e with
      | EmptyString => r
      | _ =>
          call (onError e)
            (mkRecorder (isRecording r) (Some e) (audioLevel r)
                        (workletNodeRef r) (onmessage r) (processor r)
                        (inbox r) (dispatched r) (calls r))
      end
  | MsgState s => call (onStateChange s) r
  end.

(** The main thread dispatches the next message of the port, if there is
    one: to the handler when it is attached, to nobody otherwise. *)
Definition dispatch (r : AudioRecorder) : AudioRecorder :=
  match processor r with
  | None => r
  | Some p =>
      match nth_error (port p) (dispatched r) with
      | None => r
      | Some m =>
          let r :=
            mkRecorder (isRecording r) (error r) (audioLevel r)
                       (workletNodeRef r) (onmessage r) (processor r)
                       (inbox r) (S (dispatched r)) (calls r) in
          if onmessage r then handler m r else r
      end
  end.

(** The processor handles the next message the hook posted. *)
Definition receive (r : AudioRecorder) : AudioRecorder :=
  match processor r, inbox r with
  | Some p, c :: rest =>
      mkRecorder (isRecording r) (error r) (audioLevel r) (workletNodeRef r)
                 (onmessage r) (Some (handleMessage c p)) rest (dispatched r)
                 (calls r)
  | _, _ => r
  end.

(** A render quantum: the audio thread calls [process]. *)
Definition render (fuel : nat) (inputs : list (list (list float)))
           (r : AudioRecorder) : option AudioRecorder :=
  match processor r with
  | None => Some r
  | Some p =>
      match process fuel inputs p with
      | Some (_, p') => Some (set_processor (Some p') r)
      | None => None
      end
  end.

(** [stop()]: the stop signal is posted, the handler detached and the node
    dropped, in this order and in one task. *)
Definition stop (r : AudioRecorder) : AudioRecorder :=
  if workletNodeRef r then
    mkRecorder false (error r) (Fin 0) false false (processor r)
               (inbox r ++ [CmdStop]) (dispatched r) (calls r)
  else
    mkRecorder false (error r) (Fin 0) false (onmessage r) (processor r)
               (inbox r) (dispatched r) (calls r).

(** The buffers [onAudioData] was called with, in call order. *)
Fixpoint audio_forwarded (cs : list Callback) : list (list Z) :=
  match cs with
  | [] => []
  | onAudioData d :: t => d :: audio_forwarded t
  | _ :: t => audio_forwarded t
  end.

(** The port log of the recorder's processor. *)
Definition port_log (r : AudioRecorder) : list Msg :=
  match processor r with
  | Some p => port p
  | None => []
  end.

End Recorder.

(* ================================================================== *)
(** ** The models hook (useModels) *)

Module Models.

Inductive WorkflowType : Type := streaming | buffered.


(** A model as the API lists it; the workflow and the latency range may be
    missing. *)
Record ModelInfo : Type := mkModel {
  id : string;
  name : string;
  description : string;
  workflow_type : option WorkflowType;
  expected_latency_ms : option (Z * Z)
}.


Definition DEFAULT_LATENCY (w : WorkflowType) : Z * Z :=
  match w with
  | streaming => (100, 500)
  | buffered => (2000, 8000)
  end.

Section Hook.

(** [query.data]: the list of models, once it is loaded. *)
Variable models : option (list ModelInfo).

Definition getModelById (modelId : string) : option ModelInfo :=
  match models with
  | Some ms => find (fun m => String.eqb (id m) modelId) ms
  | None => None
  end.

Definition getWorkflowType (modelId : string) : WorkflowType :=
  match getModelById modelId with
  | Some model =>
      match workflow_type model with
      | Some w => w
      | None => streaming
      end
  | None => streaming
  end.



Definition getExpectedLatency (modelId : string) : Z * Z :=
  match getModelById modelId with
  | Some (mkModel _ _ _ _ (Some latency)) => latency
  | _ => DEFAULT_LATENCY (getWorkflowType modelId)
  end.

Definition getRecommendedTimeout (modelId : string) : Z :=
  let maxLatency := snd (getExpectedLatency modelId) in
  Z.max (maxLatency * 2) 5000.


End Hook.

End Models.

(* ================================================================== *)
(** ** The recording hook (useRecording) *)

Module Recording.
Import Transport.

(** The transcript of the application store and the ref through which the
    callbacks read it; the ref takes the store's value at each render. *)
Record Store : Type := mkStore {
  currentTranscript : string;
  currentTranscriptRef : string
}.

Definition render (s : Store) : Store :=
  mkStore (currentTranscript s) (currentTranscript s).

(** [handleTranscription(response)] *)
Definition handleTranscription (response : TranscriptionResponse) (s : Store)
  : Store :=
  let text := trim (text response) in
  if negb (truthy text) then s
  else if is_final response then
    let current := currentTranscriptRef s in
    mkStore (if truthy current then (current ++ " " ++ text)%string else text)
            (currentTranscriptRef s)
  else s.

(** What the hook's callbacks do to the store: [onTranscription] is
    [handleTranscription]; the others leave it alone. *)
Definition callback (s : Store) (c : Callback) : Store :=
  match c with
  | onTranscription response => handleTranscription response s
  | _ => s
  end.

(** A server message reaches the transcription hook; the callbacks it
    invokes run on the store, and the component renders. *)
Definition message (now : Z) (hs : Hook * Store) (m : ServerMessage)
  : Hook * Store :=
  let h' := onMessage m now (fst hs) in
  (h', render (fold_left callback (skipn (length (calls (fst hs))) (calls h'))
                         (snd hs))).

Definition messages (ms : list ServerMessage) (now : Z) (hs : Hook * Store)
  : Hook * Store :=
  fold_left (message now) ms hs.


(** The variables of the wait loop of [stopRecording]. *)
Record Wait : Type := mkWait {
  waited : Z;
  lastTranscriptLength : nat;
  stableTime : Z;
  hadAnyData : bool
}.

Definition checkInterval : Z := 100.
Definition stableThreshold : Z := 1000.

(** The loop [while (waited < maxWait)] of [stopRecording].  [observed k]
    is the length of the hook's full transcript read by the poll number
    [k]; [fuel] bounds the number of iterations, [None] meaning that the
    loop is still running after [fuel] of them. *)
Fixpoint wait_loop (fuel : nat) (maxWait : Z) (observed : nat -> nat)
         (k : nat) (w : Wait) {struct fuel} : option Wait :=
  if waited w <? maxWait then
    match fuel with
    | O => None
    | S fuel' =>
        let waited' := waited w + checkInterval in
        let currentLength := observed k in
        let w' :=
          if negb (Nat.eqb currentLength (lastTranscriptLength w)) then
            mkWait waited' currentLength 0 true
          else
            mkWait waited' (lastTranscriptLength w)
                   (stableTime w + checkInterval) (hadAnyData w) in
        if (stableThreshold <=? stableTime w') && hadAnyData w' then Some w'
        else wait_loop fuel' maxWait observed (S k) w'
    end
  else Some w.

(** The wait of [stopRecording] after a flush that was sent, for the
    selected model; [initialLength] is the length of the full transcript
    when the loop starts. *)
Definition wait_for_final (fuel : nat)
           (models : option (list Models.ModelInfo)) (currentModel : string)
           (initialLength : nat) (observed : nat -> nat) : option Wait :=
  let recommendedTimeout := Models.getRecommendedTimeout models currentModel in
  let maxWait := Z.max recommendedTimeout 5000 in
  wait_loop fuel maxWait observed 0
            (mkWait 0 initialLength 0 (Nat.ltb 0 initialLength)).

End Recording.

(* ================================================================== *)
(** ** IEEE 754 arithmetic *)

Module IEEE.
Import JS.

(** The code computes in JavaScript numbers, IEEE 754 binary64, and stores
    its samples in a [Float32Array], binary32.  A finite number is kept as
    the rational it is; an operation is the exact operation followed by the
    rounding of the format. *)

(** [2^e], for any integer [e]. *)
Definition pow2 (e : Z) : Q := (2 ^ e)%Q.

(** The integer part of the binary logarithm of a positive rational. *)
Definition ilog2 (q : Q) : Z :=
  let a := Z.log2 (Qnum q) - Z.log2 (Z.pos (Qden q)) in
  if Qle_bool (pow2 a) q then a else a - 1.

(** The nearest integer, the even one of the two at a tie. *)
Definition round_half_even (q : Q) : Z :=
  let f := Qfloor q in
  match (q - inject_Z f ?= 1 # 2)%Q with
  | Lt => f
  | Gt => f + 1
  | Eq => if Z.even f then f else f + 1
  end.

(** The exponent of the last place of [q] in the binary format with [prec]
    bits of precision whose least positive number is [2^emin]: what leaves
    [prec] bits, or [emin] for a subnormal. *)
Definition exponent (prec emin : Z) (q : Q) : Z :=
  Z.max (ilog2 (Qabs q) - prec + 1) emin.

(** Rounding to nearest, ties to even, in that format: the nearest multiple
    of [2^e], [e] being the exponent of the last place. *)
Definition round (prec emin : Z) (q : Q) : Q :=
  if Qeq_bool q 0 then 0%Q
  else
    let e := exponent prec emin q in
    Qred (inject_Z (round_half_even (q / pow2 e)) * pow2 e).

(** A number rounded into a binary format: a finite value is rounded with
    [round]; a result of magnitude [2^emax] or more overflows to the
    infinity of its sign.  NaN and the infinities are kept. *)
Definition binary (prec emin emax : Z) (x : float) : float :=
  match x with
  | Fin q =>
      let r := round prec emin q in
      if Qle_bool (pow2 emax) (Qabs r) then Inf (Qneg q) else Fin r
  | _ => x
  end.

(** binary64, the format of every JavaScript number. *)
Definition double : float -> float := binary 53 (-1074) 1024.

(** binary32, the format of a [Float32Array] element ([Math.fround]). *)
Definition fround : float -> float := binary 24 (-149) 128.

(** binary64 rounding of a value known to stay finite. *)
Definition dbl : Q -> Q := round 53 (-1074).

(** The arithmetic of JavaScript numbers: the exact result, rounded. *)
Definition fadd64 (a b : float) : float := double (fadd a b).
Definition fsub64 (a b : float) : float := double (fsub a b).
Definition fmul64 (a b : float) : float := double (fmul a b).

End IEEE.

(* ================================================================== *)
(** ** The capture/resample engine in the code's arithmetic *)

Module PCM64.
Import JS PCM PCMAux IEEE.

(** [PCMProcessor] with the arithmetic of the code.  The record, the port,
    the clamp and the typed-array accesses are those of [PCM]; every sum,
    difference, product and quotient is rounded to double precision, and a
    sample stored in the accumulator is rounded to single precision.
    [resampleRatio] and [resamplePosition] hold doubles. *)

(** The constructor; the ratio is the quotient of two doubles. *)
Definition constructor (optBufferSize : option nat) (optTargetSampleRate : option Q)
           (sampleRate : Q) : PCMProcessor :=
  let bufferSize :=
    match optBufferSize with
    | Some (S n) => S n
    | _ => 4096%nat
    end in
  let targetSampleRate :=
    match optTargetSampleRate with
    | Some t => if Qzero t then 16000%Q else t
    | None => 16000%Q
    end in
  notifyState running
    (mkPCM bufferSize targetSampleRate (repeat (Fin 0) bufferSize) 0
           initialized true sampleRate (dbl (sampleRate / targetSampleRate)) 0
           512 0 (Fin 0) []).

(** [s < 0 ? s * 0x8000 : s * 0x7FFF], a product of doubles. *)
Definition scale (s : float) : float :=
  if flt s (Fin 0) then fmul64 s (Fin 32768) else fmul64 s (Fin 32767).

Definition quantize (s : float) : Z := ToInt16 (scale s).

(** [flush()] *)
Definition flush (p : PCMProcessor) : PCMProcessor :=
  if Nat.eqb (bytesWritten p) 0 then p
  else
    let int16Data :=
      map (fun i => quantize (get (buffer p) (Z.of_nat i)))
          (seq 0 (bytesWritten p)) in
    set_bytesWritten 0 (postMessage (MsgAudio int16Data) p).

(** [addSample(sample)]: the clamped sample is a double; the store into the
    [Float32Array] rounds it to single precision, the level sum takes the
    square of the double. *)
Definition addSample (sample : float) (p : PCMProcessor) : PCMProcessor :=
  let clampedSample := clamp sample in
  let p := set_buffer (set (buffer p) (bytesWritten p) (fround clampedSample))
                      (S (bytesWritten p)) p in
  let p := set_level (S (levelSampleCount p))
                     (fadd64 (levelSum p) (fmul64 clampedSample clampedSample)) p in
  let p :=
    if Nat.leb (levelUpdateInterval p) (levelSampleCount p) then
      let meanSquare :=
        double (fmul (levelSum p)
                     (Fin (1 / inject_Z (Z.of_nat (levelSampleCount p))))) in
      set_level 0 (Fin 0) (sendAudioLevel meanSquare p)
    else p in
  if Nat.leb (bufferSize p) (bytesWritten p) then flush p else p.

(** [Math.abs(this.resampleRatio - 1) < 0.001]: the difference is rounded,
    and [0.001] is the double nearest to one thousandth. *)
Definition bypass (ratio : Q) : bool :=
  if Qlt_le_dec (Qabs (dbl (ratio - 1))) (dbl (1 / 1000)) then true else false.

(** The [while (this.resamplePosition < inputLength)] loop. *)
Fixpoint resample_loop (fuel : nat) (inputData : list float) (p : PCMProcessor)
  {struct fuel} : option PCMProcessor :=
  let inputLength := Z.of_nat (length inputData) in
  if Qlt_le_dec (resamplePosition p) (inject_Z inputLength) then
    match fuel with
    | O => None
    | S fuel' =>
        let intPos := Qfloor (resamplePosition p) in
        let fracPos := dbl (resamplePosition p - inject_Z intPos) in
        let sample1 := get inputData intPos in
        let sample2 :=
          if intPos + 1 <? inputLength then get inputData (intPos + 1)
          else sample1 in
        let interpolatedSample :=
          fadd64 sample1 (fmul64 (fsub64 sample2 sample1) (Fin fracPos)) in
        let p := addSample interpolatedSample p in
        resample_loop fuel' inputData
          (set_resamplePosition (dbl (resamplePosition p + resampleRatio p)) p)
    end
  else Some p.

(** [processWithDownsampling(inputData)] *)
Definition processWithDownsampling (fuel : nat) (inputData : list float)
           (p : PCMProcessor) : option PCMProcessor :=
  let inputLength := Z.of_nat (length inputData) in
  if bypass (resampleRatio p) then
    Some (fold_left (fun p s => addSample s p) inputData p)
  else
    match resample_loop fuel inputData p with
    | Some p =>
        Some (set_resamplePosition
                (dbl (resamplePosition p - inject_Z inputLength)) p)
    | None => None
    end.

(** [stop()] *)
Definition stop (p : PCMProcessor) : PCMProcessor :=
  let p := if Nat.ltb 0 (bytesWritten p) then flush p else p in
  notifyState stopped (set_isRunning false p).

(** [handleMessage(event)] *)
Definition handleMessage (c : Command) (p : PCMProcessor) : PCMProcessor :=
  match c with
  | CmdStop => stop p
  | CmdConfig bs ts =>
      let p :=
        match bs with
        | Some (S n) =>
            set_buffer (repeat (Fin 0) (S n)) 0 (set_bufferSize (S n) p)
        | _ => p
        end in
      match ts with
      | Some t =>
          if Qlt_le_dec 0 t then set_target t (dbl (inputSampleRate p / t)) p
          else p
      | None => p
      end
  | CmdUnknown => p
  end.

(** [process(inputs)] *)
Definition process (fuel : nat) (inputs : list (list (list float)))
           (p : PCMProcessor) : option (bool * PCMProcessor) :=
  if negb (isRunning p) then Some (false, p)
  else
    match inputs with
    | [] => Some (true, p)
    | input :: _ =>
        match input with
        | [] => Some (true, p)
        | channelData :: _ =>
            match channelData with
            | [] => Some (true, p)
            | _ =>
                match processWithDownsampling fuel channelData p with
                | Some p' => Some (true, p')
                | None => None
                end
            end
        end
    end.

(** Feeding a sequence of frames through [processWithDownsampling]. *)
Fixpoint feed (fuel : nat) (frames : list (list float)) (p : PCMProcessor)
  : option PCMProcessor :=
  match frames with
  | [] => Some p
  | f :: rest =>
      match processWithDownsampling fuel f p with
      | Some p' => feed fuel rest p'
      | None => None
      end
  end.

(** What [flush] would post now, and every quantized sample the engine has
    output or holds, in order. *)
Definition pending (p : PCMProcessor) : list Z :=
  map (fun i => quantize (get (buffer p) (Z.of_nat i))) (seq 0 (bytesWritten p)).

Definition emitted (p : PCMProcessor) : list Z :=
  audio_samples (port p) ++ pending p.

(** The 16-bit value posted for a sample given to [addSample]: the sample is
    clamped, stored in single precision, then scaled and truncated by
    [flush]. *)
Definition posted (sample : float) : Z := quantize (fround (clamp sample)).

(** The resampler between two frames, after [n] input samples in [f] frames,
    in arithmetic whose operations are off by at most [e = 2^(k-53)]: the
    position stays in [0, 2^k], and position plus input consumed is the
    number of outputs times the step [r], up to one [e] per output and per
    frame; the last output was taken inside the input consumed. *)
Definition tracking (k : Z) (r : Q) (n f : nat) (p : PCMProcessor) : Prop :=
  let e := pow2 (k - 53) in
  let c := inject_Z (Z.of_nat (produced p)) in
  wf p
  /\ resampleRatio p = r
  /\ (0 <= resamplePosition p)%Q
  /\ (resamplePosition p <= pow2 k)%Q
  /\ (inject_Z (Z.of_nat n) + resamplePosition p - c * r
        <= (c + inject_Z (Z.of_nat f)) * e)%Q
  /\ (- ((c + inject_Z (Z.of_nat f)) * e)
        <= inject_Z (Z.of_nat n) + resamplePosition p - c * r)%Q
  /\ (forall c' : nat, produced p = S c' ->
        (inject_Z (Z.of_nat c') * r
           - (inject_Z (Z.of_nat c') + inject_Z (Z.of_nat f)) * e
         < inject_Z (Z.of_nat n))%Q).

(** The sizes for which the rounding of the position cannot change the
    count: every frame has at most [L] samples, [2^k] is at least
    [L + R/T + 1], and [T * (F + 2 * floor (N / (R/T)) + 4) * 2^k] is at
    most [2^53], [F] being the number of frames and [N] that of samples. *)
Definition within_precision (R T : Z) (L : nat) (k : Z)
           (frames : list (list float)) : Prop :=
  Forall (fun fr => (length fr <= L)%nat) frames
  /\ (inject_Z (Z.of_nat L) + inject_Z R / inject_Z T + 1 <= pow2 k)%Q
  /\ (inject_Z T
        * (inject_Z (Z.of_nat (length frames))
           + 2 * inject_Z (expected_count (inject_Z R) (inject_Z T)
                                          (total_length frames))
           + 4)
        * pow2 k <= pow2 53)%Q.

(** One input to the processor, and a sequence of them. *)
Definition engine_step (fuel : nat) (p : PCMProcessor) (i : Input)
  : option PCMProcessor :=
  match i with
  | InMessage c => Some (handleMessage c p)
  | InProcess inputs =>
      match process fuel inputs p with
      | Some (_, p') => Some p'
      | None => None
      end
  end.

Fixpoint engine_run (fuel : nat) (ins : list Input) (p : PCMProcessor)
  : option PCMProcessor :=
  match ins with
  | [] => Some p
  | i :: rest =>
      match engine_step fuel p i with
      | Some p' => engine_run fuel rest p'
      | None => None
      end
  end.

(** A step [r] that the position can take in frames of at most [L]
    samples: [L + r] is at most [2^k], and [r] is at least [2^(k-52)], two
    units in the last place of a double of that size. *)
Definition usable_step (k : Z) (L : nat) (r : Q) : Prop :=
  (pow2 (k - 52) <= r)%Q /\ (inject_Z (Z.of_nat L) + r <= pow2 k)%Q.

(** A processor in working order: the accumulator is well formed, the
    position is not negative and the step is usable. *)
Definition steady (k : Z) (L : nat) (p : PCMProcessor) : Prop :=
  wf p /\ (0 <= resamplePosition p)%Q /\ usable_step k L (resampleRatio p).

(** An input that keeps a processor running at input rate [rate] in working
    order: a render quantum has at most [L] samples, and a [config] message
    with a positive target rate gives a usable step. *)
Definition keeps_steady (k : Z) (L : nat) (rate : Q) (i : Input) : Prop :=
  match i with
  | InMessage (CmdConfig _ (Some t)) =>
      (0 < t)%Q -> usable_step k L (dbl (rate / t))
  | InProcess ((channelData :: _) :: _) => (length channelData <= L)%nat
  | _ => True
  end.

End PCM64.


(* ================================================================== *)
(** ** Properties of the engine *)

Module PCMFacts.
Import JS PCM.

(** *** Typed-array reads and writes *)

Lemma set_length (l : list float) (i : nat) (v : float) :
  length (set l i v) = length l.
Proof.
  revert i; induction l as [|h t IH]; intros [|i]; simpl; auto.
Qed.

Lemma nth_set_same (l : list float) (i : nat) (v d : float) :
  (i < length l)%nat -> nth i (set l i v) d = v.
Proof.
  revert i; induction l as [|h t IH]; intros [|i] Hi; simpl in *; try lia; auto.
  apply IH; lia.
Qed.

Lemma nth_set_other (l : list float) (i j : nat) (v d : float) :
  i <> j -> nth j (set l i v) d = nth j l d.
Proof.
  revert i j; induction l as [|h t IH]; intros [|i] [|j] Hij; simpl; auto; try lia.
Qed.

Lemma get_set_same (l : list float) (i : nat) (v : float) :
  (i < length l)%nat -> get (set l i v) (Z.of_nat i) = v.
Proof.
  intros Hi. unfold get.
  destruct (Z.ltb_spec (Z.of_nat i) 0); [lia|].
  rewrite Nat2Z.id. now apply nth_set_same.
Qed.

Lemma get_set_other (l : list float) (i j : nat) (v : float) :
  i <> j -> get (set l i v) (Z.of_nat j) = get l (Z.of_nat j).
Proof.
  intros Hij. unfold get.
  destruct (Z.ltb_spec (Z.of_nat j) 0); [reflexivity|].
  rewrite Nat2Z.id. now apply nth_set_other.
Qed.

(** *** The port log *)

Lemma audio_samples_app (l1 l2 : list Msg) :
  audio_samples (l1 ++ l2) = audio_samples l1 ++ audio_samples l2.
Proof.
  induction l1 as [|m t IH]; simpl; auto.
  destruct m; auto. now rewrite IH, app_assoc.
Qed.

(** *** Clamping and quantization *)


Lemma wrap16_id (t : Z) :
  -32768 <= t <= 32767 ->
  (if t mod 65536 >=? 32768 then t mod 65536 - 65536 else t mod 65536) = t.
Proof.
  intros Ht.
  destruct (Z.geb_spec (t mod 65536) 32768);
    Z.div_mod_to_equations; lia.
Qed.






(** *** The accumulator *)

Lemma pending_store (p : PCMProcessor) (v : float) :
  (bytesWritten p < length (buffer p))%nat ->
  map (fun i => quantize (get (set (buffer p) (bytesWritten p) v) (Z.of_nat i)))
      (seq 0 (S (bytesWritten p)))
  = pending p ++ [quantize v].
Proof.
  intros Hlt. unfold pending. rewrite seq_S, map_app. simpl.
  rewrite get_set_same by assumption. f_equal.
  apply map_ext_in. intros i Hi. apply in_seq in Hi.
  rewrite get_set_other by lia. reflexivity.
Qed.

Ltac pcm_simpl :=
  cbn [set_buffer set_bytesWritten set_bufferSize set_state set_isRunning
       set_target set_resamplePosition set_level postMessage notifyState
       reportError sendAudioLevel
       bufferSize targetSampleRate buffer bytesWritten state isRunning
       inputSampleRate resampleRatio resamplePosition levelUpdateInterval
       levelSampleCount levelSum port] in *.

Lemma flush_spec (p : PCMProcessor) :
  emitted (flush p) = emitted p
  /\ bytesWritten (flush p) = 0%nat
  /\ buffer (flush p) = buffer p
  /\ bufferSize (flush p) = bufferSize p
  /\ resampleRatio (flush p) = resampleRatio p
  /\ resamplePosition (flush p) = resamplePosition p.
Proof.
  unfold flush, emitted.
  destruct (Nat.eqb_spec (bytesWritten p) 0) as [H0|Hn].
  - repeat split; assumption || reflexivity.
  - pcm_simpl. unfold pending at 1. pcm_simpl. cbn [seq map].
    rewrite audio_samples_app. cbn [audio_samples]. rewrite !app_nil_r.
    repeat split; reflexivity.
Qed.

Lemma addSample_spec (s : float) (p : PCMProcessor) :
  wf p ->
  wf (addSample s p)
  /\ emitted (addSample s p) = emitted p ++ [quantize (clamp s)]
  /\ resampleRatio (addSample s p) = resampleRatio p
  /\ resamplePosition (addSample s p) = resamplePosition p
  /\ bufferSize (addSample s p) = bufferSize p.
Proof.
  intros [Hlen Hlt].
  pose proof (pending_store p (clamp s)) as Hst.
  rewrite Hlen in Hst. specialize (Hst Hlt).
  unfold addSample. cbv zeta. pcm_simpl.
  match goal with
  | |- context [if Nat.leb (bufferSize ?q) _ then _ else _] => set (p3 := q)
  end.
  assert (H3 : buffer p3 = set (buffer p) (bytesWritten p) (clamp s)
               /\ bytesWritten p3 = S (bytesWritten p)
               /\ bufferSize p3 = bufferSize p
               /\ audio_samples (port p3) = audio_samples (port p)
               /\ resampleRatio p3 = resampleRatio p
               /\ resamplePosition p3 = resamplePosition p).
  { subst p3.
    destruct (Nat.leb (levelUpdateInterval p) (S (levelSampleCount p)));
      pcm_simpl; rewrite ?audio_samples_app; cbn [audio_samples];
      rewrite ?app_nil_r; repeat split; reflexivity. }
  clearbody p3. destruct H3 as (Hb & Hw & Hs & Ha & Hr & Hp).
  assert (He : emitted p3 = emitted p ++ [quantize (clamp s)]).
  { unfold emitted, pending at 1. rewrite Hb, Hw, Ha, Hst.
    now rewrite app_assoc. }
  destruct (flush_spec p3) as (Fe & Fw & Fb & Fs & Fr & Fp).
  rewrite Hs, Hw.
  destruct (Nat.leb_spec (bufferSize p) (S (bytesWritten p))) as [Hfull|Hroom].
  - unfold wf. rewrite Fe, Fw, Fb, Fs, Fr, Fp, Hb, set_length, Hs.
    repeat split; try assumption; lia.
  - unfold wf. rewrite Hb, Hw, Hs, set_length.
    repeat split; try assumption; lia.
Qed.

Lemma pending_length (p : PCMProcessor) : length (pending p) = bytesWritten p.
Proof. unfold pending. now rewrite length_map, length_seq. Qed.




(** *** The resampling loop *)


Lemma constructor_spec (obs : option nat) (ots : option Q) (sampleRate : Q) :
  wf (constructor obs ots sampleRate)
  /\ emitted (constructor obs ots sampleRate) = []
  /\ resamplePosition (constructor obs ots sampleRate) = 0%Q
  /\ state (constructor obs ots sampleRate) = running
  /\ port (constructor obs ots sampleRate) = [MsgState running].
Proof.
  unfold constructor, wf, emitted, pending. pcm_simpl.
  rewrite repeat_length.
  repeat split; destruct obs as [[|n]|]; reflexivity || apply Nat.lt_0_succ.
Qed.

Lemma constructor_ratio (obs : option nat) (T R : Q) :
  (0 < T)%Q -> resampleRatio (constructor obs (Some T) R) = (R / T)%Q.
Proof.
  intros HT. unfold constructor. pcm_simpl.
  unfold Qzero. destruct (Qeq_bool T 0) eqn:E; [|reflexivity].
  apply Qeq_bool_eq in E. lra.
Qed.

Lemma stop_spec (p : PCMProcessor) :
  port (stop p)
    = port p
      ++ (if Nat.eqb (bytesWritten p) 0 then [] else [MsgAudio (pending p)])
      ++ [MsgState stopped]
  /\ bytesWritten (stop p) = 0%nat
  /\ state (stop p) = stopped
  /\ isRunning (stop p) = false.
Proof.
  unfold stop, flush, pending.
  destruct (bytesWritten p) as [|n] eqn:E; cbn [Nat.ltb Nat.leb Nat.eqb].
  - pcm_simpl. repeat split; assumption || reflexivity.
  - pcm_simpl. rewrite <- app_assoc.
    repeat split; reflexivity.
Qed.

Lemma stop_emitted (p : PCMProcessor) :
  audio_samples (port (stop p)) = emitted p.
Proof.
  destruct (stop_spec p) as (Hport & _). rewrite Hport. unfold emitted.
  rewrite !audio_samples_app. cbn [audio_samples]. rewrite app_nil_r.
  destruct (Nat.eqb_spec (bytesWritten p) 0) as [H0|Hn].
  - unfold pending. rewrite H0. reflexivity.
  - cbn [audio_samples]. now rewrite app_nil_r.
Qed.



(** *** The claims about the engine *)


(** C8.  [stop] posts the accumulator's contents as one audio message exactly
    when the accumulator is not empty, whatever its fill level, then posts
    the [stopped] notification; the engine is then stopped with an empty
    accumulator.  Any number of further calls of [stop] only post the
    notification again, and [process] no longer takes samples. *)
Theorem stop_flushes_once (p : PCMProcessor) (n : nat) :
  port (stop p)
    = port p
      ++ (if Nat.eqb (bytesWritten p) 0 then [] else [MsgAudio (pending p)])
      ++ [MsgState stopped]
  /\ state (stop p) = stopped
  /\ isRunning (stop p) = false
  /\ bytesWritten (stop p) = 0%nat
  /\ port (Nat.iter n stop (stop p))
     = port (stop p) ++ repeat (MsgState stopped) n
  /\ bytesWritten (Nat.iter n stop (stop p)) = 0%nat
  /\ forall fuel inputs,
       process fuel inputs (Nat.iter n stop (stop p))
       = Some (false, Nat.iter n stop (stop p)).
Proof.
  destruct (stop_spec p) as (Hport & Hbw & Hst & Hrun).
  split; [exact Hport|]. split; [exact Hst|]. split; [exact Hrun|].
  split; [exact Hbw|].
  assert (Hiter : port (Nat.iter n stop (stop p))
                    = port (stop p) ++ repeat (MsgState stopped) n
                  /\ bytesWritten (Nat.iter n stop (stop p)) = 0%nat
                  /\ isRunning (Nat.iter n stop (stop p)) = false).
  { induction n as [|n IH].
    - simpl. rewrite app_nil_r. auto.
    - rewrite !Nat.iter_succ. destruct IH as (IHp & IHb & _).
      destruct (stop_spec (Nat.iter n stop (stop p))) as (Hp' & Hb' & _ & Hr').
      rewrite Hp', IHb, IHp. cbn [Nat.eqb app].
      split; [|split; assumption].
      rewrite <- app_assoc. f_equal.
      cbn [repeat]. symmetry. apply repeat_cons. }
  destruct Hiter as (Hp' & Hb' & Hr').
  split; [exact Hp'|]. split; [exact Hb'|].
  intros fuel inputs. unfold process. now rewrite Hr'.
Qed.

End PCMFacts.

(* ================================================================== *)
(** ** Facts about the rounding *)

Module IEEEFacts.
Import JS IEEE.

Lemma pow2_pos (e : Z) : (0 < pow2 e)%Q.
Proof. apply Qpower_0_lt. reflexivity. Qed.

Lemma pow2_plus (a b : Z) : (pow2 (a + b) == pow2 a * pow2 b)%Q.
Proof. apply Qpower_plus. discriminate. Qed.

Lemma pow2_le (a b : Z) : a <= b -> (pow2 a <= pow2 b)%Q.
Proof. intros H. apply Qpower_le_compat_l; [exact H|discriminate]. Qed.

Lemma pow2_lt (a b : Z) : a < b -> (pow2 a < pow2 b)%Q.
Proof. intros H. apply Qpower_lt_compat_l; [exact H|reflexivity]. Qed.

Lemma pow2_Z (n : Z) : 0 <= n -> (pow2 n == inject_Z (2 ^ n))%Q.
Proof. intros H. unfold pow2. now rewrite (Zpower_Qpower 2 n H). Qed.

Lemma pow2_S (a : Z) : (pow2 (a + 1) == 2 * pow2 a)%Q.
Proof. rewrite pow2_plus. change (pow2 1) with 2%Q. ring. Qed.

Lemma ilog2_spec (q : Q) :
  (0 < q)%Q -> (pow2 (ilog2 q) <= q)%Q /\ (q < pow2 (ilog2 q + 1))%Q.
Proof.
  intros Hq. destruct q as [n d]. unfold ilog2. cbn [Qnum Qden].
  assert (Hn : 0 < n) by (unfold Qlt in Hq; cbn in Hq; lia).
  pose proof (Z.log2_spec n Hn) as [Hn1 Hn2].
  pose proof (Z.log2_spec (Z.pos d) (Pos2Z.is_pos d)) as [Hd1 Hd2].
  pose proof (Z.log2_nonneg n) as Hln.
  pose proof (Z.log2_nonneg (Z.pos d)) as Hld.
  set (ln := Z.log2 n) in *. set (ld := Z.log2 (Z.pos d)) in *.
  assert (Eq : (n # d == inject_Z n / inject_Z (Z.pos d))%Q)
    by apply Qmake_Qdiv.
  assert (Hdpos : (0 < inject_Z (Z.pos d))%Q)
    by (change 0%Q with (inject_Z 0); rewrite <- Zlt_Qlt; lia).
  (* 2^(a-1) < q < 2^(a+1) *)
  assert (Hhi : (n # d < pow2 (ln - ld + 1))%Q).
  { rewrite Eq. apply Qlt_shift_div_r; [exact Hdpos|].
    assert (H1 : (inject_Z n < pow2 (ln + 1))%Q).
    { rewrite pow2_Z by lia. rewrite <- Zlt_Qlt.
      replace (ln + 1) with (Z.succ ln) by lia. exact Hn2. }
    assert (H2 : (pow2 ld <= inject_Z (Z.pos d))%Q).
    { rewrite pow2_Z by lia. rewrite <- Zle_Qle. exact Hd1. }
    assert (H3 : (pow2 (ln + 1) == pow2 (ln - ld + 1) * pow2 ld)%Q).
    { rewrite <- pow2_plus. f_equiv. lia. }
    pose proof (pow2_pos (ln - ld + 1)) as Hp.
    assert (H4 : (pow2 (ln - ld + 1) * pow2 ld
                  <= pow2 (ln - ld + 1) * inject_Z (Z.pos d))%Q).
    { rewrite !(Qmult_comm (pow2 (ln - ld + 1))).
      apply Qmult_le_compat_r; [exact H2|lra]. }
    lra. }
  assert (Hlo : (pow2 (ln - ld - 1) < n # d)%Q).
  { rewrite Eq. apply Qlt_shift_div_l; [exact Hdpos|].
    assert (H1 : (pow2 ln <= inject_Z n)%Q).
    { rewrite pow2_Z by lia. rewrite <- Zle_Qle. exact Hn1. }
    assert (H2 : (inject_Z (Z.pos d) < pow2 (ld + 1))%Q).
    { rewrite pow2_Z by lia. rewrite <- Zlt_Qlt.
      replace (ld + 1) with (Z.succ ld) by lia. exact Hd2. }
    assert (H3 : (pow2 ln == pow2 (ln - ld - 1) * pow2 (ld + 1))%Q).
    { rewrite <- pow2_plus. f_equiv. lia. }
    pose proof (pow2_pos (ln - ld - 1)) as Hp.
    assert (H4 : (pow2 (ln - ld - 1) * inject_Z (Z.pos d)
                  < pow2 (ln - ld - 1) * pow2 (ld + 1))%Q).
    { rewrite !(Qmult_comm (pow2 (ln - ld - 1))).
      apply Qmult_lt_compat_r; [exact Hp|exact H2]. }
    lra. }
  destruct (Qle_bool (pow2 (ln - ld)) (n # d)) eqn:E.
  - apply Qle_bool_iff in E. split; [exact E|exact Hhi].
  - split; [apply Qlt_le_weak; exact Hlo|].
    replace (ln - ld - 1 + 1) with (ln - ld) by lia.
    apply Qnot_le_lt. intros H. apply Qle_bool_iff in H. congruence.
Qed.

Lemma round_half_even_spec (q : Q) :
  (Qabs (inject_Z (round_half_even q) - q) <= 1 # 2)%Q
  /\ Qfloor q <= round_half_even q <= Qfloor q + 1.
Proof.
  unfold round_half_even. cbv zeta.
  pose proof (Qfloor_le q) as H1. pose proof (Qlt_floor q) as H2.
  rewrite inject_Z_plus in H2. change (inject_Z 1) with 1%Q in H2.
  destruct (q - inject_Z (Qfloor q) ?= 1 # 2)%Q eqn:E.
  - apply Qeq_alt in E.
    destruct (Z.even (Qfloor q)); (split; [|lia]); apply Qabs_case; intros _;
      rewrite ?inject_Z_plus; change (inject_Z 1) with 1%Q; lra.
  - apply Qlt_alt in E. split; [|lia]. apply Qabs_case; intros _; lra.
  - apply Qgt_alt in E. split; [|lia].
    rewrite inject_Z_plus. change (inject_Z 1) with 1%Q.
    apply Qabs_case; intros _; lra.
Qed.

Lemma round_half_even_le (q : Q) (b : Z) :
  (q <= inject_Z b)%Q -> round_half_even q <= b.
Proof.
  intros H. destruct (round_half_even_spec q) as [Habs [_ Hhi]].
  destruct (Z_le_gt_dec (round_half_even q) b) as [Hle|Hgt]; [exact Hle|].
  exfalso.
  assert (Hf : Qfloor q = b).
  { assert (Qfloor q <= b)
      by (apply Qfloor_resp_le in H; now rewrite Qfloor_Z in H).
    lia. }
  assert (E : (q == inject_Z b)%Q).
  { pose proof (Qfloor_le q) as H1. rewrite Hf in H1. lra. }
  assert (Hr : round_half_even q = b + 1) by lia.
  rewrite Hr, inject_Z_plus in Habs. change (inject_Z 1) with 1%Q in Habs.
  revert Habs. apply Qabs_case; intros; lra.
Qed.

Lemma round_half_even_ge (q : Q) (b : Z) :
  (inject_Z b <= q)%Q -> b <= round_half_even q.
Proof.
  intros H. destruct (round_half_even_spec q) as [_ [Hlo _]].
  apply Qfloor_resp_le in H. rewrite Qfloor_Z in H. lia.
Qed.

Section Format.

Variables prec emin : Z.
Hypothesis prec_pos : 1 <= prec.

Let rnd := round prec emin.

Local Abbreviation exponent := (IEEE.exponent prec emin).

Lemma round_eq (q : Q) :
  ~ (q == 0)%Q ->
  (rnd q == inject_Z (round_half_even (q / pow2 (exponent q)))
            * pow2 (exponent q))%Q.
Proof.
  intros Hq. unfold rnd, round.
  destruct (Qeq_bool q 0) eqn:E; [apply Qeq_bool_iff in E; contradiction|].
  cbv zeta. rewrite Qred_correct. reflexivity.
Qed.

Lemma round_0 (q : Q) : (q == 0)%Q -> rnd q = 0%Q.
Proof.
  intros Hq. unfold rnd, round. apply Qeq_bool_iff in Hq. now rewrite Hq.
Qed.

(** Rounding keeps the sign. *)
Lemma round_nonneg (q : Q) : (0 <= q)%Q -> (0 <= rnd q)%Q.
Proof.
  intros Hq. destruct (Qeq_dec q 0) as [E|E]; [now rewrite round_0|].
  rewrite round_eq by exact E.
  pose proof (pow2_pos (exponent q)) as Hp.
  apply Qmult_le_0_compat; [|lra].
  change 0%Q with (inject_Z 0). rewrite <- Zle_Qle.
  apply round_half_even_ge. change (inject_Z 0) with 0%Q.
  apply Qle_shift_div_l; [exact Hp|lra].
Qed.

(** The error is at most half a unit in the last place. *)
Lemma round_error_ulp (q : Q) :
  ~ (q == 0)%Q -> (Qabs (rnd q - q) <= pow2 (exponent q - 1))%Q.
Proof.
  intros Hq. rewrite round_eq by exact Hq.
  set (e := exponent q). pose proof (pow2_pos e) as Hp.
  destruct (round_half_even_spec (q / pow2 e)) as [Habs _].
  set (m := inject_Z (round_half_even (q / pow2 e))) in *.
  assert (E1 : (m * pow2 e - q == (m - q / pow2 e) * pow2 e)%Q)
    by (field; lra).
  rewrite E1, Qabs_Qmult, (Qabs_pos (pow2 e)) by lra.
  assert (E2 : (pow2 (e - 1) == (1 # 2) * pow2 e)%Q).
  { replace e with ((e - 1) + 1) at 2 by lia. rewrite pow2_S. field. }
  rewrite E2. apply Qmult_le_compat_r; [exact Habs|lra].
Qed.

(** A value of magnitude at most [2^k] is rounded with an error of at most
    [2^(k - prec)], as long as [2^k] is not below the normal range. *)
Lemma round_error (k : Z) (q : Q) :
  emin + prec - 1 <= k ->
  (Qabs q <= pow2 k)%Q ->
  (Qabs (rnd q - q) <= pow2 (k - prec))%Q.
Proof.
  intros Hk Hq. destruct (Qeq_dec q 0) as [E|E].
  - rewrite round_0 by exact E. rewrite E.
    change (Qabs (0 - 0)) with 0%Q. apply Qlt_le_weak, pow2_pos.
  - eapply Qle_trans; [apply round_error_ulp; exact E|].
    apply pow2_le. unfold IEEE.exponent.
    assert (Hpos : (0 < Qabs q)%Q).
    { pose proof (Qabs_nonneg q) as H0.
      destruct (Qeq_dec (Qabs q) 0) as [Z0|NZ]; [|lra].
      exfalso. apply E. revert Z0. apply Qabs_case; intros; lra. }
    destruct (ilog2_spec (Qabs q) Hpos) as [Hlo _].
    assert (Hlg : ilog2 (Qabs q) <= k).
    { destruct (Z_le_gt_dec (ilog2 (Qabs q)) k) as [H|H]; [exact H|].
      exfalso. assert (pow2 k < pow2 (ilog2 (Qabs q)))%Q by (apply pow2_lt; lia).
      lra. }
    lia.
Qed.


Lemma round_nonpos (q : Q) : (q <= 0)%Q -> (rnd q <= 0)%Q.
Proof.
  intros Hq. destruct (Qeq_dec q 0) as [E|E];
    [rewrite round_0 by exact E; apply Qle_refl|].
  rewrite round_eq by exact E.
  pose proof (pow2_pos (exponent q)) as Hp.
  assert (H : round_half_even (q / pow2 (exponent q)) <= 0).
  { apply round_half_even_le. change (inject_Z 0) with 0%Q.
    apply Qle_shift_div_r; [exact Hp|lra]. }
  rewrite Zle_Qle in H. change (inject_Z 0) with 0%Q in H.
  set (m := inject_Z (round_half_even (q / pow2 (exponent q)))) in *.
  assert (H2 : (0 <= (- m) * pow2 (exponent q))%Q)
    by (apply Qmult_le_0_compat; lra).
  lra.
Qed.

(** A bound on the grid of the rounded value is kept by rounding. *)
Lemma round_le_grid (q : Q) (m : Z) :
  ~ (q == 0)%Q ->
  (q <= inject_Z m * pow2 (exponent q))%Q ->
  (rnd q <= inject_Z m * pow2 (exponent q))%Q.
Proof.
  intros E H. rewrite round_eq by exact E.
  pose proof (pow2_pos (exponent q)) as Hp.
  apply Qmult_le_compat_r; [|lra].
  rewrite <- Zle_Qle. apply round_half_even_le.
  apply Qle_shift_div_r; [exact Hp|exact H].
Qed.

Lemma round_ge_grid (q : Q) (m : Z) :
  ~ (q == 0)%Q ->
  (inject_Z m * pow2 (exponent q) <= q)%Q ->
  (inject_Z m * pow2 (exponent q) <= rnd q)%Q.
Proof.
  intros E H. rewrite round_eq by exact E.
  pose proof (pow2_pos (exponent q)) as Hp.
  apply Qmult_le_compat_r; [|lra].
  rewrite <- Zle_Qle. apply round_half_even_ge.
  apply Qle_shift_div_l; [exact Hp|exact H].
Qed.

Lemma pow2_grid (l e : Z) :
  e <= l -> (pow2 l == inject_Z (2 ^ (l - e)) * pow2 e)%Q.
Proof.
  intros H. rewrite <- pow2_Z by lia. rewrite <- pow2_plus.
  replace (l - e + e) with l by lia. reflexivity.
Qed.

Lemma round_le_pow2 (q : Q) (l : Z) :
  ~ (q == 0)%Q -> exponent q <= l -> (q <= pow2 l)%Q -> (rnd q <= pow2 l)%Q.
Proof.
  intros E He H. rewrite (pow2_grid l (exponent q) He) in *.
  now apply round_le_grid.
Qed.

Lemma round_ge_pow2 (q : Q) (l : Z) :
  ~ (q == 0)%Q -> exponent q <= l -> (pow2 l <= q)%Q -> (pow2 l <= rnd q)%Q.
Proof.
  intros E He H. rewrite (pow2_grid l (exponent q) He) in *.
  now apply round_ge_grid.
Qed.

Lemma round_le_opp_pow2 (q : Q) (l : Z) :
  ~ (q == 0)%Q -> exponent q <= l -> (q <= - pow2 l)%Q -> (rnd q <= - pow2 l)%Q.
Proof.
  intros E He H.
  assert (G : (- pow2 l == inject_Z (- 2 ^ (l - exponent q))
                            * pow2 (exponent q))%Q).
  { rewrite inject_Z_opp, (pow2_grid l (exponent q) He). ring. }
  rewrite G in *. now apply round_le_grid.
Qed.

Lemma round_ge_opp_pow2 (q : Q) (l : Z) :
  ~ (q == 0)%Q -> exponent q <= l -> (- pow2 l <= q)%Q -> (- pow2 l <= rnd q)%Q.
Proof.
  intros E He H.
  assert (G : (- pow2 l == inject_Z (- 2 ^ (l - exponent q))
                            * pow2 (exponent q))%Q).
  { rewrite inject_Z_opp, (pow2_grid l (exponent q) He). ring. }
  rewrite G in *. now apply round_ge_grid.
Qed.

Lemma Qabs_pos_lt (q : Q) : ~ (q == 0)%Q -> (0 < Qabs q)%Q.
Proof.
  intros E. pose proof (Qabs_nonneg q) as H0.
  destruct (Qeq_dec (Qabs q) 0) as [Z0|NZ]; [|lra].
  exfalso. apply E. revert Z0. apply Qabs_case; intros; lra.
Qed.

Lemma ilog2_le (q : Q) (k : Z) :
  (0 < q)%Q -> (q <= pow2 k)%Q -> ilog2 q <= k.
Proof.
  intros Hq H. destruct (ilog2_spec q Hq) as [Hlo _].
  destruct (Z_le_gt_dec (ilog2 q) k) as [L|G]; [exact L|].
  exfalso. assert (pow2 k < pow2 (ilog2 q))%Q by (apply pow2_lt; lia). lra.
Qed.

Lemma ilog2_lt (q : Q) (k : Z) :
  (0 < q)%Q -> (q < pow2 k)%Q -> ilog2 q < k.
Proof.
  intros Hq H. destruct (ilog2_spec q Hq) as [Hlo _].
  destruct (Z_lt_ge_dec (ilog2 q) k) as [L|G]; [exact L|].
  exfalso. assert (pow2 k <= pow2 (ilog2 q))%Q by (apply pow2_le; lia). lra.
Qed.

Lemma ilog2_mono (q1 q2 : Q) :
  (0 < q1)%Q -> (q1 <= q2)%Q -> ilog2 q1 <= ilog2 q2.
Proof.
  intros H1 H12.
  destruct (ilog2_spec q1 H1) as [Hlo1 _].
  destruct (ilog2_spec q2 ltac:(lra)) as [_ Hhi2].
  assert (ilog2 q1 < ilog2 q2 + 1); [|lia].
  apply ilog2_lt; [exact H1|lra].
Qed.

Lemma exponent_le (q : Q) (k : Z) :
  ~ (q == 0)%Q -> emin <= k -> (Qabs q <= pow2 k)%Q -> exponent q <= k.
Proof.
  intros E Hk H. unfold IEEE.exponent.
  pose proof (ilog2_le (Qabs q) k (Qabs_pos_lt q E) H). lia.
Qed.

(** A power of two in the format's range bounds the rounded value as it
    bounds the value. *)
Lemma round_bound (k : Z) (q : Q) :
  emin <= k -> (Qabs q <= pow2 k)%Q -> (Qabs (rnd q) <= pow2 k)%Q.
Proof.
  intros Hk H. destruct (Qeq_dec q 0) as [E|E].
  - rewrite round_0 by exact E. apply Qlt_le_weak, pow2_pos.
  - pose proof (exponent_le q k E Hk H) as He.
    assert (H1 : (q <= pow2 k)%Q /\ (- pow2 k <= q)%Q)
      by (revert H; apply Qabs_case; intros; split; lra).
    destruct H1 as [H1 H2].
    pose proof (round_le_pow2 q k E He H1).
    pose proof (round_ge_opp_pow2 q k E He H2).
    apply Qabs_case; intros; lra.
Qed.

Lemma round_half_even_mono (q1 q2 : Q) :
  (q1 <= q2)%Q -> round_half_even q1 <= round_half_even q2.
Proof.
  intros H. pose proof (Qfloor_resp_le _ _ H) as Hf.
  destruct (round_half_even_spec q1) as [_ [_ H1]].
  destruct (round_half_even_spec q2) as [_ [H2 _]].
  destruct (Z.eq_dec (Qfloor q1) (Qfloor q2)) as [Ef|Nf]; [|lia].
  clear H1 H2. unfold round_half_even. cbv zeta. rewrite <- Ef.
  destruct (q1 - inject_Z (Qfloor q1) ?= 1 # 2)%Q eqn:C1;
    destruct (q2 - inject_Z (Qfloor q1) ?= 1 # 2)%Q eqn:C2;
    first [rewrite <- Qeq_alt in C1 | rewrite <- Qlt_alt in C1
          | rewrite <- Qgt_alt in C1];
    first [rewrite <- Qeq_alt in C2 | rewrite <- Qlt_alt in C2
          | rewrite <- Qgt_alt in C2];
    first [lia | destruct (Z.even (Qfloor q1)); lia | exfalso; lra].
Qed.

Lemma round_half_even_comp (q1 q2 : Q) :
  (q1 == q2)%Q -> round_half_even q1 = round_half_even q2.
Proof.
  intros E. apply Z.le_antisymm; apply round_half_even_mono; lra.
Qed.

Lemma ilog2_comp (q1 q2 : Q) :
  (0 < q1)%Q -> (q1 == q2)%Q -> ilog2 q1 = ilog2 q2.
Proof.
  intros H E. apply Z.le_antisymm; apply ilog2_mono; lra.
Qed.

Lemma exponent_comp (q1 q2 : Q) :
  ~ (q1 == 0)%Q -> (q1 == q2)%Q -> exponent q1 = exponent q2.
Proof.
  intros N E. unfold IEEE.exponent. f_equal. f_equal. f_equal.
  apply ilog2_comp; [now apply Qabs_pos_lt|now rewrite E].
Qed.

(** Rounding is a function of the value, whatever the fraction that
    represents it. *)
Lemma round_comp (q1 q2 : Q) : (q1 == q2)%Q -> rnd q1 = rnd q2.
Proof.
  intros E. unfold rnd, round.
  destruct (Qeq_bool q1 0) eqn:B1; destruct (Qeq_bool q2 0) eqn:B2;
    try reflexivity.
  - apply Qeq_bool_iff in B1. apply Qeq_bool_neq in B2. lra.
  - apply Qeq_bool_iff in B2. apply Qeq_bool_neq in B1. lra.
  - apply Qeq_bool_neq in B1. cbv zeta. apply Qred_complete.
    fold (exponent q1). fold (exponent q2).
    rewrite (exponent_comp q1 q2 B1 E).
    rewrite (round_half_even_comp (q1 / pow2 (exponent q2))
                                  (q2 / pow2 (exponent q2))).
    + reflexivity.
    + now rewrite E.
Qed.

Lemma round_same_exponent (q1 q2 : Q) :
  ~ (q1 == 0)%Q -> ~ (q2 == 0)%Q -> exponent q1 = exponent q2 ->
  (q1 <= q2)%Q -> (rnd q1 <= rnd q2)%Q.
Proof.
  intros N1 N2 Ee H. rewrite !round_eq by assumption. rewrite Ee.
  pose proof (pow2_pos (exponent q2)) as Hp.
  apply Qmult_le_compat_r; [|lra].
  rewrite <- Zle_Qle. apply round_half_even_mono.
  apply Qmult_le_compat_r; [exact H|].
  apply Qlt_le_weak, Qinv_lt_0_compat, Hp.
Qed.

(** Rounding is monotone. *)
Lemma round_mono (q1 q2 : Q) : (q1 <= q2)%Q -> (rnd q1 <= rnd q2)%Q.
Proof.
  intros H.
  destruct (Qlt_le_dec 0 q1) as [P1|NP1].
  - (* both positive *)
    assert (N1 : ~ (q1 == 0)%Q) by lra. assert (N2 : ~ (q2 == 0)%Q) by lra.
    assert (A1 : (Qabs q1 == q1)%Q) by (apply Qabs_pos; lra).
    assert (A2 : (Qabs q2 == q2)%Q) by (apply Qabs_pos; lra).
    assert (Hl : ilog2 (Qabs q1) <= ilog2 (Qabs q2))
      by (apply ilog2_mono; [|rewrite A1, A2; exact H]; lra).
    destruct (Z.eq_dec (exponent q1) (exponent q2)) as [Ee|Ne];
      [now apply round_same_exponent|].
    destruct (ilog2_spec (Qabs q1) ltac:(lra)) as [_ Hhi1].
    destruct (ilog2_spec (Qabs q2) ltac:(lra)) as [Hlo2 _].
    unfold IEEE.exponent in Ne.
    apply Qle_trans with (pow2 (ilog2 (Qabs q2))).
    + apply round_le_pow2; [exact N1|unfold IEEE.exponent; lia|].
      assert (pow2 (ilog2 (Qabs q1) + 1) <= pow2 (ilog2 (Qabs q2)))%Q
        by (apply pow2_le; lia).
      lra.
    + apply round_ge_pow2; [exact N2|unfold IEEE.exponent; lia|lra].
  - destruct (Qlt_le_dec q2 0) as [P2|NP2].
    + (* both negative *)
      assert (N1 : ~ (q1 == 0)%Q) by lra. assert (N2 : ~ (q2 == 0)%Q) by lra.
      assert (A1 : (Qabs q1 == - q1)%Q) by (apply Qabs_neg; lra).
      assert (A2 : (Qabs q2 == - q2)%Q) by (apply Qabs_neg; lra).
      assert (Hl : ilog2 (Qabs q2) <= ilog2 (Qabs q1))
        by (apply ilog2_mono; [|rewrite A1, A2]; lra).
      destruct (Z.eq_dec (exponent q1) (exponent q2)) as [Ee|Ne];
        [now apply round_same_exponent|].
      destruct (ilog2_spec (Qabs q2) ltac:(lra)) as [_ Hhi2].
      destruct (ilog2_spec (Qabs q1) ltac:(lra)) as [Hlo1 _].
      unfold IEEE.exponent in Ne.
      apply Qle_trans with (- pow2 (ilog2 (Qabs q1)))%Q.
      * apply round_le_opp_pow2; [exact N1|unfold IEEE.exponent; lia|lra].
      * apply round_ge_opp_pow2; [exact N2|unfold IEEE.exponent; lia|].
        assert (pow2 (ilog2 (Qabs q2) + 1) <= pow2 (ilog2 (Qabs q1)))%Q
          by (apply pow2_le; lia).
        lra.
    + pose proof (round_nonpos q1 NP1). pose proof (round_nonneg q2 NP2). lra.
Qed.

End Format.

End IEEEFacts.

(* ================================================================== *)
(** ** Facts about the engine in the code's arithmetic *)

Module PCM64Facts.
Import JS PCM IEEE IEEEFacts PCMFacts.

(** *** The accumulator *)

Lemma flush_count (p : PCMProcessor) :
  produced (PCM64.flush p) = produced p
  /\ bytesWritten (PCM64.flush p) = 0%nat
  /\ buffer (PCM64.flush p) = buffer p
  /\ bufferSize (PCM64.flush p) = bufferSize p
  /\ resampleRatio (PCM64.flush p) = resampleRatio p
  /\ resamplePosition (PCM64.flush p) = resamplePosition p
  /\ inputSampleRate (PCM64.flush p) = inputSampleRate p.
Proof.
  unfold PCM64.flush, produced.
  destruct (Nat.eqb_spec (bytesWritten p) 0) as [H0|Hn].
  - rewrite H0. repeat split; reflexivity.
  - pcm_simpl. rewrite audio_samples_app. cbn [audio_samples].
    rewrite app_nil_r, length_app, length_map, length_seq.
    repeat split; try reflexivity. lia.
Qed.

Lemma addSample_count (s : float) (p : PCMProcessor) :
  wf p ->
  wf (PCM64.addSample s p)
  /\ produced (PCM64.addSample s p) = S (produced p)
  /\ resampleRatio (PCM64.addSample s p) = resampleRatio p
  /\ resamplePosition (PCM64.addSample s p) = resamplePosition p
  /\ bufferSize (PCM64.addSample s p) = bufferSize p
  /\ inputSampleRate (PCM64.addSample s p) = inputSampleRate p.
Proof.
  intros [Hlen Hlt].
  unfold PCM64.addSample. cbv zeta. pcm_simpl.
  match goal with
  | |- context [if Nat.leb (bufferSize ?q) _ then _ else _] => set (p3 := q)
  end.
  assert (H3 : buffer p3
               = set (buffer p) (bytesWritten p) (fround (clamp s))
               /\ bytesWritten p3 = S (bytesWritten p)
               /\ bufferSize p3 = bufferSize p
               /\ audio_samples (port p3) = audio_samples (port p)
               /\ resampleRatio p3 = resampleRatio p
               /\ resamplePosition p3 = resamplePosition p
               /\ inputSampleRate p3 = inputSampleRate p).
  { subst p3.
    destruct (Nat.leb (levelUpdateInterval p) (S (levelSampleCount p)));
      pcm_simpl; rewrite ?audio_samples_app; cbn [audio_samples];
      rewrite ?app_nil_r; repeat split; reflexivity. }
  clearbody p3. destruct H3 as (Hb & Hw & Hs & Ha & Hr & Hp & Hi).
  assert (Hc : produced p3 = S (produced p)).
  { unfold produced. rewrite Ha, Hw. lia. }
  destruct (flush_count p3) as (Fc & Fw & Fb & Fs & Fr & Fp & Fi).
  rewrite Hs, Hw.
  destruct (Nat.leb_spec (bufferSize p) (S (bytesWritten p))) as [Hfull|Hroom].
  - unfold wf. rewrite Fc, Fw, Fb, Fs, Fr, Fp, Fi, Hb, set_length, Hs.
    repeat split; try assumption; lia.
  - unfold wf. rewrite Hb, Hw, Hs, set_length.
    repeat split; try assumption; lia.
Qed.

Lemma fold_addSample_count (xs : list float) (p : PCMProcessor) :
  wf p ->
  wf (fold_left (fun p s => PCM64.addSample s p) xs p)
  /\ produced (fold_left (fun p s => PCM64.addSample s p) xs p)
     = (produced p + length xs)%nat
  /\ resampleRatio (fold_left (fun p s => PCM64.addSample s p) xs p)
     = resampleRatio p
  /\ resamplePosition (fold_left (fun p s => PCM64.addSample s p) xs p)
     = resamplePosition p
  /\ inputSampleRate (fold_left (fun p s => PCM64.addSample s p) xs p)
     = inputSampleRate p.
Proof.
  revert p. induction xs as [|x xs IH]; intros p Hwf; cbn [fold_left length].
  - rewrite Nat.add_0_r. auto.
  - destruct (addSample_count x p Hwf) as (Hwf1 & Hc1 & Hr1 & Hp1 & _ & Hi1).
    destruct (IH _ Hwf1) as (Hwf2 & Hc2 & Hr2 & Hp2 & Hi2).
    split; [assumption|]. split; [lia|]. split; [congruence|].
    split; congruence.
Qed.

Lemma constructor_count (obs : option nat) (ots : option Q) (sampleRate : Q) :
  wf (PCM64.constructor obs ots sampleRate)
  /\ produced (PCM64.constructor obs ots sampleRate) = 0%nat
  /\ resamplePosition (PCM64.constructor obs ots sampleRate) = 0%Q
  /\ inputSampleRate (PCM64.constructor obs ots sampleRate) = sampleRate.
Proof.
  unfold PCM64.constructor, wf, produced. pcm_simpl.
  rewrite repeat_length.
  repeat split; destruct obs as [[|n]|]; reflexivity || apply Nat.lt_0_succ.
Qed.

Lemma constructor_ratio64 (obs : option nat) (T R : Q) :
  (0 < T)%Q ->
  resampleRatio (PCM64.constructor obs (Some T) R) = dbl (R / T).
Proof.
  intros HT. unfold PCM64.constructor. pcm_simpl.
  unfold Qzero. destruct (Qeq_bool T 0) eqn:E; [|reflexivity].
  apply Qeq_bool_eq in E. lra.
Qed.

(** *** Double-precision steps *)

Lemma Qabs_le_iff (x b : Q) : (Qabs x <= b)%Q <-> (- b <= x)%Q /\ (x <= b)%Q.
Proof. apply Qabs_Qle_condition. Qed.

(** The error of one rounded operation whose exact result is at most [2^k]
    in magnitude: at most [2^(k - 53)]. *)
Lemma dbl_error (k : Z) (q : Q) :
  -1022 <= k -> (- pow2 k <= q)%Q -> (q <= pow2 k)%Q ->
  (q - pow2 (k - 53) <= dbl q)%Q /\ (dbl q <= q + pow2 (k - 53))%Q.
Proof.
  intros Hk H1 H2.
  pose proof (round_error 53 (-1074) k q ltac:(lia)) as H.
  assert (Ha : (Qabs q <= pow2 k)%Q) by (apply Qabs_le_iff; split; lra).
  specialize (H Ha). apply Qabs_le_iff in H. unfold dbl. split; lra.
Qed.

Lemma dbl_nonneg (q : Q) : (0 <= q)%Q -> (0 <= dbl q)%Q.
Proof. apply round_nonneg. Qed.

Lemma dbl_le_pow2 (k : Z) (q : Q) :
  -1074 <= k -> (0 <= q)%Q -> (q <= pow2 k)%Q -> (dbl q <= pow2 k)%Q.
Proof.
  intros Hk H0 H1.
  assert (Ha : (Qabs q <= pow2 k)%Q) by (rewrite Qabs_pos; assumption).
  pose proof (round_bound 53 (-1074) ltac:(lia) k q Hk Ha) as H.
  apply Qabs_le_iff in H. unfold dbl. lra.
Qed.


(** *** The resampling loop in double precision *)

Local Abbreviation Qn j := (inject_Z (Z.of_nat j)).

Lemma Qn_S (j : nat) : (Qn (S j) == Qn j + 1)%Q.
Proof.
  rewrite Nat2Z.inj_succ, <- Z.add_1_r, inject_Z_plus. reflexivity.
Qed.

Lemma Qn_nonneg (j : nat) : (0 <= Qn j)%Q.
Proof. change 0%Q with (inject_Z 0). rewrite <- Zle_Qle. lia. Qed.

Lemma resample_loop_done (inputData : list float) (p : PCMProcessor) (fuel : nat) :
  (Qn (length inputData) <= resamplePosition p)%Q ->
  PCM64.resample_loop fuel inputData p = Some p.
Proof.
  intros H. destruct fuel; cbn [PCM64.resample_loop]; cbv zeta;
    destruct (Qlt_le_dec (resamplePosition p) (Qn (length inputData)));
    try reflexivity; lra.
Qed.

(** The loop over one frame.  [k] bounds the magnitudes: the frame length
    plus one step is at most [2^k], so that each addition is off by at most
    [e = 2^(k-53)]; the step is larger than [e].  Then the loop ends, within
    [m] iterations when [m] steps of [r - e] cover what is left of the frame.
    It outputs [j] samples; the position has advanced by [j] steps, up to
    [j] rounding errors; the last output was taken inside the frame. *)
Lemma resample_loop_count (inputData : list float) (k : Z) (r : Q) (m : nat) :
  -1022 <= k ->
  (pow2 (k - 53) < r)%Q ->
  (Qn (length inputData) + r <= pow2 k)%Q ->
  forall p,
    wf p ->
    resampleRatio p = r ->
    (0 <= resamplePosition p)%Q ->
    (Qn (length inputData) - resamplePosition p
       <= Qn m * (r - pow2 (k - 53)))%Q ->
    exists (j : nat) (p' : PCMProcessor),
      (forall fuel, (m <= fuel)%nat ->
         PCM64.resample_loop fuel inputData p = Some p')
      /\ wf p'
      /\ produced p' = (produced p + j)%nat
      /\ resampleRatio p' = r
      /\ inputSampleRate p' = inputSampleRate p
      /\ bufferSize p' = bufferSize p
      /\ (Qn (length inputData) <= resamplePosition p')%Q
      /\ (resamplePosition p + Qn j * r - Qn j * pow2 (k - 53)
            <= resamplePosition p')%Q
      /\ (resamplePosition p' 
            <= resamplePosition p + Qn j * r + Qn j * pow2 (k - 53))%Q
      /\ (forall j', j = S j' ->
            (resamplePosition p + Qn j' * r - Qn j' * pow2 (k - 53)
               < Qn (length inputData))%Q
            /\ (resamplePosition p'
                  < Qn (length inputData) + r + pow2 (k - 53))%Q).
Proof.
  intros Hk He Hfit.
  set (e := pow2 (k - 53)) in *. set (n := Qn (length inputData)) in *.
  assert (He0 : (0 < e)%Q) by apply pow2_pos.
  pose proof (pow2_pos k) as Hpk.
  induction m as [|m IH]; intros p Hwf Hr H0 Hm.
  - (* no step is needed *)
    change (Qn 0) with 0%Q in Hm.
    exists 0%nat, p. change (Qn 0) with 0%Q.
    split; [intros fuel _; apply resample_loop_done; fold n; lra|].
    split; [assumption|]. split; [lia|]. split; [assumption|].
    split; [reflexivity|]. split; [reflexivity|].
    split; [lra|]. split; [lra|]. split; [lra|]. intros j' Hj; discriminate.
  - destruct (Qlt_le_dec (resamplePosition p) n) as [Hlt|Hge].
    + (* one iteration, then [m] more at most *)
      set (intPos := Qfloor (resamplePosition p)).
      set (x := fadd64 (get inputData intPos)
                  (fmul64 (fsub64
                             (if intPos + 1 <? Z.of_nat (length inputData)
                              then get inputData (intPos + 1)
                              else get inputData intPos)
                             (get inputData intPos))
                          (Fin (dbl (resamplePosition p - inject_Z intPos))))).
      destruct (addSample_count x p Hwf) as (Hwf1 & Hc1 & Hr1 & Hp1 & Hs1 & Hi1).
      set (p1 := set_resamplePosition
                   (dbl (resamplePosition (PCM64.addSample x p)
                         + resampleRatio (PCM64.addSample x p)))
                   (PCM64.addSample x p)).
      assert (Hstep : forall fuel,
                 PCM64.resample_loop (S fuel) inputData p
                 = PCM64.resample_loop fuel inputData p1).
      { intros fuel. cbn [PCM64.resample_loop]. cbv zeta.
        destruct (Qlt_le_dec (resamplePosition p)
                             (inject_Z (Z.of_nat (length inputData))))
          as [_|Hc]; [reflexivity|exfalso; unfold n in Hlt; lra]. }
      assert (Hpos1 : resamplePosition p1 = dbl (resamplePosition p + r)).
      { subst p1. pcm_simpl. now rewrite Hp1, Hr1, Hr. }
      destruct (dbl_error k (resamplePosition p + r) Hk) as [D1 D2];
        [lra|lra|]. fold e in D1, D2.
      rewrite <- Hpos1 in D1, D2.
      assert (H01 : (0 <= resamplePosition p1)%Q).
      { rewrite Hpos1. apply dbl_nonneg. lra. }
      destruct (IH p1) as (j & p' & Hrun & Hwf' & Hc & Hr' & Hi' & Hs' & Hend
                           & Dlo & Dhi & Hlast).
      * destruct Hwf1. split; assumption.
      * subst p1. pcm_simpl. now rewrite Hr1.
      * exact H01.
      * rewrite Qn_S in Hm. lra.
      * exists (S j), p'.
        split.
        { intros fuel Hfuel. destruct fuel as [|fuel]; [lia|].
          rewrite Hstep. apply Hrun. lia. }
        split; [assumption|].
        split.
        { rewrite Hc. unfold produced at 1. subst p1. pcm_simpl.
          fold (produced (PCM64.addSample x p)). lia. }
        split; [assumption|].
        split; [rewrite Hi'; subst p1; pcm_simpl; exact Hi1|].
        split; [rewrite Hs'; subst p1; pcm_simpl; exact Hs1|].
        split; [assumption|].
        rewrite Qn_S.
        split; [lra|]. split; [lra|].
        intros j' Hj. injection Hj as <-.
        destruct j as [|j0].
        { change (Qn 0) with 0%Q in *. split; [lra|]. lra. }
        { destruct (Hlast j0 eq_refl) as [L1 L2]. split; [|exact L2].
          rewrite Qn_S. lra. }
    + exists 0%nat, p. change (Qn 0) with 0%Q.
      split; [intros fuel _; apply resample_loop_done; fold n; lra|].
      split; [assumption|]. split; [lia|]. split; [assumption|].
      split; [reflexivity|]. split; [reflexivity|].
      split; [lra|]. split; [lra|]. split; [lra|]. intros j' Hj; discriminate.
Qed.


Lemma enough_steps (a d : Q) : (0 < d)%Q -> exists m : nat, (a <= Qn m * d)%Q.
Proof.
  intros Hd. exists (Z.to_nat (Qceiling (a / d))).
  pose proof (Qle_ceiling (a / d)) as Hc.
  assert (Ha : (a == a / d * d)%Q) by (field; lra).
  destruct (Z_le_gt_dec 0 (Qceiling (a / d))) as [Hp|Hn].
  - rewrite Z2Nat.id by exact Hp. rewrite Ha at 1.
    apply Qmult_le_compat_r; lra.
  - replace (Z.to_nat (Qceiling (a / d))) with 0%nat by lia.
    change (Qn 0) with 0%Q.
    assert (Hlt : (inject_Z (Qceiling (a / d)) <= inject_Z 0)%Q)
      by (rewrite <- Zle_Qle; lia).
    change (inject_Z 0) with 0%Q in Hlt.
    assert (H1 : (a / d * d <= 0 * d)%Q)
      by (apply Qmult_le_compat_r; lra).
    lra.
Qed.

Lemma Qn_add (a b : nat) : (Qn (a + b) == Qn a + Qn b)%Q.
Proof. rewrite Nat2Z.inj_add, inject_Z_plus. reflexivity. Qed.

(** One frame on the resampling path. *)
Lemma frame_count (inputData : list float) (k : Z) (r : Q) (n f : nat)
      (p : PCMProcessor) :
  -1022 <= k ->
  (pow2 (k - 53) < r)%Q ->
  (Qn (length inputData) + r + pow2 (k - 53) <= pow2 k)%Q ->
  PCM64.bypass r = false ->
  PCM64.tracking k r n f p ->
  exists (m : nat) (p' : PCMProcessor),
    (forall fuel, (m <= fuel)%nat ->
       PCM64.processWithDownsampling fuel inputData p = Some p')
    /\ PCM64.tracking k r (n + length inputData) (S f) p'.
Proof.
  intros Hk He Hfit Hby (Hwf & Hr & H0 & Hmax & T1 & T2 & T3).
  cbv zeta in T1, T2, T3.
  set (e := pow2 (k - 53)) in *.
  assert (He0 : (0 < e)%Q) by apply pow2_pos.
  destruct (enough_steps (Qn (length inputData) - resamplePosition p) (r - e))
    as [m Hm]; [lra|].
  destruct (resample_loop_count inputData k r m Hk He ltac:(fold e; lra)
              p Hwf Hr H0 Hm)
    as (j & p1 & Hrun & Hwf1 & Hc1 & Hr1 & _ & _ & Hend & Dlo & Dhi & Hlast).
  fold e in Dlo, Dhi, Hlast.
  exists m. eexists. split.
  { intros fuel Hfuel. unfold PCM64.processWithDownsampling.
    rewrite Hr, Hby, (Hrun fuel Hfuel). reflexivity. }
  set (x := (resamplePosition p1 - inject_Z (Z.of_nat (length inputData)))%Q).
  assert (Hx0 : (0 <= x)%Q) by (unfold x; lra).
  assert (Hx1 : (x <= pow2 k)%Q).
  { unfold x. destruct j as [|j'].
    - change (Qn 0) with 0%Q in Dhi. pose proof (Qn_nonneg (length inputData)).
      lra.
    - destruct (Hlast j' eq_refl) as [_ L2].
      pose proof (Qn_nonneg (length inputData)). lra. }
  destruct (dbl_error k x Hk) as [E1 E2]; [lra|exact Hx1|]. fold e in E1, E2.
  pose proof (dbl_nonneg x Hx0) as N0.
  pose proof (dbl_le_pow2 k x ltac:(lia) Hx0 Hx1) as N1.
  unfold PCM64.tracking. cbv zeta. unfold produced, wf in *. pcm_simpl.
  fold e. rewrite Hc1.
  set (c := (length (audio_samples (port p)) + bytesWritten p)%nat) in *.
  rewrite !Qn_add, Qn_S.
  split; [exact Hwf1|]. split; [exact Hr1|].
  split; [exact N0|]. split; [exact N1|].
  assert (Ex : (x == resamplePosition p1 - Qn (length inputData))%Q)
    by reflexivity.
  clearbody x.
  split; [lra|]. split; [lra|].
  intros c' Hc'. rewrite Qn_S, Qn_add.
  destruct j as [|j'].
  - rewrite Nat.add_0_r in Hc'. specialize (T3 c' Hc').
    pose proof (Qn_nonneg (length inputData)). lra.
  - assert (Ec : c' = (c + j')%nat) by lia. subst c'.
    destruct (Hlast j' eq_refl) as [L1 _]. rewrite Qn_add. lra.
Qed.

Lemma feed_count (k : Z) (r : Q) (L : nat) (frames : list (list float)) :
  -1022 <= k ->
  (pow2 (k - 53) < r)%Q ->
  (Qn L + r + pow2 (k - 53) <= pow2 k)%Q ->
  PCM64.bypass r = false ->
  Forall (fun fr => (length fr <= L)%nat) frames ->
  forall (n f : nat) (p : PCMProcessor),
    PCM64.tracking k r n f p ->
    exists (fuel0 : nat) (p' : PCMProcessor),
      (forall fuel, (fuel0 <= fuel)%nat -> PCM64.feed fuel frames p = Some p')
      /\ PCM64.tracking k r (n + total_length frames) (f + length frames) p'.
Proof.
  intros Hk He Hfit Hby HL.
  induction HL as [|fr frames Hfr HL IH]; intros n f p Htr.
  - exists 0%nat, p. split; [reflexivity|].
    unfold total_length. cbn [concat length]. now rewrite !Nat.add_0_r.
  - destruct (frame_count fr k r n f p Hk He) as (m & p1 & Hrun1 & Htr1);
      try assumption.
    { assert (Qn (length fr) <= Qn L)%Q by (rewrite <- Zle_Qle; lia). lra. }
    destruct (IH _ _ _ Htr1) as (fuel0 & p' & Hrun & Htr').
    exists (Nat.max m fuel0), p'. split.
    + intros fuel Hfuel. cbn [PCM64.feed].
      rewrite (Hrun1 fuel) by lia. apply Hrun. lia.
    + unfold total_length in *. cbn [concat length]. rewrite length_app.
      replace (n + (length fr + length (concat frames)))%nat
        with (n + length fr + length (concat frames))%nat by lia.
      replace (f + S (length frames))%nat with (S f + length frames)%nat by lia.
      exact Htr'.
Qed.

Lemma feed_bypass64 (fuel : nat) (frames : list (list float)) :
  forall p,
    wf p ->
    PCM64.bypass (resampleRatio p) = true ->
    exists p',
      PCM64.feed fuel frames p = Some p'
      /\ produced p' = (produced p + total_length frames)%nat.
Proof.
  induction frames as [|fr frames IH]; intros p Hwf Hby.
  - exists p. unfold total_length. simpl. split; [reflexivity|lia].
  - cbn [PCM64.feed]. unfold PCM64.processWithDownsampling. rewrite Hby.
    destruct (fold_addSample_count fr p Hwf) as (Hwf1 & Hc1 & Hr1 & _).
    destruct (IH _ Hwf1) as (p' & Hrun & Hc); [now rewrite Hr1|].
    exists p'. split; [exact Hrun|].
    rewrite Hc, Hc1. unfold total_length. cbn [concat].
    rewrite length_app. lia.
Qed.


(** *** The count *)

Lemma count_lower (Tq Rq r0 r e N F K mq : Q) :
  (0 < Tq -> 1 <= Rq -> Rq == Tq * r0 ->
   r <= r0 + e -> r0 - e <= r -> 0 < e ->
   Tq * (F + 2 * mq + 4) * e <= 1 ->
   0 <= F -> 0 <= mq -> 0 <= K ->
   mq * r0 <= N ->
   N - K * r <= (K + F) * e ->
   K + 1 <= mq -> False)%Q.
Proof.
  intros HT HR ER r1 r2 He H3 HF Hm HK Hfl Htr Hc.
  assert (Hr0 : (0 < r0)%Q) by nra.
  assert (P1 : (K * r <= K * (r0 + e))%Q) by nra.
  assert (P2 : ((K + 1) * r0 <= mq * r0)%Q) by nra.
  assert (P3 : (r0 <= (2 * K + F) * e)%Q) by nra.
  assert (P4 : (Tq * r0 <= Tq * ((2 * K + F) * e))%Q) by nra.
  assert (P5 : (Tq * e * (2 * K + F) <= Tq * e * (F + 2 * mq))%Q) by nra.
  assert (P6 : (0 < Tq * e)%Q) by nra.
  nra.
Qed.

Lemma count_upper (Tq Rq r0 r e N F K' mq : Q) :
  (0 < Tq -> 1 <= Rq -> Rq == Tq * r0 ->
   r <= r0 + e -> r0 - e <= r -> 0 < e ->
   Tq * (F + 2 * mq + 4) * e <= 1 ->
   0 <= F -> 0 <= mq ->
   N * Tq + 1 <= (mq + 1) * Rq ->
   K' * r - (K' + F) * e < N ->
   mq + 1 <= K' -> False)%Q.
Proof.
  intros HT HR ER r1 r2 He H3 HF Hm Hgr Htr Hc.
  assert (Hr0 : (0 < r0)%Q) by nra.
  assert (P0 : (0 < Tq * e)%Q) by nra.
  assert (Q0 : (4 * (Tq * e) <= 1)%Q) by nra.
  assert (Q1 : (2 * e < r0)%Q) by nra.
  assert (P1 : (K' * (r0 - e) <= K' * r)%Q) by nra.
  assert (P2 : ((mq + 1) * (r0 - 2 * e) <= K' * (r0 - 2 * e))%Q) by nra.
  assert (P3 : ((mq + 1) * r0 < N + (2 * mq + 2 + F) * e)%Q) by nra.
  assert (P4 : (Tq * ((mq + 1) * r0) < Tq * (N + (2 * mq + 2 + F) * e))%Q)
    by nra.
  assert (P5 : ((mq + 1) * Rq == Tq * ((mq + 1) * r0))%Q)
    by (rewrite ER; ring).
  assert (P6 : (Tq * e * (2 * mq + 2 + F) <= Tq * e * (F + 2 * mq + 4))%Q)
    by nra.
  nra.
Qed.

(** The floor the specification names, for integer rates. *)
Lemma expected_count_spec (R T : Z) (N : nat) :
  0 < R -> 0 < T ->
  let m := expected_count (inject_Z R) (inject_Z T) N in
  0 <= m
  /\ (inject_Z m * (inject_Z R / inject_Z T) <= Qn N)%Q
  /\ (Qn N * inject_Z T + 1 <= (inject_Z m + 1) * inject_Z R)%Q.
Proof.
  intros HR HT. cbv zeta. unfold expected_count.
  set (Rq := inject_Z R). set (Tq := inject_Z T).
  assert (HRq : (0 < Rq)%Q)
    by (unfold Rq; change 0%Q with (inject_Z 0); rewrite <- Zlt_Qlt; lia).
  assert (HTq : (0 < Tq)%Q)
    by (unfold Tq; change 0%Q with (inject_Z 0); rewrite <- Zlt_Qlt; lia).
  assert (Hr0 : (0 < Rq / Tq)%Q) by (apply Qlt_shift_div_l; lra).
  set (x := (Qn N / (Rq / Tq))%Q).
  assert (Ex : (x * Rq == Qn N * Tq)%Q) by (unfold x; field; split; lra).
  pose proof (Qfloor_le x) as F1. pose proof (Qlt_floor x) as F2.
  pose proof (Qn_nonneg N) as HN.
  assert (Hx0 : (0 <= x)%Q) by (unfold x; apply Qle_shift_div_l; lra).
  split.
  { apply Qfloor_resp_le in Hx0. exact Hx0. }
  split.
  { assert (E2 : (x * (Rq / Tq) == Qn N)%Q) by (unfold x; field; split; lra).
    rewrite <- E2. apply Qmult_le_compat_r; lra. }
  { assert (Hz : Z.of_nat N * T < (Qfloor x + 1) * R).
    { rewrite Zlt_Qlt, !inject_Z_mult. fold Rq Tq.
      rewrite <- Ex. apply Qmult_lt_compat_r; [exact HRq|exact F2]. }
    assert (Hz' : Z.of_nat N * T + 1 <= (Qfloor x + 1) * R) by lia.
    rewrite Zle_Qle, inject_Z_plus, !inject_Z_mult, inject_Z_plus in Hz'.
    exact Hz'. }
Qed.

Lemma pow2_ge_1 (k : Z) : (1 <= pow2 k)%Q -> 0 <= k.
Proof.
  intros H. destruct (Z_le_gt_dec 0 k) as [Hk|Hk]; [exact Hk|exfalso].
  assert (pow2 k < pow2 0)%Q by (apply pow2_lt; lia).
  change (pow2 0) with 1%Q in *. lra.
Qed.

(** On the resampling path, within the sizes of [within_precision], the
    number of outputs is the floor the specification names, or one more. *)
Lemma feed_count_floor (R T : Z) (L : nat) (k : Z) (obs : option nat)
      (frames : list (list float)) :
  0 < R -> 0 < T ->
  PCM64.bypass (dbl (inject_Z R / inject_Z T)) = false ->
  PCM64.within_precision R T L k frames ->
  exists (fuel0 : nat) (p' : PCMProcessor),
    (forall fuel, (fuel0 <= fuel)%nat ->
       PCM64.feed fuel frames
         (PCM64.constructor obs (Some (inject_Z T)) (inject_Z R)) = Some p')
    /\ expected_count (inject_Z R) (inject_Z T) (total_length frames)
         <= Z.of_nat (produced p')
         <= expected_count (inject_Z R) (inject_Z T) (total_length frames) + 1.
Proof.
  intros HR HT Hby (HL & H2 & H3).
  set (p0 := PCM64.constructor obs (Some (inject_Z T)) (inject_Z R)).
  set (N := total_length frames) in *.
  destruct (expected_count_spec R T N HR HT) as (Hm0 & Hfl & Hgr).
  set (m := expected_count (inject_Z R) (inject_Z T) N) in *.
  set (Rq := inject_Z R) in *. set (Tq := inject_Z T) in *.
  set (r0 := (Rq / Tq)%Q) in *.
  assert (HRq : (1 <= Rq)%Q)
    by (unfold Rq; change 1%Q with (inject_Z 1); rewrite <- Zle_Qle; lia).
  assert (HTq : (1 <= Tq)%Q)
    by (unfold Tq; change 1%Q with (inject_Z 1); rewrite <- Zle_Qle; lia).
  assert (ER : (Rq == Tq * r0)%Q) by (unfold r0; field; lra).
  assert (Hr0 : (0 < r0)%Q) by (unfold r0; apply Qlt_shift_div_l; lra).
  pose proof (Qn_nonneg L) as HLq.
  pose proof (Qn_nonneg (length frames)) as HFq.
  assert (Hmq : (0 <= inject_Z m)%Q)
    by (change 0%Q with (inject_Z 0); rewrite <- Zle_Qle; exact Hm0).
  assert (Hk0 : 0 <= k) by (apply pow2_ge_1; lra).
  set (e := pow2 (k - 53)).
  assert (He0 : (0 < e)%Q) by apply pow2_pos.
  assert (H3' : (Tq * (Qn (length frames) + 2 * inject_Z m + 4) * e <= 1)%Q).
  { assert (Ek : (pow2 k == e * pow2 53)%Q).
    { unfold e. rewrite <- pow2_plus. f_equiv. lia. }
    pose proof (pow2_pos 53) as P53.
    rewrite Ek in H3.
    apply (Qmult_le_r _ _ (pow2 53) P53).
    rewrite Qmult_1_l, <- Qmult_assoc. exact H3. }
  assert (He4 : (4 * (Tq * e) <= 1)%Q).
  { assert (A1 : (0 <= Tq * e)%Q) by (apply Qmult_le_0_compat; lra).
    assert (A2 : (0 <= Qn (length frames) * (Tq * e))%Q)
      by (apply Qmult_le_0_compat; lra).
    assert (A3 : (0 <= inject_Z m * (Tq * e))%Q)
      by (apply Qmult_le_0_compat; lra).
    lra. }
  assert (HTe : (e <= Tq * e)%Q).
  { assert (A : (1 * e <= Tq * e)%Q) by (apply Qmult_le_compat_r; lra). lra. }
  assert (Hr4 : (4 * e <= r0)%Q).
  { assert (A : (4 * (Tq * e) <= Tq * r0)%Q) by lra.
    assert (B : (Tq * (4 * e) <= Tq * r0)%Q) by lra.
    rewrite Qmult_le_l in B; lra. }
  destruct (dbl_error k r0 ltac:(lia)) as [D1 D2]; [lra|lra|]. fold e in D1, D2.
  set (r := dbl r0) in *.
  pose proof (constructor_ratio64 obs Tq Rq ltac:(lra)) as Hratio.
  destruct (constructor_count obs (Some Tq) Rq) as (Hwf & Hc0 & Hpos & _).
  fold p0 in Hratio, Hwf, Hc0, Hpos. fold r0 r in Hratio.
  assert (Htr0 : PCM64.tracking k r 0 0 p0).
  { unfold PCM64.tracking. cbv zeta. rewrite Hc0, Hpos. fold e.
    change (Qn 0) with 0%Q.
    pose proof (pow2_pos k).
    split; [exact Hwf|].
    repeat split; try assumption; try lra; try discriminate. }
  destruct (feed_count k r L frames ltac:(lia)) with (n := 0%nat) (f := 0%nat)
                                                      (p := p0)
    as (fuel0 & p' & Hrun & Htr); try assumption.
  { fold e. lra. }
  { fold e. lra. }
  exists fuel0, p'. split; [exact Hrun|].
  cbn [Nat.add] in Htr. fold N in Htr.
  destruct Htr as (_ & _ & P0 & _ & T1 & _ & T3). cbv zeta in T1, T3.
  fold e in T1, T3.
  set (K := produced p') in *. pose proof (Qn_nonneg K) as HK.
  split.
  - destruct (Z_le_gt_dec m (Z.of_nat K)) as [Hle|Hgt]; [exact Hle|exfalso].
    assert (Hc : (Qn K + 1 <= inject_Z m)%Q).
    { change 1%Q with (inject_Z 1). rewrite <- inject_Z_plus, <- Zle_Qle. lia. }
    apply (count_lower Tq Rq r0 r e (Qn N) (Qn (length frames)) (Qn K)
             (inject_Z m)); try assumption; lra.
  - destruct (Z_le_gt_dec (Z.of_nat K) (m + 1)) as [Hle|Hgt]; [exact Hle|exfalso].
    destruct K as [|K'] eqn:EK; [lia|].
    specialize (T3 K' eq_refl).
    assert (Hc : (inject_Z m + 1 <= Qn K')%Q).
    { change 1%Q with (inject_Z 1). rewrite <- inject_Z_plus, <- Zle_Qle. lia. }
    apply (count_upper Tq Rq r0 r e (Qn N) (Qn (length frames)) (Qn K')
             (inject_Z m)); try assumption; lra.
Qed.

(** The pass-through test, from the exact quotient of the rates. *)
Lemma bypass_near (q : Q) :
  (Qabs (q - 1) <= 999 # 1000000)%Q -> PCM64.bypass (dbl q) = true.
Proof.
  intros H. apply Qabs_le_iff in H. destruct H as [H1 H2].
  pose proof (round_mono 53 (-1074) ltac:(lia) (999001 # 1000000) q
                ltac:(lra)) as M1.
  pose proof (round_mono 53 (-1074) ltac:(lia) q (1000999 # 1000000)
                ltac:(lra)) as M2.
  fold dbl in M1, M2.
  pose proof (round_mono 53 (-1074) ltac:(lia)
                (dbl (999001 # 1000000) - 1) (dbl q - 1) ltac:(lra)) as M3.
  pose proof (round_mono 53 (-1074) ltac:(lia)
                (dbl q - 1) (dbl (1000999 # 1000000) - 1) ltac:(lra)) as M4.
  fold dbl in M3, M4.
  assert (C1 : (- dbl (1 / 1000) < dbl (dbl (999001 # 1000000) - 1))%Q)
    by (vm_compute; reflexivity).
  assert (C2 : (dbl (dbl (1000999 # 1000000) - 1) < dbl (1 / 1000))%Q)
    by (vm_compute; reflexivity).
  unfold PCM64.bypass.
  destruct (Qlt_le_dec (Qabs (dbl (dbl q - 1))) (dbl (1 / 1000))) as [Hlt|Hge];
    [reflexivity|exfalso].
  revert Hge. apply Qabs_case; intros; lra.
Qed.

Lemma bypass_far (q : Q) :
  (1001 # 1000000 <= Qabs (q - 1))%Q -> PCM64.bypass (dbl q) = false.
Proof.
  intros H. unfold PCM64.bypass.
  destruct (Qlt_le_dec (Qabs (dbl (dbl q - 1))) (dbl (1 / 1000))) as [Hlt|Hge];
    [exfalso|reflexivity].
  apply Qabs_Qlt_condition in Hlt. destruct Hlt as [L1 L2].
  revert H. apply Qabs_case; intros Hs H.
  - pose proof (round_mono 53 (-1074) ltac:(lia) (1001001 # 1000000) q
                  ltac:(lra)) as M1.
    fold dbl in M1.
    pose proof (round_mono 53 (-1074) ltac:(lia)
                  (dbl (1001001 # 1000000) - 1) (dbl q - 1) ltac:(lra)) as M3.
    fold dbl in M3.
    assert (C : (dbl (1 / 1000) <= dbl (dbl (1001001 # 1000000) - 1))%Q)
      by (vm_compute; discriminate).
    lra.
  - pose proof (round_mono 53 (-1074) ltac:(lia) q (998999 # 1000000)
                  ltac:(lra)) as M1.
    fold dbl in M1.
    pose proof (round_mono 53 (-1074) ltac:(lia)
                  (dbl q - 1) (dbl (998999 # 1000000) - 1) ltac:(lra)) as M3.
    fold dbl in M3.
    assert (C : (dbl (dbl (998999 # 1000000) - 1) <= - dbl (1 / 1000))%Q)
      by (vm_compute; discriminate).
    lra.
Qed.

(** *** The claim about the count *)

(** C1 (as amended).  Integer rates [R] and [T], both positive and below
    [2^53], so that they are JavaScript numbers; the frames are fed to a
    freshly constructed processor whose arithmetic is that of the code
    (every operation on the ratio and the position rounded to double
    precision).  When the processor takes its pass-through path the samples
    are copied and the output count is the input count [N], whatever the
    split into frames.  Otherwise, as long as the sizes are
    [within_precision], enough iterations process every frame, whatever the
    split, and the output count is [floor (N / (R/T))] or one more, which is
    within one of the floor the specification names.  The pass-through path
    is taken when [R/T] is within 0.000999 of 1, and not taken when [R/T]
    differs from 1 by 0.001001 or more. *)
Theorem resampler_output_count
        (R T : Z) (L : nat) (k : Z) (obs : option nat)
        (frames : list (list float)) :
  0 < R < 2 ^ 53 -> 0 < T < 2 ^ 53 ->
  let p0 := PCM64.constructor obs (Some (inject_Z T)) (inject_Z R) in
  let N := total_length frames in
  (PCM64.bypass (resampleRatio p0) = true ->
   forall fuel : nat,
   exists p', PCM64.feed fuel frames p0 = Some p' /\ produced p' = N)
  /\ (PCM64.bypass (resampleRatio p0) = false ->
      PCM64.within_precision R T L k frames ->
      exists fuel0 : nat, forall fuel : nat, (fuel0 <= fuel)%nat ->
      exists p',
        PCM64.feed fuel frames p0 = Some p'
        /\ expected_count (inject_Z R) (inject_Z T) N
             <= Z.of_nat (produced p')
             <= expected_count (inject_Z R) (inject_Z T) N + 1
        /\ count_as_specified (inject_Z R) (inject_Z T) N p')
  /\ ((Qabs (inject_Z R / inject_Z T - 1) <= 999 # 1000000)%Q ->
      PCM64.bypass (resampleRatio p0) = true)
  /\ ((1001 # 1000000 <= Qabs (inject_Z R / inject_Z T - 1))%Q ->
      PCM64.bypass (resampleRatio p0) = false).
Proof.
  intros [HR _] [HT _] p0 N.
  assert (HTq : (0 < inject_Z T)%Q)
    by (change 0%Q with (inject_Z 0); rewrite <- Zlt_Qlt; lia).
  pose proof (constructor_ratio64 obs (inject_Z T) (inject_Z R) HTq) as Hratio.
  destruct (constructor_count obs (Some (inject_Z T)) (inject_Z R))
    as (Hwf & Hc0 & _).
  fold p0 in Hratio, Hwf, Hc0. rewrite Hratio.
  split; [|split; [|split]].
  - intros Hby fuel.
    destruct (feed_bypass64 fuel frames p0 Hwf) as (p' & Hrun & Hc).
    { now rewrite Hratio. }
    exists p'. split; [exact Hrun|]. rewrite Hc, Hc0. reflexivity.
  - intros Hby Hsize.
    destruct (feed_count_floor R T L k obs frames HR HT Hby Hsize)
      as (fuel0 & p' & Hrun & Hlo & Hhi).
    exists fuel0. intros fuel Hfuel. exists p'.
    split; [apply Hrun; exact Hfuel|].
    fold N in Hlo, Hhi. split; [split; assumption|].
    unfold count_as_specified. lia.
  - apply bypass_near.
  - apply bypass_far.
Qed.

(** C1, witness: 19.2 kHz to 16 kHz, two frames of six samples. *)
Lemma resampler_output_count_witness :
  let frames := [[Fin 0; Fin (1#2); Fin 1; Fin (1#2); Fin 0; Fin (-1#2)];
                 [Fin (-1); Fin (-1#2); Fin 0; Fin (1#2); Fin 1; Fin (1#2)]] in
  let p0 := PCM64.constructor None (Some (inject_Z 16000)) (inject_Z 19200) in
  PCM64.bypass (resampleRatio p0) = false
  /\ PCM64.within_precision 19200 16000 6 4 frames
  /\ exists fuel0 : nat, forall fuel : nat, (fuel0 <= fuel)%nat ->
     exists p',
       PCM64.feed fuel frames p0 = Some p'
       /\ expected_count (inject_Z 19200) (inject_Z 16000) (total_length frames)
            <= Z.of_nat (produced p')
            <= expected_count (inject_Z 19200) (inject_Z 16000)
                              (total_length frames) + 1
       /\ count_as_specified (inject_Z 19200) (inject_Z 16000)
                             (total_length frames) p'.
Proof.
  intros frames p0.
  assert (Hby : PCM64.bypass (resampleRatio p0) = false)
    by (vm_compute; reflexivity).
  assert (Hsize : PCM64.within_precision 19200 16000 6 4 frames).
  { unfold PCM64.within_precision. split; [|split].
    - repeat constructor.
    - vm_compute. discriminate.
    - vm_compute. discriminate. }
  split; [exact Hby|]. split; [exact Hsize|].
  destruct (resampler_output_count 19200 16000 6 4 None frames) as (_ & H & _);
    [lia|lia|].
  exact (H Hby Hsize).
Defined.

(** C1, counterexample to the claim as stated.  Input rate 16010 Hz and
    target rate 16000 Hz take the pass-through path, so 4096 input samples
    (32 frames of 128) give 4096 output samples, while
    [floor (4096 / (16010/16000))] is 4093.  And with a rate that is not an
    integer, the double next above 19200 (19200 + 2^-38) for a target of
    16000 Hz, 18 input samples give 16 output samples, while the floor is
    14: the quotient of the rates is rounded to the double next above 1.2,
    of which fifteen steps, each sum rounded, stay below 18. *)
Lemma resampler_count_near_unity_counterexample :
  (exists p',
     PCM64.feed 0 (repeat (repeat (Fin 0) 128) 32)
          (PCM64.constructor None (Some 16000%Q) 16010%Q) = Some p'
     /\ produced p' = 4096%nat
     /\ expected_count 16010 16000 4096 = 4093
     /\ ~ count_as_specified 16010 16000 4096 p')
  /\ (exists p',
        PCM64.feed 18 [repeat (Fin 0) 18]
             (PCM64.constructor None (Some 16000%Q)
                                (19200 + (1 # 274877906944))%Q) = Some p'
        /\ double (Fin (19200 + (1 # 274877906944)))
           = Fin (19200 + (1 # 274877906944))
        /\ produced p' = 16%nat
        /\ expected_count (19200 + (1 # 274877906944)) 16000 18 = 14
        /\ ~ count_as_specified (19200 + (1 # 274877906944)) 16000 18 p').
Proof.
  split.
  - eexists. split; [vm_compute; reflexivity|].
    split; [vm_compute; reflexivity|].
    split; [vm_compute; reflexivity|].
    unfold count_as_specified.
    replace (expected_count 16010 16000 4096) with 4093
      by (vm_compute; reflexivity).
    match goal with
    | |- ~ (_ <= Z.of_nat ?n <= _) =>
        replace (Z.of_nat n) with 4096 by (vm_compute; reflexivity)
    end.
    lia.
  - eexists. split; [vm_compute; reflexivity|].
    split; [vm_compute; reflexivity|].
    split; [vm_compute; reflexivity|].
    split; [vm_compute; reflexivity|].
    unfold count_as_specified.
    replace (expected_count (19200 + (1 # 274877906944)) 16000 18) with 14
      by (vm_compute; reflexivity).
    match goal with
    | |- ~ (_ <= Z.of_nat ?n <= _) =>
        replace (Z.of_nat n) with 16 by (vm_compute; reflexivity)
    end.
    lia.
Qed.

(** At 16016 Hz to 16000 Hz the quotient of the rates is 1.001, which
    differs from 1 by 0.001; in double precision the difference comes out
    below [0.001] and the pass-through path is taken: 4096 samples in, 4096
    out, where [floor (4096 / 1.001)] is 4091. *)
Lemma pass_through_at_the_threshold :
  (Qabs (16016 / 16000 - 1) == 1 / 1000)%Q
  /\ PCM64.bypass
       (resampleRatio (PCM64.constructor None (Some 16000%Q) 16016%Q)) = true
  /\ option_map produced
       (PCM64.feed 0 (repeat (repeat (Fin 0) 128) 32)
          (PCM64.constructor None (Some 16000%Q) 16016%Q)) = Some 4096%nat
  /\ expected_count 16016 16000 4096 = 4091.
Proof.
  split; [reflexivity|].
  split; [vm_compute; reflexivity|].
  split; vm_compute; reflexivity.
Qed.

(** At 19200 Hz to 16000 Hz the step is the double nearest to 1.2; ten steps
    add up to a position just below 12, so twelve input samples give eleven
    output samples, one more than [floor (12 / 1.2) = 10]; with exact steps
    the count is ten. *)
Lemma rounded_steps_give_one_more :
  option_map produced
    (PCM64.feed 12 [repeat (Fin 0) 12]
       (PCM64.constructor None (Some 16000%Q) 19200%Q)) = Some 11%nat
  /\ option_map produced
       (PCM.feed 12 [repeat (Fin 0) 12]
          (PCM.constructor None (Some 16000%Q) 19200%Q)) = Some 10%nat
  /\ expected_count 19200 16000 12 = 10.
Proof.
  split; [vm_compute; reflexivity|]. split; vm_compute; reflexivity.
Qed.

End PCM64Facts.

(* ================================================================== *)
(** ** Properties of the transport client *)

Module TransportFacts.
Import Transport.

Ltac hook_simpl :=
  cbn [set_state set_configSentRef set_pingIntervalRef set_pingTimeoutRef
       set_lastPingTimeRef set_missedPingsRef set_audioQueueRef
       set_isProcessingQueueRef set_bytesSentRef set_readyState set_ws
       set_calls setState call
       state configSentRef pingIntervalRef pingTimeoutRef lastPingTimeRef
       missedPingsRef audioQueueRef isProcessingQueueRef bytesSentRef
       readyState ws calls
       interimText finalizedSegments fullTranscript sessionId connectionState
       error bytesSent queuedChunks lastPingLatency connectionHealth
       latestModeration moderationResults
       ws_readyState sent outcomes] in *.

(** *** Heartbeat *)

Lemma Health_eqb_eq (a b : Health) : Health_eqb a b = true -> a = b.
Proof. destruct a, b; simpl; congruence. Qed.

Lemma updateConnectionHealth_spec (missed : nat) (h : Hook) :
  connectionHealth (state (updateConnectionHealth missed h)) = health_of missed
  /\ missedPingsRef (updateConnectionHealth missed h) = missedPingsRef h
  /\ lastPingLatency (state (updateConnectionHealth missed h))
     = lastPingLatency (state h)
  /\ pingTimeoutRef (updateConnectionHealth missed h) = pingTimeoutRef h.
Proof.
  unfold updateConnectionHealth.
  destruct (Health_eqb (connectionHealth (state h)) (health_of missed)) eqn:E.
  - apply Health_eqb_eq in E. auto.
  - hook_simpl. auto.
Qed.

(** *** The backpressure queue *)

Lemma lastn_all {A : Type} (n : nat) (l : list A) :
  (length l <= n)%nat -> lastn n l = l.
Proof.
  intros H. unfold lastn. replace (length l - n)%nat with 0%nat by lia.
  reflexivity.
Qed.

Lemma lastn_length {A : Type} (n : nat) (l : list A) :
  length (lastn n l) = Nat.min n (length l).
Proof. unfold lastn. rewrite length_skipn. lia. Qed.

Lemma lastn_app_more {A : Type} (n : nat) (l1 l2 : list A) :
  (n <= length l2)%nat -> lastn n (l1 ++ l2) = lastn n l2.
Proof.
  intros H. unfold lastn. rewrite length_app, skipn_app.
  replace (length l1 + length l2 - n - length l1)%nat
    with (length l2 - n)%nat by lia.
  rewrite skipn_all2 by lia. reflexivity.
Qed.

(** Pushing onto a queue that is within capacity keeps the most recent
    [maxQueueSize] chunks. *)
Lemma push_bounded_lastn (m : nat) (c : ArrayBuffer) (q : list ArrayBuffer) :
  (length q <= m)%nat ->
  push_bounded m c q = lastn m (q ++ [c]).
Proof.
  intros Hq. unfold push_bounded, lastn.
  rewrite length_app. cbn [length].
  destruct (Nat.ltb_spec m (length q + 1)) as [Hover|Hfit].
  - replace (length q + 1 - m)%nat with 1%nat by lia.
    destruct (q ++ [c]); reflexivity.
  - replace (length q + 1 - m)%nat with 0%nat by lia. reflexivity.
Qed.

Lemma lastn_lastn_app {A : Type} (m : nat) (l1 l2 : list A) :
  lastn m (lastn m l1 ++ l2) = lastn m (l1 ++ l2).
Proof.
  destruct (Nat.le_gt_cases (length l1) m) as [Hle|Hgt].
  - now rewrite (lastn_all m l1).
  - rewrite <- (firstn_skipn (length l1 - m) l1) at 2.
    rewrite <- app_assoc.
    rewrite (lastn_app_more m (firstn (length l1 - m) l1)); [reflexivity|].
    rewrite length_app, length_skipn. lia.
Qed.

Lemma sendAudio_closed (o : Options) (c : ArrayBuffer) (h : Hook) :
  ReadyState_eqb (readyState h) OPEN = false ->
  enableQueue o = true ->
  sendAudio o c h
  = (true, set_audioQueueRef
             (push_bounded (maxQueueSize o) c (audioQueueRef h)) h).
Proof.
  intros Hrs Hq. unfold sendAudio. now rewrite Hrs, Hq.
Qed.

Lemma sendAudio_all_closed (o : Options) (chunks : list ArrayBuffer) :
  forall h,
    ReadyState_eqb (readyState h) OPEN = false ->
    enableQueue o = true ->
    (length (audioQueueRef h) <= maxQueueSize o)%nat ->
    sendAudio_all o chunks h
    = (repeat true (length chunks),
       set_audioQueueRef
         (lastn (maxQueueSize o) (audioQueueRef h ++ chunks)) h).
Proof.
  induction chunks as [|c chunks IH]; intros h Hrs Hq Hlen.
  - cbn [sendAudio_all length repeat]. rewrite app_nil_r, lastn_all by assumption.
    destruct h; reflexivity.
  - cbn [sendAudio_all]. rewrite sendAudio_closed by assumption.
    rewrite IH; hook_simpl; try assumption.
    + rewrite push_bounded_lastn by assumption.
      rewrite lastn_lastn_app, <- app_assoc. reflexivity.
    + rewrite push_bounded_lastn by assumption. rewrite lastn_length. lia.
Qed.

Lemma push_bounded_length (m : nat) (c : ArrayBuffer) (q : list ArrayBuffer) :
  (length q <= m)%nat -> (length (push_bounded m c q) <= m)%nat.
Proof.
  intros H. rewrite push_bounded_lastn by assumption.
  rewrite lastn_length. lia.
Qed.

Lemma drain_length (q : list ArrayBuffer) :
  forall (w : WebSocket) (b : nat),
    (length (fst (fst (drain q w b))) <= length q)%nat.
Proof.
  induction q as [|c q IH]; intros w b; cbn [drain].
  - simpl. lia.
  - destruct (ws_send c w) as [[|] w'].
    + specialize (IH w' (b + byteLength c)%nat). cbn [length]. lia.
    + cbn [fst length]. lia.
Qed.

(** *** The socket opens *)

Lemma binary_frames_app (l1 l2 : list Frame) :
  binary_frames (l1 ++ l2) = binary_frames l1 ++ binary_frames l2.
Proof.
  induction l1 as [|f t IH]; simpl; auto. destruct f; simpl; congruence.
Qed.

Lemma socket_opens_spec (o : Options) (sid : string) (now : Z) (h : Hook) :
  audioQueueRef (socket_opens o sid now h) = []
  /\ delivered (socket_opens o sid now h) = delivered h
  /\ readyState (socket_opens o sid now h) = OPEN.
Proof.
  unfold socket_opens, delivered, configEffect, connectionStateEffect,
    processQueue, onOpen, sendPing, sendJsonMessage.
  destruct h as [st cs pi pt lp mp q ip bs rs [w|] cl]; hook_simpl;
    cbn [ReadyState_eqb is_empty negb andb]; hook_simpl;
    destruct ip; hook_simpl; cbn [ReadyState_eqb negb andb]; hook_simpl;
    rewrite ?binary_frames_app; cbn [binary_frames]; rewrite ?app_nil_r;
    repeat split; reflexivity.
Qed.

(** *** Invariants of the reachable states *)

Ltac crunch :=
  repeat (hook_simpl;
          match goal with
          | |- context [if ?c then _ else _] => destruct c eqn:?
          | |- context [match ?x with Some _ => _ | None => _ end] =>
              destruct x eqn:?
          end);
  hook_simpl.

Lemma sendAudio_queue_bounded (o : Options) (c : ArrayBuffer) (h : Hook) :
  (length (audioQueueRef h) <= maxQueueSize o)%nat ->
  (length (audioQueueRef (snd (sendAudio o c h))) <= maxQueueSize o)%nat.
Proof.
  intros Hlen. unfold sendAudio, drain_queue.
  destruct (negb (ReadyState_eqb (readyState h) OPEN)).
  - destruct (enableQueue o); cbn [snd]; hook_simpl;
      [now apply push_bounded_length|assumption].
  - destruct (ws h) as [w|]; [|assumption].
    destruct (negb (ReadyState_eqb (ws_readyState w) OPEN)); [assumption|].
    pose proof (drain_length (audioQueueRef h) w (bytesSentRef h)) as Hd.
    destruct (negb (isProcessingQueueRef h) && negb (is_empty (audioQueueRef h))).
    + hook_simpl.
      destruct (drain (audioQueueRef h) w (bytesSentRef h)) as [[q' w'] b'].
      cbn [fst] in Hd. hook_simpl.
      destruct (ws_send c w') as [[|] w'']; cbn [snd]; hook_simpl; [lia|].
      destruct (enableQueue o); cbn [snd]; hook_simpl;
        [apply push_bounded_length|]; lia.
    + destruct (ws h) as [w1|];
        [destruct (ws_send c w1) as [[|] w'']|destruct (ws_send c w) as [[|] w'']];
        cbn [snd]; hook_simpl; try assumption;
        destruct (enableQueue o); cbn [snd]; hook_simpl;
        try apply push_bounded_length; assumption.
Qed.

Lemma step_queue_bounded (o : Options) (h : Hook) (e : Event) :
  (length (audioQueueRef h) <= maxQueueSize o)%nat ->
  (length (audioQueueRef (step o h e)) <= maxQueueSize o)%nat.
Proof.
  intros Hlen. destruct e as [| |sid now| | |m now|now| |c| |outs]; cbn [step].
  - exact Hlen.
  - unfold disconnect. crunch; simpl; lia.
  - destruct (socket_opens_spec o sid now h) as (-> & _). simpl. lia.
  - unfold socket_closes, connectionStateEffect, onClose.
    destruct (ws h); hook_simpl; cbn [ReadyState_eqb]; hook_simpl; exact Hlen.
  - exact Hlen.
  - destruct m; unfold onMessage, handlePong, updateConnectionHealth;
      crunch; assumption.
  - unfold sendPing, sendJsonMessage. crunch; assumption.
  - unfold pingTimeout, updateConnectionHealth. crunch; assumption.
  - now apply sendAudio_queue_bounded.
  - exact Hlen.
  - crunch; assumption.
Qed.

(** In every reachable state the queue is within its capacity. *)
Lemma run_queue_bounded (o : Options) (events : list Event) :
  (length (audioQueueRef (run o events)) <= maxQueueSize o)%nat.
Proof.
  unfold run. induction events as [|e events IH] using rev_ind.
  - simpl. lia.
  - rewrite fold_left_app. cbn [fold_left]. now apply step_queue_bounded.
Qed.

Lemma socket_opens_transcript (o : Options) (sid : string) (now : Z) (h : Hook) :
  interimText (state (socket_opens o sid now h)) = EmptyString
  /\ finalizedSegments (state (socket_opens o sid now h)) = []
  /\ fullTranscript (state (socket_opens o sid now h)) = EmptyString.
Proof.
  unfold socket_opens, configEffect, connectionStateEffect,
    processQueue, onOpen, sendPing, sendJsonMessage.
  destruct h as [st cs pi pt lp mp q ip bs rs [w|] cl]; hook_simpl;
    cbn [ReadyState_eqb is_empty negb andb]; hook_simpl;
    destruct ip; hook_simpl; cbn [ReadyState_eqb negb andb]; hook_simpl;
    repeat split; reflexivity.
Qed.

Lemma sendAudio_transcript (o : Options) (c : ArrayBuffer) (h : Hook) :
  transcript_consistent (state h) ->
  transcript_consistent (state (snd (sendAudio o c h))).
Proof.
  intros Hc. unfold sendAudio, drain_queue.
  destruct (negb (ReadyState_eqb (readyState h) OPEN)).
  - destruct (enableQueue o); cbn [snd]; hook_simpl; assumption.
  - destruct (ws h) as [w|]; [|assumption].
    destruct (negb (ReadyState_eqb (ws_readyState w) OPEN)); [assumption|].
    destruct (negb (isProcessingQueueRef h) && negb (is_empty (audioQueueRef h))).
    + hook_simpl.
      destruct (drain (audioQueueRef h) w (bytesSentRef h)) as [[q' w'] b'].
      hook_simpl.
      destruct (ws_send c w') as [[|] w'']; cbn [snd]; hook_simpl;
        [assumption|].
      destruct (enableQueue o); cbn [snd]; hook_simpl; assumption.
    + destruct (ws h) as [w1|];
        [destruct (ws_send c w1) as [[|] w'']|destruct (ws_send c w) as [[|] w'']];
        cbn [snd]; hook_simpl; try assumption;
        destruct (enableQueue o); cbn [snd]; hook_simpl; assumption.
Qed.

Lemma step_transcript_consistent (o : Options) (h : Hook) (e : Event) :
  transcript_consistent (state h) ->
  transcript_consistent (state (step o h e)).
Proof.
  intros Hc. destruct e as [| |sid now| | |m now|now| |c| |outs]; cbn [step].
  - exact Hc.
  - unfold disconnect. crunch; assumption.
  - destruct (socket_opens_transcript o sid now h) as (Hi & Hs & Hf).
    unfold transcript_consistent. rewrite Hi, Hs, Hf. reflexivity.
  - unfold socket_closes, connectionStateEffect, processQueue, onClose.
    crunch; try assumption; discriminate.
  - exact Hc.
  - destruct m; unfold onMessage, handlePong, updateConnectionHealth;
      crunch; try assumption.
    unfold transcript_consistent, transcriptionUpdate. hook_simpl. reflexivity.
  - unfold sendPing, sendJsonMessage. crunch; assumption.
  - unfold pingTimeout, updateConnectionHealth. crunch; assumption.
  - now apply sendAudio_transcript.
  - reflexivity.
  - crunch; assumption.
Qed.

(** In every reachable state the full transcript is consistent with the
    segments and the interim text. *)
Lemma run_transcript_consistent (o : Options) (events : list Event) :
  transcript_consistent (state (run o events)).
Proof.
  unfold run. induction events as [|e events IH] using rev_ind.
  - reflexivity.
  - rewrite fold_left_app. cbn [fold_left].
    now apply step_transcript_consistent.
Qed.

Lemma sendAudio_not_processing (o : Options) (c : ArrayBuffer) (h : Hook) :
  isProcessingQueueRef h = false ->
  isProcessingQueueRef (snd (sendAudio o c h)) = false.
Proof.
  intros Hc. unfold sendAudio, drain_queue.
  destruct (negb (ReadyState_eqb (readyState h) OPEN)).
  - destruct (enableQueue o); cbn [snd]; hook_simpl; assumption.
  - destruct (ws h) as [w|]; [|assumption].
    destruct (negb (ReadyState_eqb (ws_readyState w) OPEN)); [assumption|].
    destruct (negb (isProcessingQueueRef h) && negb (is_empty (audioQueueRef h))).
    + hook_simpl.
      destruct (drain (audioQueueRef h) w (bytesSentRef h)) as [[q' w'] b'].
      hook_simpl.
      destruct (ws_send c w') as [[|] w'']; cbn [snd]; hook_simpl;
        [reflexivity|].
      destruct (enableQueue o); cbn [snd]; hook_simpl; reflexivity.
    + destruct (ws h) as [w1|];
        [destruct (ws_send c w1) as [[|] w'']|destruct (ws_send c w) as [[|] w'']];
        cbn [snd]; hook_simpl; try assumption;
        destruct (enableQueue o); cbn [snd]; hook_simpl; assumption.
Qed.

Lemma step_not_processing (o : Options) (h : Hook) (e : Event) :
  isProcessingQueueRef h = false ->
  isProcessingQueueRef (step o h e) = false.
Proof.
  intros Hc. destruct e as [| |sid now| | |m now|now| |c| |outs]; cbn [step].
  - exact Hc.
  - unfold disconnect. crunch; assumption.
  - unfold socket_opens, configEffect, connectionStateEffect,
      processQueue, onOpen, sendPing, sendJsonMessage.
    destruct h as [st cs pi pt lp mp q ip bs rs [w|] cl]; hook_simpl; subst ip;
      cbn [ReadyState_eqb is_empty negb andb]; hook_simpl;
      cbn [ReadyState_eqb negb andb]; hook_simpl; reflexivity.
  - unfold socket_closes, connectionStateEffect, processQueue, onClose.
    crunch; try assumption; discriminate.
  - exact Hc.
  - destruct m; unfold onMessage, handlePong, updateConnectionHealth;
      crunch; assumption.
  - unfold sendPing, sendJsonMessage. crunch; assumption.
  - unfold pingTimeout, updateConnectionHealth. crunch; assumption.
  - now apply sendAudio_not_processing.
  - exact Hc.
  - crunch; assumption.
Qed.

(** No reachable state has the queue marked as being processed: the mark is
    set and cleared within one call. *)
Lemma run_not_processing (o : Options) (events : list Event) :
  isProcessingQueueRef (run o events) = false.
Proof.
  unfold run. induction events as [|e events IH] using rev_ind.
  - reflexivity.
  - rewrite fold_left_app. cbn [fold_left]. now apply step_not_processing.
Qed.

Lemma not_OPEN (r : ReadyState) : r <> OPEN -> ReadyState_eqb r OPEN = false.
Proof. destruct r; simpl; congruence. Qed.

(** C6.  In every state the hook can reach, so after every call of
    [sendAudio], the queue is within its capacity.  While the connection is
    not open and queuing is enabled, every call of [sendAudio] returns true
    and the queue holds the most recent chunks, up to the capacity, oldest
    first; once at least [maxQueueSize] chunks were pushed it holds exactly
    the last [maxQueueSize] of them.  The default capacity is 50. *)
Theorem queue_keeps_most_recent
        (o : Options) (events : list Event) (chunks : list ArrayBuffer) :
  readyState (run o events) <> OPEN ->
  enableQueue o = true ->
  (forall events' : list Event,
     (length (audioQueueRef (run o events')) <= maxQueueSize o)%nat)
  /\ fst (sendAudio_all o chunks (run o events)) = repeat true (length chunks)
  /\ audioQueueRef (snd (sendAudio_all o chunks (run o events)))
     = lastn (maxQueueSize o) (audioQueueRef (run o events) ++ chunks)
  /\ (length (audioQueueRef (snd (sendAudio_all o chunks (run o events))))
        <= maxQueueSize o)%nat
  /\ ((maxQueueSize o <= length chunks)%nat ->
      audioQueueRef (snd (sendAudio_all o chunks (run o events)))
        = lastn (maxQueueSize o) chunks
      /\ length (audioQueueRef (snd (sendAudio_all o chunks (run o events))))
         = maxQueueSize o)
  /\ maxQueueSize (default_options (model o)) = 50%nat.
Proof.
  intros Hrs Hq. apply not_OPEN in Hrs.
  pose proof (run_queue_bounded o events) as Hlen.
  split; [intros events'; apply run_queue_bounded|].
  rewrite sendAudio_all_closed by assumption. cbn [fst snd]. hook_simpl.
  split; [reflexivity|]. split; [reflexivity|].
  split; [rewrite lastn_length; lia|].
  split; [|reflexivity].
  intros Hmany. rewrite lastn_app_more by assumption.
  split; [reflexivity|]. rewrite lastn_length. lia.
Qed.

(** C6, witness: seven one-byte chunks pushed at capacity 5 after [connect],
    before the socket opens. *)
Lemma queue_keeps_most_recent_witness :
  let o := mkOptions "zipformer"%string 16000 5 true in
  let chunks := [[Byte.x01]; [Byte.x02]; [Byte.x03]; [Byte.x04]; [Byte.x05];
                 [Byte.x06]; [Byte.x07]] in
  let events := [EConnect] in
  (forall events' : list Event,
     (length (audioQueueRef (run o events')) <= maxQueueSize o)%nat)
  /\ fst (sendAudio_all o chunks (run o events)) = repeat true (length chunks)
  /\ audioQueueRef (snd (sendAudio_all o chunks (run o events)))
     = lastn (maxQueueSize o) (audioQueueRef (run o events) ++ chunks)
  /\ (length (audioQueueRef (snd (sendAudio_all o chunks (run o events))))
        <= maxQueueSize o)%nat
  /\ ((maxQueueSize o <= length chunks)%nat ->
      audioQueueRef (snd (sendAudio_all o chunks (run o events)))
        = lastn (maxQueueSize o) chunks
      /\ length (audioQueueRef (snd (sendAudio_all o chunks (run o events))))
         = maxQueueSize o)
  /\ maxQueueSize (default_options (model o)) = 50%nat.
Proof.
  intros o chunks events.
  apply (queue_keeps_most_recent o events chunks).
  - simpl. discriminate.
  - reflexivity.
Defined.

(** C10.  The open handler, which runs each time the socket opens, empties
    the interim text, the finalized segments, the full transcript and the
    moderation results, sets the session id and the error to null, the bytes
    sent to 0, the health to healthy and the missed-ping counter to 0, and
    replaces the queue by an empty one.  The chunks queued before are not
    sent by the effects that run once [readyState] is open. *)
Theorem open_resets_session (o : Options) (sid : string) (now : Z) (h : Hook) :
  interimText (state (onOpen h)) = EmptyString
  /\ finalizedSegments (state (onOpen h)) = []
  /\ fullTranscript (state (onOpen h)) = EmptyString
  /\ moderationResults (state (onOpen h)) = []
  /\ latestModeration (state (onOpen h)) = None
  /\ sessionId (state (onOpen h)) = None
  /\ error (state (onOpen h)) = None
  /\ bytesSent (state (onOpen h)) = 0%nat
  /\ bytesSentRef (onOpen h) = 0%nat
  /\ connectionHealth (state (onOpen h)) = healthy
  /\ missedPingsRef (onOpen h) = 0%nat
  /\ audioQueueRef (onOpen h) = []
  /\ queuedChunks (state (onOpen h)) = 0%nat
  /\ audioQueueRef (socket_opens o sid now h) = []
  /\ delivered (socket_opens o sid now h) = delivered h.
Proof.
  destruct (socket_opens_spec o sid now h) as (Hq & Hd & _).
  repeat split; try reflexivity; assumption.
Qed.

(** C3 (as amended).  Queuing enabled, capacity 5, an empty queue and a
    connection that is not open: after seven calls of [sendAudio] the queue
    holds the last five chunks in their order and nothing was sent.  When the
    socket then opens, the open handler empties the queue before the queue
    is processed: none of the chunks is delivered. *)
Theorem queued_chunks_dropped_on_open
        (o : Options) (c1 c2 c3 c4 c5 c6 c7 : ArrayBuffer)
        (sid : string) (now : Z) (h : Hook) :
  readyState h <> OPEN ->
  enableQueue o = true ->
  maxQueueSize o = 5%nat ->
  audioQueueRef h = [] ->
  audioQueueRef (snd (sendAudio_all o [c1; c2; c3; c4; c5; c6; c7] h))
    = [c3; c4; c5; c6; c7]
  /\ delivered (snd (sendAudio_all o [c1; c2; c3; c4; c5; c6; c7] h))
     = delivered h
  /\ readyState
       (socket_opens o sid now
          (snd (sendAudio_all o [c1; c2; c3; c4; c5; c6; c7] h))) = OPEN
  /\ audioQueueRef
       (socket_opens o sid now
          (snd (sendAudio_all o [c1; c2; c3; c4; c5; c6; c7] h))) = []
  /\ delivered
       (socket_opens o sid now
          (snd (sendAudio_all o [c1; c2; c3; c4; c5; c6; c7] h)))
     = delivered h.
Proof.
  intros Hrs Hq Hmax Hempty. apply not_OPEN in Hrs.
  destruct (socket_opens_spec o sid now
              (snd (sendAudio_all o [c1; c2; c3; c4; c5; c6; c7] h)))
    as (Sq & Sd & Sr).
  rewrite Sq, Sd, Sr.
  rewrite sendAudio_all_closed; try assumption; [|rewrite Hempty; simpl; lia].
  cbn [snd]. hook_simpl. rewrite Hempty, Hmax.
  repeat split; reflexivity.
Qed.

(** C3, witness: seven one-byte chunks sent while the socket is connecting. *)
Lemma queued_chunks_dropped_on_open_witness :
  let o := mkOptions "zipformer"%string 16000 5 true in
  let h := connect mount in
  let chunks := [[Byte.x01]; [Byte.x02]; [Byte.x03]; [Byte.x04]; [Byte.x05];
                 [Byte.x06]; [Byte.x07]] in
  audioQueueRef (snd (sendAudio_all o chunks h))
    = [[Byte.x03]; [Byte.x04]; [Byte.x05]; [Byte.x06]; [Byte.x07]]
  /\ delivered (snd (sendAudio_all o chunks h)) = delivered h
  /\ readyState
       (socket_opens o "s1"%string 0 (snd (sendAudio_all o chunks h))) = OPEN
  /\ audioQueueRef
       (socket_opens o "s1"%string 0 (snd (sendAudio_all o chunks h))) = []
  /\ delivered
       (socket_opens o "s1"%string 0 (snd (sendAudio_all o chunks h)))
     = delivered h.
Proof.
  intros o h chunks.
  apply (queued_chunks_dropped_on_open o
           [Byte.x01] [Byte.x02] [Byte.x03] [Byte.x04] [Byte.x05]
           [Byte.x06] [Byte.x07] "s1"%string 0 h).
  - simpl. discriminate.
  - reflexivity.
  - reflexivity.
  - reflexivity.
Defined.

(** C3, counterexample to the claim as stated: capacity 5, seven chunks sent
    while connecting, then the socket opens.  The claim has the last five
    chunks on the wire; the wire carries no audio chunk at all. *)
Lemma queued_chunks_delivery_counterexample :
  let o := mkOptions "zipformer"%string 16000 5 true in
  let chunks := [[Byte.x01]; [Byte.x02]; [Byte.x03]; [Byte.x04]; [Byte.x05];
                 [Byte.x06]; [Byte.x07]] in
  let h := socket_opens o "s1"%string 0
             (snd (sendAudio_all o chunks (connect mount))) in
  readyState h = OPEN
  /\ delivered h = []
  /\ delivered h <> [[Byte.x03]; [Byte.x04]; [Byte.x05]; [Byte.x06]; [Byte.x07]].
Proof.
  vm_compute. split; [reflexivity|]. split; [reflexivity|discriminate].
Qed.

(** *** Sending on an open socket *)

Lemma total_bytes_cons (c : ArrayBuffer) (q : list ArrayBuffer) :
  total_bytes (c :: q) = (byteLength c + total_bytes q)%nat.
Proof. reflexivity. Qed.

Lemma drain_all (q : list ArrayBuffer) :
  forall (rs : ReadyState) (snt : list Frame) (outs : list bool) (b : nat),
    sends_succeed (length q) (mkWS rs snt outs) ->
    drain q (mkWS rs snt outs) b
    = ([], mkWS rs (snt ++ map BinaryFrame q) (skipn (length q) outs),
       (b + total_bytes q)%nat).
Proof.
  unfold sends_succeed.
  induction q as [|c q IH]; intros rs snt outs b Hok; hook_simpl.
  - cbn [drain map length skipn]. unfold total_bytes. simpl.
    now rewrite app_nil_r, Nat.add_0_r.
  - rewrite total_bytes_cons, Nat.add_assoc.
    destruct outs as [|[|] outs];
      cbn [drain ws_send outcomes ws_readyState sent].
    + rewrite IH by (hook_simpl; now rewrite firstn_nil).
      cbn [map length skipn]. rewrite <- app_assoc.
      cbn [app]. rewrite skipn_nil. reflexivity.
    + cbn [length firstn forallb andb] in Hok.
      rewrite IH by exact Hok.
      cbn [map length skipn]. rewrite <- app_assoc.
      cbn [app]. reflexivity.
    + cbn [length firstn forallb andb] in Hok. discriminate.
Qed.

Lemma drain_stops (q1 : list ArrayBuffer) (c : ArrayBuffer) (q2 : list ArrayBuffer) :
  forall (rs : ReadyState) (snt : list Frame) (outs : list bool) (b : nat),
    send_fails_after (length q1) (mkWS rs snt outs) ->
    drain (q1 ++ c :: q2) (mkWS rs snt outs) b
    = (c :: q2,
       mkWS rs (snt ++ map BinaryFrame q1) (skipn (S (length q1)) outs),
       (b + total_bytes q1)%nat).
Proof.
  unfold send_fails_after, sends_succeed.
  induction q1 as [|d q1 IH]; intros rs snt outs b [Hok Hfail]; hook_simpl.
  - destruct outs as [|[|] outs];
      cbn [app drain ws_send outcomes ws_readyState sent length nth_error] in *;
      try discriminate.
    cbn [map skipn]. unfold total_bytes. simpl.
    now rewrite app_nil_r, Nat.add_0_r.
  - rewrite total_bytes_cons, Nat.add_assoc.
    destruct outs as [|[|] outs];
      cbn [app drain ws_send outcomes ws_readyState sent length nth_error] in *;
      try discriminate.
    all: cbn [firstn forallb andb] in Hok; try discriminate.
    rewrite IH by (split; assumption).
    cbn [map skipn]. rewrite <- app_assoc.
    cbn [app]. reflexivity.
Qed.

Lemma binary_frames_map (q : list ArrayBuffer) :
  binary_frames (map BinaryFrame q) = q.
Proof. induction q as [|c q IH]; simpl; congruence. Qed.

Lemma sends_succeed_S (n : nat) (rs : ReadyState) (snt : list Frame)
      (outs : list bool) :
  sends_succeed (S n) (mkWS rs snt outs) ->
  sends_succeed n (mkWS rs snt outs)
  /\ (nth_error outs n = Some true \/ nth_error outs n = None).
Proof.
  unfold sends_succeed. hook_simpl. revert outs.
  induction n as [|n IH]; intros [|[|] outs] H; cbn in *; auto; try discriminate.
Qed.

Lemma ws_send_skipn (c : ArrayBuffer) (rs : ReadyState) (snt : list Frame)
      (outs : list bool) (n : nat) :
  ws_send c (mkWS rs snt (skipn n outs))
  = match nth_error outs n with
    | Some false => (false, mkWS rs snt (skipn (S n) outs))
    | _ => (true, mkWS rs (snt ++ [BinaryFrame c]) (skipn (S n) outs))
    end.
Proof.
  unfold ws_send. hook_simpl. revert outs.
  induction n as [|n IH]; intros [|[|] outs]; cbn [skipn nth_error];
    try reflexivity; apply IH.
Qed.

(** [sendAudio] on an open socket, in terms of the loop and the final
    [send]. *)
Lemma sendAudio_open_steps (o : Options) (buf : ArrayBuffer) (h : Hook) (w : WebSocket) :
  readyState h = OPEN ->
  ws h = Some w ->
  ws_readyState w = OPEN ->
  isProcessingQueueRef h = false ->
  forall q' w' b',
    drain (audioQueueRef h) w (bytesSentRef h) = (q', w', b') ->
    (forall w'', ws_send buf w' = (true, w'') ->
       fst (sendAudio o buf h) = true
       /\ delivered (snd (sendAudio o buf h)) = binary_frames (sent w'')
       /\ audioQueueRef (snd (sendAudio o buf h)) = q'
       /\ bytesSentRef (snd (sendAudio o buf h)) = (b' + byteLength buf)%nat)
    /\ (forall w'', ws_send buf w' = (false, w'') ->
       fst (sendAudio o buf h) = false
       /\ delivered (snd (sendAudio o buf h)) = binary_frames (sent w'')
       /\ audioQueueRef (snd (sendAudio o buf h))
          = if enableQueue o then push_bounded (maxQueueSize o) buf q' else q').
Proof.
  intros Hrs Hws Hw Hip q' w' b' Hdrain.
  destruct h as [st cs pi pt lp mp q ip bs rs ows cl]. hook_simpl. subst.
  unfold sendAudio, drain_queue, delivered. hook_simpl.
  rewrite Hw. cbn [ReadyState_eqb negb andb].
  destruct q as [|c q].
  - cbn [is_empty negb drain] in *. injection Hdrain as <- <- <-. hook_simpl.
    split; intros w'' Hsend; rewrite Hsend; hook_simpl.
    + repeat split; reflexivity.
    + destruct (enableQueue o); hook_simpl; repeat split; reflexivity.
  - cbn [is_empty negb]. rewrite Hdrain. hook_simpl.
    split; intros w'' Hsend; rewrite Hsend; hook_simpl.
    + repeat split; reflexivity.
    + destruct (enableQueue o); hook_simpl; repeat split; reflexivity.
Qed.

(** [sendAudio] on an open socket whose queue is not marked as being
    processed. *)
Lemma sendAudio_open_from
        (o : Options) (buf : ArrayBuffer) (h : Hook) (w : WebSocket) :
  readyState h = OPEN ->
  ws h = Some w ->
  ws_readyState w = OPEN ->
  isProcessingQueueRef h = false ->
  (sends_succeed (S (length (audioQueueRef h))) w ->
     fst (sendAudio o buf h) = true
     /\ delivered (snd (sendAudio o buf h))
        = delivered h ++ audioQueueRef h ++ [buf]
     /\ audioQueueRef (snd (sendAudio o buf h)) = []
     /\ bytesSentRef (snd (sendAudio o buf h))
        = (bytesSentRef h + total_bytes (audioQueueRef h) + byteLength buf)%nat)
  /\ (forall q1 c q2,
        audioQueueRef h = q1 ++ c :: q2 ->
        send_fails_after (length q1) w ->
        audioQueueRef (drain_queue w h) = c :: q2
        /\ delivered (drain_queue w h) = delivered h ++ q1)
  /\ (send_fails_after (length (audioQueueRef h)) w ->
        fst (sendAudio o buf h) = false
        /\ delivered (snd (sendAudio o buf h)) = delivered h ++ audioQueueRef h
        /\ audioQueueRef (snd (sendAudio o buf h))
           = if enableQueue o && Nat.ltb 0 (maxQueueSize o) then [buf] else []).
Proof.
  intros Hrs Hws Hw Hip.
  destruct w as [rs snt outs]. cbn [ws_readyState] in Hw. subst rs.
  assert (Hdel : delivered h = binary_frames snt)
    by (unfold delivered; now rewrite Hws).
  split; [|split].
  - intros Hok. apply sends_succeed_S in Hok. destruct Hok as [Hok Hlast].
    pose proof (drain_all (audioQueueRef h) OPEN snt outs (bytesSentRef h) Hok)
      as Hdrain.
    destruct (sendAudio_open_steps o buf h _ Hrs Hws eq_refl Hip _ _ _ Hdrain)
      as [Hsucc _].
    specialize (Hsucc (mkWS OPEN ((snt ++ map BinaryFrame (audioQueueRef h))
                                    ++ [BinaryFrame buf])
                            (skipn (S (length (audioQueueRef h))) outs))).
    destruct Hsucc as (Hr & Hd & Hq & Hb).
    { rewrite ws_send_skipn. destruct Hlast as [-> | ->]; reflexivity. }
    rewrite Hr, Hd, Hq, Hb. hook_simpl.
    rewrite !binary_frames_app, binary_frames_map, Hdel, <- app_assoc.
    repeat split; reflexivity.
  - intros q1 c q2 Hq Hfail.
    pose proof (drain_stops q1 c q2 OPEN snt outs (bytesSentRef h) Hfail)
      as Hdrain.
    unfold drain_queue, delivered. rewrite Hq, Hdrain, Hws. hook_simpl.
    rewrite binary_frames_app, binary_frames_map. split; reflexivity.
  - intros [Hok Hlast].
    pose proof (drain_all (audioQueueRef h) OPEN snt outs (bytesSentRef h) Hok)
      as Hdrain.
    destruct (sendAudio_open_steps o buf h _ Hrs Hws eq_refl Hip _ _ _ Hdrain)
      as [_ Hfail].
    specialize (Hfail (mkWS OPEN (snt ++ map BinaryFrame (audioQueueRef h))
                            (skipn (S (length (audioQueueRef h))) outs))).
    destruct Hfail as (Hr & Hd & Hq).
    { rewrite ws_send_skipn. hook_simpl. rewrite Hlast. reflexivity. }
    rewrite Hr, Hd, Hq. hook_simpl.
    rewrite binary_frames_app, binary_frames_map, Hdel.
    split; [reflexivity|]. split; [reflexivity|].
    unfold push_bounded. cbn [app length].
    destruct (enableQueue o); cbn [andb]; [|reflexivity].
    destruct (maxQueueSize o) as [|m]; reflexivity.
Qed.

(** [sendAudio] on an open socket whose queue is not marked as being
    processed, case by case: every [send] succeeds; the [send] of the
    current buffer throws after the queue went through; the [send] of a
    queued chunk throws. *)
Lemma sendAudio_open_all
        (o : Options) (buf : ArrayBuffer) (h : Hook) (w : WebSocket) :
  readyState h = OPEN ->
  ws h = Some w ->
  ws_readyState w = OPEN ->
  isProcessingQueueRef h = false ->
  (sends_succeed (S (length (audioQueueRef h))) w ->
     fst (sendAudio o buf h) = true
     /\ delivered (snd (sendAudio o buf h))
        = delivered h ++ audioQueueRef h ++ [buf]
     /\ audioQueueRef (snd (sendAudio o buf h)) = []
     /\ bytesSentRef (snd (sendAudio o buf h))
        = (bytesSentRef h + total_bytes (audioQueueRef h) + byteLength buf)%nat)
  /\ (send_fails_after (length (audioQueueRef h)) w ->
        fst (sendAudio o buf h) = false
        /\ delivered (snd (sendAudio o buf h)) = delivered h ++ audioQueueRef h
        /\ audioQueueRef (snd (sendAudio o buf h))
           = if enableQueue o && Nat.ltb 0 (maxQueueSize o) then [buf] else [])
  /\ (forall q1 c q2,
        audioQueueRef h = q1 ++ c :: q2 ->
        send_fails_after (length q1) w ->
        (nth_error (outcomes w) (S (length q1)) <> Some false ->
           fst (sendAudio o buf h) = true
           /\ delivered (snd (sendAudio o buf h)) = delivered h ++ q1 ++ [buf]
           /\ audioQueueRef (snd (sendAudio o buf h)) = c :: q2)
        /\ (nth_error (outcomes w) (S (length q1)) = Some false ->
           fst (sendAudio o buf h) = false
           /\ delivered (snd (sendAudio o buf h)) = delivered h ++ q1
           /\ audioQueueRef (snd (sendAudio o buf h))
              = if enableQueue o
                then push_bounded (maxQueueSize o) buf (c :: q2)
                else c :: q2)).
Proof.
  intros Hrs Hws Hw Hip.
  destruct (sendAudio_open_from o buf h w Hrs Hws Hw Hip) as (HA & _ & HB).
  split; [exact HA|]. split; [exact HB|].
  intros q1 c q2 Hq Hfail.
  destruct w as [rs snt outs]. cbn [ws_readyState] in Hw. subst rs.
  assert (Hdel : delivered h = binary_frames snt)
    by (unfold delivered; now rewrite Hws).
  pose proof (drain_stops q1 c q2 OPEN snt outs (bytesSentRef h) Hfail)
    as Hdrain.
  rewrite <- Hq in Hdrain.
  destruct (sendAudio_open_steps o buf h _ Hrs Hws eq_refl Hip _ _ _ Hdrain)
    as [Hsucc Hthrow].
  cbn [outcomes].
  split.
  - intros Hnext.
    specialize (Hsucc (mkWS OPEN ((snt ++ map BinaryFrame q1) ++ [BinaryFrame buf])
                            (skipn (S (S (length q1))) outs))).
    destruct Hsucc as (Hr & Hd & Hq' & _).
    { rewrite ws_send_skipn.
      destruct (nth_error outs (S (length q1))) as [[|]|]; congruence. }
    rewrite Hr, Hd, Hq'. hook_simpl.
    rewrite !binary_frames_app, binary_frames_map, Hdel, <- app_assoc.
    repeat split; reflexivity.
  - intros Hnext.
    specialize (Hthrow (mkWS OPEN (snt ++ map BinaryFrame q1)
                             (skipn (S (S (length q1))) outs))).
    destruct Hthrow as (Hr & Hd & Hq').
    { rewrite ws_send_skipn, Hnext. reflexivity. }
    rewrite Hr, Hd, Hq'. hook_simpl.
    rewrite binary_frames_app, binary_frames_map, Hdel.
    repeat split; reflexivity.
Qed.

(** C5 (as amended).  [sendAudio] on an open socket, in any state the hook
    can reach.  If every [send] succeeds, the queued chunks go over the wire
    oldest first, then the current buffer; the queue is left empty and the
    call returns true.  If the queued chunks are sent and the [send] of the
    current buffer throws, the call returns false, and the buffer is kept
    (as the only entry of the emptied queue) only when queuing is enabled
    and the capacity is not zero.  If the [send] of a queued chunk throws,
    the loop over the queue stops there: the chunks before it were sent in
    order, the failed chunk is back at the front of the queue, before the
    chunks that followed it; the current buffer is then sent all the same,
    and when that [send] throws too the call returns false and the buffer
    goes to the back of the queue, under the capacity rule, only when
    queuing is enabled. *)
Theorem sendAudio_open
        (o : Options) (events : list Event) (buf : ArrayBuffer) (w : WebSocket) :
  readyState (run o events) = OPEN ->
  ws (run o events) = Some w ->
  ws_readyState w = OPEN ->
  (sends_succeed (S (length (audioQueueRef (run o events)))) w ->
     fst (sendAudio o buf (run o events)) = true
     /\ delivered (snd (sendAudio o buf (run o events)))
        = delivered (run o events) ++ audioQueueRef (run o events) ++ [buf]
     /\ audioQueueRef (snd (sendAudio o buf (run o events))) = []
     /\ bytesSentRef (snd (sendAudio o buf (run o events)))
        = (bytesSentRef (run o events)
           + total_bytes (audioQueueRef (run o events))
           + byteLength buf)%nat)
  /\ (send_fails_after (length (audioQueueRef (run o events))) w ->
        fst (sendAudio o buf (run o events)) = false
        /\ delivered (snd (sendAudio o buf (run o events)))
           = delivered (run o events) ++ audioQueueRef (run o events)
        /\ audioQueueRef (snd (sendAudio o buf (run o events)))
           = if enableQueue o && Nat.ltb 0 (maxQueueSize o) then [buf]
             else [])
  /\ (forall q1 c q2,
        audioQueueRef (run o events) = q1 ++ c :: q2 ->
        send_fails_after (length q1) w ->
        (nth_error (outcomes w) (S (length q1)) <> Some false ->
           fst (sendAudio o buf (run o events)) = true
           /\ delivered (snd (sendAudio o buf (run o events)))
              = delivered (run o events) ++ q1 ++ [buf]
           /\ audioQueueRef (snd (sendAudio o buf (run o events))) = c :: q2)
        /\ (nth_error (outcomes w) (S (length q1)) = Some false ->
           fst (sendAudio o buf (run o events)) = false
           /\ delivered (snd (sendAudio o buf (run o events)))
              = delivered (run o events) ++ q1
           /\ audioQueueRef (snd (sendAudio o buf (run o events)))
              = if enableQueue o
                then push_bounded (maxQueueSize o) buf (c :: q2)
                else c :: q2)).
Proof.
  intros Hrs Hws Hw.
  exact (sendAudio_open_all o buf (run o events) w Hrs Hws Hw
           (run_not_processing o events)).
Qed.

(** C5, witness: the socket opened, two calls of [sendAudio] threw and left
    their chunks in the queue; at the third call the first queued chunk
    goes through, the [send] of the second throws and that of the current
    buffer succeeds. *)
Lemma sendAudio_open_witness :
  let o := default_options "zipformer"%string in
  let events := [EConnect; ESocketOpens "s1"%string 0;
                 ESendOutcomes [false]; ESendAudio [Byte.x01];
                 ESendOutcomes [false; false]; ESendAudio [Byte.x02];
                 ESendOutcomes [true; false; true]] in
  let w := mkWS OPEN
             [TextFrame (ConfigMessage "zipformer"%string 16000);
              TextFrame (StartSessionMessage "s1"%string);
              TextFrame (PingMessage 0)] [true; false; true] in
  let buf := [Byte.x03] in
  audioQueueRef (run o events) = [[Byte.x01]; [Byte.x02]]
  /\ send_fails_after 1 w
  /\ fst (sendAudio o buf (run o events)) = true
  /\ delivered (snd (sendAudio o buf (run o events))) = [[Byte.x01]; [Byte.x03]]
  /\ audioQueueRef (snd (sendAudio o buf (run o events))) = [[Byte.x02]].
Proof.
  intros o events w buf.
  assert (Hq : audioQueueRef (run o events) = [] ++ [[Byte.x01]] ++ [Byte.x02] :: [])
    by reflexivity.
  assert (Hf : send_fails_after 1 w) by (split; reflexivity).
  destruct (sendAudio_open o events buf w) as (_ & _ & H);
    [reflexivity|reflexivity|reflexivity|].
  destruct (H [[Byte.x01]] [Byte.x02] [] Hq Hf) as ((Hr & Hd & Hq') & _);
    [cbn; discriminate|].
  split; [reflexivity|]. split; [exact Hf|].
  split; [exact Hr|]. split; [rewrite Hd; reflexivity|exact Hq'].
Defined.

(** C5, counterexample to the claim as stated.  With queuing disabled, a
    current buffer whose [send] throws is not put in the queue at all.  With
    queuing enabled and two chunks queued, when the [send] of the first
    queued chunk and that of the current buffer both throw, the current
    buffer ends at the back of the queue, not at the front. *)
Lemma requeue_at_front_counterexample :
  let a := [Byte.x01] in
  let c := [Byte.x02] in
  let buf := [Byte.x03] in
  let off := mkOptions "zipformer"%string 16000 50 false in
  let on := mkOptions "zipformer"%string 16000 50 true in
  let h1 := set_ws (Some (mkWS OPEN [] [false])) (set_readyState OPEN mount) in
  let h2 := set_audioQueueRef [a; c]
              (set_ws (Some (mkWS OPEN [] [false; false]))
                      (set_readyState OPEN mount)) in
  fst (sendAudio off buf h1) = false
  /\ delivered (snd (sendAudio off buf h1)) = []
  /\ audioQueueRef (snd (sendAudio off buf h1)) = []
  /\ fst (sendAudio on buf h2) = false
  /\ delivered (snd (sendAudio on buf h2)) = []
  /\ audioQueueRef (snd (sendAudio on buf h2)) = [a; c; buf]
  /\ hd_error (audioQueueRef (snd (sendAudio on buf h2))) <> Some buf.
Proof.
  vm_compute. repeat (split; [reflexivity|]). discriminate.
Qed.

(** *** Health in the states the hook reaches *)

Lemma processQueue_health (h : Hook) :
  connectionHealth (state (processQueue h)) = connectionHealth (state h)
  /\ missedPingsRef (processQueue h) = missedPingsRef h.
Proof.
  unfold processQueue, drain_queue.
  destruct (isProcessingQueueRef h); [auto|].
  destruct (negb (ReadyState_eqb (readyState h) OPEN)); [auto|].
  destruct (is_empty (audioQueueRef h)); [auto|].
  hook_simpl. destruct (ws h) as [w|]; hook_simpl; [|auto].
  destruct (negb (ReadyState_eqb (ws_readyState w) OPEN)); hook_simpl; [auto|].
  destruct (drain (audioQueueRef h) w (bytesSentRef h)) as [[q' w'] b'].
  hook_simpl. auto.
Qed.

Lemma connectionStateEffect_health (h : Hook) :
  connectionHealth (state (connectionStateEffect h)) = connectionHealth (state h)
  /\ missedPingsRef (connectionStateEffect h) = missedPingsRef h.
Proof.
  unfold connectionStateEffect. hook_simpl.
  destruct (ReadyState_eqb (readyState h) OPEN); hook_simpl; [|auto].
  match goal with |- context [processQueue ?x] =>
    destruct (processQueue_health x) as [H1 H2] end.
  hook_simpl. rewrite H1, H2. auto.
Qed.

Lemma sendJsonMessage_frame (m : ClientMessage) (h : Hook) :
  state (sendJsonMessage m h) = state h
  /\ missedPingsRef (sendJsonMessage m h) = missedPingsRef h
  /\ readyState (sendJsonMessage m h) = readyState h.
Proof.
  unfold sendJsonMessage. destruct (ws h); hook_simpl; auto.
Qed.

Lemma sendPing_frame (now : Z) (h : Hook) :
  state (sendPing now h) = state h
  /\ missedPingsRef (sendPing now h) = missedPingsRef h.
Proof.
  unfold sendPing.
  destruct (negb (ReadyState_eqb (readyState h) OPEN)); [auto|].
  cbv zeta. hook_simpl.
  match goal with |- context [sendJsonMessage ?m ?x] =>
    destruct (sendJsonMessage_frame m x) as (H1 & H2 & _) end.
  rewrite H1, H2. hook_simpl. auto.
Qed.

Lemma configEffect_health (o : Options) (sid : string) (now : Z) (h : Hook) :
  connectionHealth (state (configEffect o sid now h)) = connectionHealth (state h)
  /\ missedPingsRef (configEffect o sid now h) = missedPingsRef h.
Proof.
  unfold configEffect.
  destruct (ReadyState_eqb (readyState h) OPEN && negb (configSentRef h));
    [|auto].
  cbv zeta.
  match goal with |- context [sendPing now ?x] =>
    destruct (sendPing_frame now x) as (H1 & H2) end.
  rewrite H1, H2. hook_simpl.
  match goal with |- context [sendJsonMessage ?m (sendJsonMessage ?m' ?x)] =>
    destruct (sendJsonMessage_frame m (sendJsonMessage m' x)) as (H3 & H4 & _);
    destruct (sendJsonMessage_frame m' x) as (H5 & H6 & _) end.
  rewrite H3, H4, H5, H6. auto.
Qed.

Lemma sendAudio_health (o : Options) (c : ArrayBuffer) (h : Hook) :
  connectionHealth (state (snd (sendAudio o c h))) = connectionHealth (state h)
  /\ missedPingsRef (snd (sendAudio o c h)) = missedPingsRef h.
Proof.
  unfold sendAudio, drain_queue.
  destruct (negb (ReadyState_eqb (readyState h) OPEN)).
  - destruct (enableQueue o); cbn [snd]; hook_simpl; auto.
  - destruct (ws h) as [w|]; [|auto].
    destruct (negb (ReadyState_eqb (ws_readyState w) OPEN)); [auto|].
    destruct (negb (isProcessingQueueRef h) && negb (is_empty (audioQueueRef h))).
    + hook_simpl.
      destruct (drain (audioQueueRef h) w (bytesSentRef h)) as [[q' w'] b'].
      hook_simpl.
      destruct (ws_send c w') as [[|] w'']; cbn [snd]; hook_simpl; [auto|].
      destruct (enableQueue o); cbn [snd]; hook_simpl; auto.
    + destruct (ws h) as [w1|];
        [destruct (ws_send c w1) as [[|] w'']|destruct (ws_send c w) as [[|] w'']];
        cbn [snd]; hook_simpl; auto;
        destruct (enableQueue o); cbn [snd]; hook_simpl; auto.
Qed.

Lemma pingTimeout_health (h : Hook) :
  connectionHealth (state (pingTimeout h)) = health_of (missedPingsRef (pingTimeout h)).
Proof.
  unfold pingTimeout. cbv zeta.
  match goal with
  | |- context [updateConnectionHealth ?m ?x] =>
      destruct (updateConnectionHealth_spec m x) as (Hh & Hm & _)
  end.
  destruct (Nat.leb _ _); hook_simpl; rewrite Hh, Hm; reflexivity.
Qed.

Lemma handlePong_health (timestamp now : Z) (h : Hook) :
  connectionHealth (state (handlePong timestamp now h)) = healthy
  /\ missedPingsRef (handlePong timestamp now h) = 0%nat.
Proof.
  unfold handlePong. cbv zeta.
  match goal with
  | |- context [updateConnectionHealth ?m ?x] =>
      destruct (updateConnectionHealth_spec m x) as (Hh & Hm & _)
  end.
  rewrite Hh, Hm. hook_simpl. auto.
Qed.

Lemma step_health (o : Options) (h : Hook) (e : Event) :
  TransportAux.health_tracks_counter h -> TransportAux.health_tracks_counter (step o h e).
Proof.
  unfold TransportAux.health_tracks_counter.
  intros Hh. destruct e as [| |sid now| | |m now|now| |c| |outs]; cbn [step].
  - exact Hh.
  - unfold disconnect. hook_simpl. destruct (ws h); hook_simpl; exact Hh.
  - left. unfold socket_opens.
    match goal with |- context [configEffect o sid now ?x] =>
      destruct (configEffect_health o sid now x) as [H1 H2] end.
    rewrite H1, H2.
    match goal with |- context [connectionStateEffect ?x] =>
      destruct (connectionStateEffect_health x) as [H3 H4] end.
    rewrite H3, H4. unfold onOpen. hook_simpl. reflexivity.
  - unfold socket_closes.
    match goal with |- context [connectionStateEffect ?x] =>
      destruct (connectionStateEffect_health x) as [H3 H4] end.
    rewrite H3, H4. unfold onClose. hook_simpl.
    destruct (ws h); hook_simpl; exact Hh.
  - right. reflexivity.
  - destruct m as [ts|r|r|]; unfold onMessage.
    + left. destruct (handlePong_health ts now h) as [H1 H2].
      rewrite H1, H2. reflexivity.
    + hook_simpl. exact Hh.
    + hook_simpl. exact Hh.
    + exact Hh.
  - destruct (pingIntervalRef h); [|exact Hh].
    destruct (sendPing_frame now h) as [H1 H2]. rewrite H1, H2. exact Hh.
  - destruct (pingTimeoutRef h); [|exact Hh].
    left. apply pingTimeout_health.
  - destruct (sendAudio_health o c h) as [H1 H2]. rewrite H1, H2. exact Hh.
  - exact Hh.
  - destruct (ws h); hook_simpl; exact Hh.
Qed.

Lemma run_health (o : Options) (events : list Event) :
  TransportAux.health_tracks_counter (run o events).
Proof.
  unfold run. induction events as [|e events IH] using rev_ind.
  - left. reflexivity.
  - rewrite fold_left_app. cbn [fold_left]. now apply step_health.
Qed.

(** C4 (as amended).  The health computed by [updateConnectionHealth] is
    [health_of] of the missed-ping count it is given, whatever the state:
    healthy for 0, degraded for 1 and 2, unhealthy from 3 on.  A ping
    timeout increments the counter and leaves the health equal to
    [health_of] of the new count, whatever it was before.  A pong, in any
    state, sets the counter to 0, records the latency [now - timestamp] and
    leaves the health healthy.  The socket's error handler sets the health
    to unhealthy and leaves the counter as it is.  So in every state the
    hook reaches, the health is [health_of] of the counter or it is
    unhealthy. *)
Theorem heartbeat_health
        (h : Hook) (timestamp now : Z) (k missed : nat)
        (o : Options) (events : list Event) :
  health_of 0 = healthy
  /\ health_of 1 = degraded
  /\ health_of 2 = degraded
  /\ health_of (3 + k) = unhealthy
  /\ connectionHealth (state (updateConnectionHealth missed h)) = health_of missed
  /\ missedPingsRef (pingTimeout h) = S (missedPingsRef h)
  /\ connectionHealth (state (pingTimeout h)) = health_of (S (missedPingsRef h))
  /\ missedPingsRef (handlePong timestamp now h) = 0%nat
  /\ lastPingLatency (state (handlePong timestamp now h)) = Some (now - timestamp)
  /\ connectionHealth (state (handlePong timestamp now h)) = healthy
  /\ pingTimeoutRef (handlePong timestamp now h) = false
  /\ connectionHealth (state (onErrorEvent h)) = unhealthy
  /\ missedPingsRef (onErrorEvent h) = missedPingsRef h
  /\ (connectionHealth (state (run o events))
        = health_of (missedPingsRef (run o events))
      \/ connectionHealth (state (run o events)) = unhealthy).
Proof.
  repeat match goal with |- _ /\ _ => split end; try reflexivity.
  1: apply updateConnectionHealth_spec.
  all: try exact (run_health o events).
  all: unfold pingTimeout, handlePong; cbv zeta.
  all: match goal with
       | |- context [updateConnectionHealth ?m ?x] =>
           destruct (updateConnectionHealth_spec m x) as (Hh & Hm & Hl & Ht)
       end.
  all: try destruct (Nat.leb _ _); hook_simpl.
  all: rewrite ?Hh, ?Hm, ?Hl, ?Ht; reflexivity.
Qed.

(** C4, counterexample to the claim as stated: after the socket opened and
    reported an error, the counter is 0, of which the classification is
    healthy, and the health is unhealthy. *)
Lemma health_after_socket_error_counterexample :
  let h := run (default_options "zipformer"%string)
               [EConnect; ESocketOpens "s1"%string 0; ESocketError] in
  missedPingsRef h = 0%nat
  /\ connectionHealth (state h) = unhealthy
  /\ health_of (missedPingsRef h) = healthy
  /\ connectionHealth (state h) <> health_of (missedPingsRef h).
Proof.
  vm_compute. repeat split; discriminate.
Qed.

(** *** Transcript assembly *)

Lemma ws_head_cases (s : string) :
  (exists t, ws_head s t) \/ starts_ws s = false.
Proof.
  destruct s as [|a [|b [|c t]]]; cbn [starts_ws]; auto.
  - destruct (is_ws a) eqn:Ea; [left; eexists; now constructor|auto].
  - destruct (is_ws a) eqn:Ea; [left; eexists; now constructor|].
    destruct (is_ws2 a b) eqn:Eb; [left; eexists; now constructor|auto].
  - destruct (is_ws a) eqn:Ea; [left; eexists; now constructor|].
    destruct (is_ws2 a b) eqn:Eb; [left; eexists; now constructor|].
    destruct (is_ws3 a b c) eqn:Ec; [left; eexists; now constructor|auto].
Qed.

Lemma ws_head_step (s t : string) :
  ws_head s t ->
  trimStart s = trimStart t /\ all_ws s = all_ws t /\ starts_ws s = true
  /\ (String.length t < String.length s)%nat
  /\ exists w, s = (w ++ t)%string /\ all_ws w = true /\ w <> EmptyString.
Proof.
  intros H. destruct H as [a t Ha|a b t Ha Hb|a b c t Ha Hb Hc].
  - cbn [trimStart all_ws starts_ws String.length]. rewrite Ha.
    repeat split; auto.
    exists (String a EmptyString). cbn [String.append all_ws]. rewrite Ha.
    repeat split; auto. discriminate.
  - cbn [trimStart all_ws starts_ws String.length]. rewrite Ha, Hb.
    repeat split; auto.
    exists (String a (String b EmptyString)).
    cbn [String.append all_ws]. rewrite Ha, Hb.
    repeat split; auto. discriminate.
  - cbn [trimStart all_ws starts_ws String.length]. rewrite Ha, Hb, Hc.
    cbn [orb andb]. repeat split; auto.
    exists (String a (String b (String c EmptyString))).
    cbn [String.append all_ws]. rewrite Ha, Hb, Hc.
    repeat split; auto. discriminate.
Qed.

Lemma no_ws_head (s : string) :
  starts_ws s = false ->
  trimStart s = s /\ (s <> EmptyString -> all_ws s = false).
Proof.
  destruct s as [|a [|b [|c t]]]; cbn [starts_ws trimStart all_ws]; intros H.
  - split; [reflexivity|congruence].
  - rewrite orb_false_r in H. rewrite H. auto.
  - apply orb_false_elim in H. destruct H as [Ha H].
    rewrite orb_false_r in H. rewrite Ha, H. auto.
  - apply orb_false_elim in H. destruct H as [Ha H].
    apply orb_false_elim in H. destruct H as [Hb Hc].
    rewrite Ha, Hb, Hc. auto.
Qed.

Lemma scan_ind (P : string -> Prop) :
  (forall s, starts_ws s = false -> P s) ->
  (forall s t, ws_head s t -> P t -> P s) ->
  forall s, P s.
Proof.
  intros Hbase Hstep s.
  remember (String.length s) as n eqn:Hn.
  revert s Hn. induction n as [n IH] using lt_wf_ind. intros s Hn.
  destruct (ws_head_cases s) as [[t Ht]|Hno]; [|now apply Hbase].
  apply (Hstep s t Ht). apply (IH (String.length t)); [|reflexivity].
  subst n. now apply ws_head_step.
Qed.

Lemma all_ws_app (x y : string) :
  all_ws x = true -> all_ws y = true -> all_ws (x ++ y) = true.
Proof.
  revert y. pattern x. apply scan_ind; clear x.
  - intros s Hs y Hx Hy. destruct s as [|a s]; [exact Hy|].
    apply no_ws_head in Hs. destruct Hs as [_ Hs].
    rewrite Hs in Hx by discriminate. discriminate.
  - intros s t Ht IH y Hx Hy.
    assert (Ht' : ws_head (s ++ y) (t ++ y)).
    { destruct Ht; cbn [String.append]; now constructor. }
    apply ws_head_step in Ht. destruct Ht as (_ & Ea & _).
    apply ws_head_step in Ht'. destruct Ht' as (_ & Ea' & _).
    rewrite Ea'. apply IH; [now rewrite <- Ea|exact Hy].
Qed.

Lemma string_append_assoc (a b c : string) :
  ((a ++ b) ++ c = a ++ (b ++ c))%string.
Proof.
  induction a as [|x a IH]; cbn [String.append]; [reflexivity|].
  now rewrite IH.
Qed.

Lemma trimStart_spec (s : string) :
  exists l : string,
    s = (l ++ trimStart s)%string
    /\ all_ws l = true
    /\ starts_ws (trimStart s) = false
    /\ truthy (trimStart s) = negb (all_ws s).
Proof.
  pattern s. apply scan_ind; clear s.
  - intros s Hs. destruct (no_ws_head s Hs) as [Et Ea]. rewrite Et.
    exists EmptyString. repeat split; auto.
    destruct s as [|a s]; [reflexivity|].
    rewrite Ea by discriminate. reflexivity.
  - intros s t Ht (l & Hl & Hws & Hst & Htr).
    apply ws_head_step in Ht.
    destruct Ht as (Et & Ea & _ & _ & w & Hw & Hww & _).
    rewrite Et, Ea. exists (w ++ l)%string.
    split; [rewrite string_append_assoc, <- Hl; exact Hw|].
    split; [now apply all_ws_app|]. auto.
Qed.

Lemma starts_ws_prefix (x r : string) :
  starts_ws x = true -> starts_ws (x ++ r) = true.
Proof.
  destruct x as [|a [|b [|c t]]]; cbn [starts_ws String.append]; intros H.
  - discriminate.
  - rewrite orb_false_r in H. now rewrite H.
  - apply orb_true_iff in H. destruct H as [H|H]; [now rewrite H|].
    rewrite orb_false_r in H. rewrite H.
    destruct r; cbn; now rewrite ?orb_true_r.
  - exact H.
Qed.

Lemma trimEnd_spec (s : string) :
  exists r : string,
    s = (trimEnd s ++ r)%string
    /\ all_ws r = true
    /\ ends_ws (trimEnd s) = false
    /\ (starts_ws s = false -> starts_ws (trimEnd s) = false)
    /\ truthy (trimEnd s) = negb (all_ws s).
Proof.
  induction s as [|a t IH].
  - exists EmptyString. repeat split.
  - destruct IH as (r & Hr & Hws & Hend & _ & _).
    cbn [trimEnd].
    destruct (all_ws (String a t)) eqn:Ea.
    + exists (String a t). repeat split; auto.
    + exists r. cbn [String.append].
      split; [now rewrite <- Hr|]. split; [exact Hws|].
      split; [|split; [|reflexivity]].
      * cbn [ends_ws]. rewrite Hend, orb_false_r.
        destruct (all_ws (String a (trimEnd t))) eqn:E; [|reflexivity].
        assert (H : all_ws (String a (trimEnd t) ++ r) = true)
          by now apply all_ws_app.
        cbn [String.append] in H. rewrite <- Hr in H. congruence.
      * intros Hs.
        destruct (starts_ws (String a (trimEnd t))) eqn:E; [|reflexivity].
        apply (starts_ws_prefix _ r) in E. cbn [String.append] in E.
        rewrite <- Hr in E. congruence.
Qed.

Lemma trim_spec (s : string) :
  (exists l r : string,
     s = (l ++ trim s ++ r)%string /\ all_ws l = true /\ all_ws r = true)
  /\ trimmed (trim s)
  /\ truthy (trim s) = negb (all_ws s).
Proof.
  unfold trim.
  destruct (trimStart_spec s) as (l & Hl & Hlws & Hst & Htr).
  destruct (trimEnd_spec (trimStart s)) as (r & Hr & Hrws & Hend & Hkeep & Htr').
  split; [|split].
  - exists l, r. split; [|split; assumption]. now rewrite <- Hr.
  - split; [now apply Hkeep|exact Hend].
  - rewrite Htr'.
    destruct (trimStart s) as [|a t] eqn:Es.
    + cbn [all_ws negb]. cbn [truthy] in Htr.
      destruct (all_ws s); [reflexivity|discriminate].
    + cbn [truthy] in Htr.
      assert (Hno : all_ws (String a t) = false).
      { apply no_ws_head; [exact Hst|discriminate]. }
      rewrite Hno. cbn [negb]. exact Htr.
Qed.

Lemma white_space_stripped :
  Forall (fun w => all_ws w = true
                   /\ trim (w ++ "hi" ++ w)%string = "hi"%string
                   /\ trim w = EmptyString)
         white_space.
Proof. repeat constructor. Qed.

Lemma byte_is_eq (a : ascii) (n : N) :
  byte_is a n = true -> a = ascii_of_N n.
Proof.
  unfold byte_is. intros H. apply N.eqb_eq in H. rewrite <- H.
  symmetry. apply ascii_N_embedding.
Qed.

Lemma is_ws_white_space (a : ascii) :
  is_ws a = true -> In (String a EmptyString) white_space.
Proof.
  destruct a as [[] [] [] [] [] [] [] []]; intros H;
    try discriminate H; vm_compute; tauto.
Qed.

Ltac pick_head :=
  match goal with
  | |- exists w, _ /\ String ?a (String ?b (String ?c ?t)) = _ =>
      exists (String a (String b (String c EmptyString)))
  end.

Lemma ws_head_white_space (s t : string) :
  ws_head s t -> exists w, In w white_space /\ s = (w ++ t)%string.
Proof.
  intros H. destruct H as [a t Ha|a b t Ha Hb|a b c t Ha Hb Hc].
  - exists (String a EmptyString). split; [now apply is_ws_white_space|reflexivity].
  - unfold is_ws2 in Hb. apply andb_prop in Hb. destruct Hb as [H1 H2].
    apply byte_is_eq in H1, H2. subst a b.
    exists (String (ascii_of_N 194) (String (ascii_of_N 160) EmptyString)).
    split; [|reflexivity]. vm_compute. tauto.
  - unfold is_ws3 in Hc.
    repeat match goal with
           | H : _ || _ = true |- _ => apply orb_prop in H; destruct H as [H|H]
           | H : _ && _ = true |- _ => apply andb_prop in H; destruct H as [? H]
           | H : byte_is _ _ = true |- _ => apply byte_is_eq in H
           end; subst;
      try (pick_head; split; [|reflexivity]; vm_compute; tauto).
    repeat match goal with
           | H : N.leb _ _ = true |- _ => apply N.leb_le in H
           end.
    assert (Hcc : c = ascii_of_N (N_of_ascii c))
      by (symmetry; apply ascii_N_embedding).
    assert (Hn : (N_of_ascii c = 128 \/ N_of_ascii c = 129 \/ N_of_ascii c = 130
                 \/ N_of_ascii c = 131 \/ N_of_ascii c = 132 \/ N_of_ascii c = 133
                 \/ N_of_ascii c = 134 \/ N_of_ascii c = 135 \/ N_of_ascii c = 136
                 \/ N_of_ascii c = 137 \/ N_of_ascii c = 138)%N) by lia.
    repeat destruct Hn as [Hn|Hn]; rewrite Hn in Hcc; subst c;
      (pick_head; split; [|reflexivity]; vm_compute; tauto).
Qed.

(** [all_ws] holds of the concatenations of the listed code points and of
    nothing else. *)
Lemma all_ws_white_space (s : string) :
  all_ws s = true
  <-> exists ws : list string,
        Forall (fun w => In w white_space) ws
        /\ s = fold_right String.append EmptyString ws.
Proof.
  split.
  - pattern s. apply scan_ind; clear s.
    + intros s Hs Ha. destruct s as [|a s].
      * exists []. split; [constructor|reflexivity].
      * apply no_ws_head in Hs. destruct Hs as [_ Hs].
        rewrite Hs in Ha by discriminate. discriminate.
    + intros s t Ht IH Ha.
      destruct (ws_head_white_space s t Ht) as (w & Hw & Es).
      apply ws_head_step in Ht. destruct Ht as (_ & Ea & _).
      rewrite Ea in Ha. destruct (IH Ha) as (ws & Hws & Et).
      exists (w :: ws). split; [now constructor|].
      cbn [fold_right]. now rewrite <- Et.
  - intros (ws & Hws & ->). induction Hws as [|w ws Hw _ IH]; [reflexivity|].
    cbn [fold_right]. apply all_ws_app; [|exact IH].
    revert w Hw. apply Forall_forall.
    repeat constructor.
Qed.

(** C9.  A final transcription message appends nothing when its text is
    empty or all white space, and otherwise appends the text with the white
    space at both ends removed; in both cases the interim text becomes
    empty.  White space is what [String.prototype.trim] strips: the strings
    that are all white space are the concatenations of the 25 code points
    of [white_space], each of which is stripped at either end. *)
Theorem final_text_trimmed
        (txt : string) (now : Z) (h : Hook) :
  finalizedSegments (state (onMessage (Transcription (mkResponse txt true)) now h))
    = finalizedSegments (state h)
      ++ (if all_ws txt then [] else [trim txt])
  /\ interimText (state (onMessage (Transcription (mkResponse txt true)) now h))
     = EmptyString
  /\ (exists l r : string,
        txt = (l ++ trim txt ++ r)%string /\ all_ws l = true /\ all_ws r = true)
  /\ trimmed (trim txt)
  /\ (trim txt = EmptyString <-> all_ws txt = true)
  /\ (all_ws txt = true
      <-> exists ws : list string,
            Forall (fun w => In w white_space) ws
            /\ txt = fold_right String.append EmptyString ws)
  /\ length white_space = 25%nat
  /\ Forall (fun w => all_ws w = true
                      /\ trim (w ++ "hi" ++ w)%string = "hi"%string
                      /\ trim w = EmptyString)
            white_space.
Proof.
  destruct (trim_spec txt) as (Hsplit & Htrimmed & Htruthy).
  unfold onMessage, transcriptionUpdate. hook_simpl. cbn [is_final text].
  rewrite Htruthy.
  split; [|split; [reflexivity|split; [exact Hsplit|split; [exact Htrimmed|]]]].
  - destruct (all_ws txt); cbn [negb]; [now rewrite app_nil_r|reflexivity].
  - split; [|split; [apply all_ws_white_space
                    |split; [reflexivity|apply white_space_stripped]]].
    destruct (trim txt); destruct (all_ws txt); cbn in Htruthy;
      split; congruence.
Qed.

(** C7 (as amended).  A non-final message replaces the interim text and
    leaves the segments; a final message empties the interim text and
    appends its trimmed text when that is not empty.  After either, and in
    every state the hook can reach, the full transcript is the non-empty
    entries of the segments followed by the interim text, joined by single
    spaces.  From the initial state, a non-final [Hel] then a final [Hello]
    give the transcript [Hello]. *)
Theorem transcript_assembly
        (txt : string) (now : Z) (h : Hook)
        (o : Options) (events : list Event) :
  let interim := onMessage (Transcription (mkResponse txt false)) now h in
  let final := onMessage (Transcription (mkResponse txt true)) now h in
  let scenario :=
    onMessage (Transcription (mkResponse "Hello" true)) now
      (onMessage (Transcription (mkResponse "Hel" false)) now mount) in
  interimText (state interim) = txt
  /\ finalizedSegments (state interim) = finalizedSegments (state h)
  /\ fullTranscript (state interim)
     = String.concat " " (filter truthy (finalizedSegments (state interim)
                                         ++ [interimText (state interim)]))
  /\ interimText (state final) = EmptyString
  /\ finalizedSegments (state final)
     = finalizedSegments (state h)
       ++ (if truthy (trim txt) then [trim txt] else [])
  /\ fullTranscript (state final)
     = String.concat " " (filter truthy (finalizedSegments (state final)
                                         ++ [interimText (state final)]))
  /\ interimText (state (onMessage (Transcription (mkResponse "Hel" false))
                                   now mount)) = "Hel"%string
  /\ finalizedSegments (state scenario) = ["Hello"%string]
  /\ interimText (state scenario) = EmptyString
  /\ fullTranscript (state scenario) = "Hello"%string
  /\ transcript_consistent (state (run o events)).
Proof.
  cbv zeta. unfold onMessage, transcriptionUpdate. hook_simpl.
  cbn [is_final text].
  repeat match goal with |- _ /\ _ => split end; try reflexivity.
  - destruct (truthy (trim txt)); [reflexivity|now rewrite app_nil_r].
  - apply run_transcript_consistent.
Qed.

(** C7, counterexample to the claim as stated: a final message whose text is
    a single space appends no segment, and a final message whose text has
    whitespace around it appends a different string. *)
Lemma final_text_appended_counterexample :
  finalizedSegments
    (state (onMessage (Transcription (mkResponse " " true)) 0 mount))
    = []
  /\ finalizedSegments
       (state (onMessage (Transcription (mkResponse " " true)) 0 mount))
     <> finalizedSegments (state mount) ++ [" "%string]
  /\ finalizedSegments
       (state (onMessage (Transcription (mkResponse " hi " true)) 0 mount))
     = ["hi"%string]
  /\ finalizedSegments
       (state (onMessage (Transcription (mkResponse " hi " true)) 0 mount))
     <> finalizedSegments (state mount) ++ [" hi "%string].
Proof.
  vm_compute. repeat split; discriminate.
Qed.

End TransportFacts.

(* ================================================================== *)
(** ** Further properties of the engine *)

Module EngineFacts.
Import JS PCM PCMAux PCMFacts IEEE IEEEFacts PCM64Facts.

(** *** Chunks *)

Lemma audio_chunks_app (l1 l2 : list Msg) :
  audio_chunks (l1 ++ l2) = audio_chunks l1 ++ audio_chunks l2.
Proof.
  induction l1 as [|m t IH]; simpl; auto. destruct m; simpl; congruence.
Qed.

Lemma audio_samples_chunks (l : list Msg) :
  audio_samples l = concat (audio_chunks l).
Proof.
  induction l as [|m t IH]; simpl; auto. destruct m; simpl; congruence.
Qed.

Lemma concat_uniform_length {A : Type} (n : nat) (l : list (list A)) :
  Forall (fun d => length d = n) l ->
  length (concat l) = (n * length l)%nat.
Proof.
  induction 1 as [|d l Hd _ IH]; simpl; [lia|].
  rewrite length_app, IH, Hd. lia.
Qed.

(** A property of the processor that [addSample] keeps and that does not
    depend on the resample position holds after any frames. *)
Lemma feed_invariant (I : PCMProcessor -> Prop) :
  (forall s p, I p -> I (addSample s p)) ->
  (forall x p, I p -> I (set_resamplePosition x p)) ->
  forall fuel frames p p',
    I p -> feed fuel frames p = Some p' -> I p'.
Proof.
  intros Hadd Hpos fuel.
  assert (Hloop : forall input f p p',
             I p -> resample_loop f input p = Some p' -> I p').
  { intros input f. induction f as [|f IH]; intros p p' Hp Hrun;
      cbn [resample_loop] in Hrun; cbv zeta in Hrun;
      destruct (Qlt_le_dec (resamplePosition p)
                           (inject_Z (Z.of_nat (length input))));
      try discriminate; try (injection Hrun as <-; exact Hp).
    apply IH in Hrun; [exact Hrun|]. apply Hpos, Hadd, Hp. }
  assert (Hfold : forall xs p, I p ->
             I (fold_left (fun p s => addSample s p) xs p)).
  { induction xs as [|x xs IH]; intros p Hp; simpl; auto. }
  induction frames as [|fr frames IH]; intros p p' Hp Hrun; cbn [feed] in Hrun.
  - injection Hrun as <-. exact Hp.
  - unfold processWithDownsampling in Hrun.
    destruct (bypass (resampleRatio p)).
    + apply (IH _ _ (Hfold fr p Hp) Hrun).
    + destruct (resample_loop fuel fr p) as [p1|] eqn:E; [|discriminate].
      apply (IH (set_resamplePosition
                   (resamplePosition p1 - inject_Z (Z.of_nat (length fr))) p1));
        [|exact Hrun].
      apply Hpos. exact (Hloop _ _ _ _ Hp E).
Qed.

Lemma addSample_chunked (n : nat) (s : float) (p : PCMProcessor) :
  chunked n p -> chunked n (addSample s p).
Proof.
  intros (Hwf & Hn & Hall).
  destruct (addSample_spec s p Hwf) as (Hwf' & He & _ & _ & Hb).
  split; [exact Hwf'|]. split; [congruence|].
  destruct Hwf as [Hlen Hlt].
  unfold addSample. cbv zeta. pcm_simpl.
  match goal with
  | |- context [if Nat.leb (bufferSize ?q) _ then _ else _] => set (p3 := q)
  end.
  assert (H3 : bytesWritten p3 = S (bytesWritten p)
               /\ bufferSize p3 = bufferSize p
               /\ audio_chunks (port p3) = audio_chunks (port p)).
  { subst p3.
    destruct (Nat.leb (levelUpdateInterval p) (S (levelSampleCount p)));
      pcm_simpl; rewrite ?audio_chunks_app; cbn [audio_chunks];
      rewrite ?app_nil_r; repeat split; reflexivity. }
  clearbody p3. destruct H3 as (Hw & Hs & Ha).
  rewrite Hs, Hw.
  destruct (Nat.leb_spec (bufferSize p) (S (bytesWritten p))) as [Hfull|Hroom].
  - unfold flush. rewrite Hw. cbn [Nat.eqb]. pcm_simpl.
    rewrite audio_chunks_app, Ha. cbn [audio_chunks].
    apply Forall_app. split; [exact Hall|].
    constructor; [|constructor].
    rewrite length_map, length_seq. lia.
  - rewrite Ha. exact Hall.
Qed.

Lemma chunked_counts (n : nat) (p : PCMProcessor) :
  chunked n p ->
  length (audio_chunks (port p)) = (produced p / n)%nat
  /\ bytesWritten p = (produced p mod n)%nat.
Proof.
  intros ((Hlen & Hlt) & Hn & Hall). unfold produced.
  rewrite audio_samples_chunks, (concat_uniform_length n) by assumption.
  rewrite Hn in Hlt.
  split.
  - rewrite Nat.mul_comm, Nat.div_add_l by lia.
    rewrite Nat.div_small by lia. lia.
  - rewrite Nat.add_comm, Nat.mul_comm, Nat.Div0.mod_add.
    now rewrite Nat.mod_small by lia.
Qed.

Lemma constructor_chunked (obs : option nat) (ots : option Q) (sampleRate : Q) :
  chunked (bufferSize (constructor obs ots sampleRate))
          (constructor obs ots sampleRate).
Proof.
  destruct (constructor_spec obs ots sampleRate) as (Hwf & _ & _ & _ & Hport).
  split; [exact Hwf|]. split; [reflexivity|]. rewrite Hport. constructor.
Qed.

(** X1.  After any frames went through a freshly constructed processor,
    every audio chunk posted has exactly [bufferSize] samples, the number of
    chunks is the number of output samples divided by [bufferSize], and the
    accumulator holds the remainder. *)
Theorem chunks_are_full
        (obs : option nat) (ots : option Q) (sampleRate : Q)
        (fuel : nat) (frames : list (list float)) (p' : PCMProcessor) :
  feed fuel frames (constructor obs ots sampleRate) = Some p' ->
  bufferSize p' = match obs with Some (S n) => S n | _ => 4096%nat end
  /\ Forall (fun d => length d = bufferSize p') (audio_chunks (port p'))
  /\ length (audio_chunks (port p')) = (produced p' / bufferSize p')%nat
  /\ bytesWritten p' = (produced p' mod bufferSize p')%nat.
Proof.
  intros Hrun.
  set (n := bufferSize (constructor obs ots sampleRate)).
  assert (Hc : chunked n p').
  { apply (feed_invariant (chunked n)) with (fuel := fuel) (frames := frames)
                                            (p := constructor obs ots sampleRate).
    - intros s p. apply addSample_chunked.
    - intros x p (Hwf & Hn & Hall). repeat split; try apply Hwf; assumption.
    - apply constructor_chunked.
    - exact Hrun. }
  destruct (chunked_counts n p' Hc) as (Hcount & Hrest).
  destruct Hc as (_ & Hn & Hall). rewrite Hn.
  split; [|split; [exact Hall|split; assumption]].
  subst n. unfold constructor. pcm_simpl. destruct obs as [[|k]|]; reflexivity.
Qed.

(** X1, witness: 48 kHz to 16 kHz with a buffer of two samples, one frame of
    nine samples. *)
Lemma chunks_are_full_witness :
  exists p',
    feed 3 [[Fin 0; Fin 0; Fin 0; Fin 1; Fin 0; Fin 0; Fin (-1); Fin 0; Fin 0]]
         (constructor (Some 2%nat) (Some 16000%Q) 48000%Q) = Some p'
    /\ bufferSize p' = 2%nat
    /\ Forall (fun d => length d = bufferSize p') (audio_chunks (port p'))
    /\ length (audio_chunks (port p')) = (produced p' / bufferSize p')%nat
    /\ bytesWritten p' = (produced p' mod bufferSize p')%nat.
Proof.
  eexists. split; [vm_compute; reflexivity|].
  apply (chunks_are_full (Some 2%nat) (Some 16000%Q) 48000%Q 3
           [[Fin 0; Fin 0; Fin 0; Fin 1; Fin 0; Fin 0; Fin (-1); Fin 0; Fin 0]]).
  vm_compute. reflexivity.
Defined.

(** *** Pass-through *)




(** *** Quantization *)

Lemma clamp_Fin (a : Q) :
  exists c : Q,
    clamp (Fin a) = Fin c
    /\ ((a <= -1)%Q -> c == -1)
    /\ ((1 <= a)%Q -> c == 1)
    /\ ((-1 <= a)%Q -> (a <= 1)%Q -> c == a)
    /\ (-1 <= c)%Q /\ (c <= 1)%Q.
Proof.
  unfold clamp, Math_min, Math_max, flt.
  destruct (Qlt_le_dec a 1) as [H1|H1].
  - destruct (Qlt_le_dec (-1) a) as [H2|H2].
    + exists a. repeat split; intros; try reflexivity; lra.
    + exists (-1)%Q. repeat split; intros; try reflexivity; lra.
  - destruct (Qlt_le_dec (-1) 1) as [H2|H2]; [|lra].
    exists 1%Q. repeat split; intros; try reflexivity; lra.
Qed.

Lemma Qtrunc_mono (x y : Q) : (x <= y)%Q -> Qtrunc x <= Qtrunc y.
Proof.
  intros Hxy. unfold Qtrunc.
  destruct (Qlt_le_dec x 0) as [Hx|Hx]; destruct (Qlt_le_dec y 0) as [Hy|Hy].
  - now apply Qceiling_resp_le.
  - assert (H1 : Qceiling x <= Qceiling 0) by (apply Qceiling_resp_le; lra).
    assert (H2 : Qfloor 0 <= Qfloor y) by (apply Qfloor_resp_le; lra).
    change (Qceiling 0) with 0 in H1. change (Qfloor 0) with 0 in H2. lia.
  - lra.
  - now apply Qfloor_resp_le.
Qed.




(** *** What the engine posts, in the code's arithmetic *)

Lemma pending_store64 (p : PCMProcessor) (v : float) :
  (bytesWritten p < length (buffer p))%nat ->
  map (fun i => PCM64.quantize
                  (get (set (buffer p) (bytesWritten p) v) (Z.of_nat i)))
      (seq 0 (S (bytesWritten p)))
  = PCM64.pending p ++ [PCM64.quantize v].
Proof.
  intros Hlt. unfold PCM64.pending. rewrite seq_S, map_app. simpl.
  rewrite get_set_same by assumption. f_equal.
  apply map_ext_in. intros i Hi. apply in_seq in Hi.
  rewrite get_set_other by lia. reflexivity.
Qed.

Lemma flush_emitted64 (p : PCMProcessor) :
  PCM64.emitted (PCM64.flush p) = PCM64.emitted p.
Proof.
  unfold PCM64.flush, PCM64.emitted.
  destruct (Nat.eqb_spec (bytesWritten p) 0) as [H0|Hn]; [reflexivity|].
  pcm_simpl. unfold PCM64.pending at 1. pcm_simpl. cbn [seq map].
  rewrite audio_samples_app. cbn [audio_samples]. rewrite !app_nil_r.
  reflexivity.
Qed.

Lemma addSample_emitted64 (s : float) (p : PCMProcessor) :
  wf p ->
  PCM64.emitted (PCM64.addSample s p) = PCM64.emitted p ++ [PCM64.posted s].
Proof.
  intros [Hlen Hlt].
  pose proof (pending_store64 p (fround (clamp s))) as Hst.
  rewrite Hlen in Hst. specialize (Hst Hlt).
  unfold PCM64.addSample. cbv zeta. pcm_simpl.
  match goal with
  | |- context [if Nat.leb (bufferSize ?q) _ then _ else _] => set (p3 := q)
  end.
  assert (H3 : buffer p3
               = set (buffer p) (bytesWritten p) (fround (clamp s))
               /\ bytesWritten p3 = S (bytesWritten p)
               /\ audio_samples (port p3) = audio_samples (port p)).
  { subst p3.
    destruct (Nat.leb (levelUpdateInterval p) (S (levelSampleCount p)));
      pcm_simpl; rewrite ?audio_samples_app; cbn [audio_samples];
      rewrite ?app_nil_r; repeat split; reflexivity. }
  clearbody p3. destruct H3 as (Hb & Hw & Ha).
  assert (He : PCM64.emitted p3 = PCM64.emitted p ++ [PCM64.posted s]).
  { unfold PCM64.emitted, PCM64.pending at 1. rewrite Hb, Hw, Ha, Hst.
    now rewrite app_assoc. }
  destruct (Nat.leb (bufferSize p3) (bytesWritten p3));
    [rewrite flush_emitted64|]; exact He.
Qed.

Lemma fold_addSample_emitted64 (xs : list float) (p : PCMProcessor) :
  wf p ->
  PCM64.emitted (fold_left (fun p s => PCM64.addSample s p) xs p)
  = PCM64.emitted p ++ map PCM64.posted xs.
Proof.
  revert p. induction xs as [|x xs IH]; intros p Hwf; cbn [fold_left map].
  - now rewrite app_nil_r.
  - destruct (addSample_count x p Hwf) as (Hwf1 & _).
    rewrite (IH _ Hwf1), (addSample_emitted64 x p Hwf), <- app_assoc.
    reflexivity.
Qed.

Lemma stop_emitted64 (p : PCMProcessor) :
  audio_samples (port (PCM64.stop p)) = PCM64.emitted p.
Proof.
  unfold PCM64.stop, PCM64.flush, PCM64.emitted, PCM64.pending.
  destruct (bytesWritten p) as [|n] eqn:E; cbn [Nat.ltb Nat.leb Nat.eqb].
  - pcm_simpl. rewrite audio_samples_app. cbn [audio_samples seq map].
    reflexivity.
  - pcm_simpl. rewrite !audio_samples_app. cbn [audio_samples].
    rewrite !app_nil_r. reflexivity.
Qed.

Lemma constructor_emitted64 (obs : option nat) (ots : option Q) (sampleRate : Q) :
  PCM64.emitted (PCM64.constructor obs ots sampleRate) = [].
Proof. reflexivity. Qed.

(** *** Single-precision store and double-precision scaling *)

(** A clamped sample is stored as the nearest single-precision number, which
    is still in [-1, 1] and within [2^-24] of the sample. *)
Lemma fround_clamped (c : Q) :
  (-1 <= c)%Q -> (c <= 1)%Q ->
  fround (Fin c) = Fin (round 24 (-149) c)
  /\ (-1 <= round 24 (-149) c)%Q /\ (round 24 (-149) c <= 1)%Q
  /\ (c - (1 # 16777216) <= round 24 (-149) c)%Q
  /\ (round 24 (-149) c <= c + (1 # 16777216))%Q.
Proof.
  intros Hlo Hhi.
  assert (Ha : (Qabs c <= pow2 0)%Q)
    by (change (pow2 0) with 1%Q; apply Qabs_Qle_condition; split; lra).
  pose proof (round_bound 24 (-149) ltac:(lia) 0 c ltac:(lia) Ha) as Hb.
  pose proof (round_error 24 (-149) 0 c ltac:(lia) Ha) as He.
  change (pow2 0) with 1%Q in Hb.
  change (pow2 (0 - 24)) with (1 # 16777216)%Q in He.
  apply Qabs_Qle_condition in Hb. apply Qabs_Qle_condition in He.
  split; [|repeat split; lra].
  unfold fround, binary. cbv zeta.
  destruct (Qle_bool (pow2 128) (Qabs (round 24 (-149) c))) eqn:E;
    [|reflexivity].
  apply Qle_bool_iff in E. exfalso.
  assert (H1 : (pow2 0 < pow2 128)%Q) by (apply pow2_lt; lia).
  change (pow2 0) with 1%Q in H1.
  revert E. apply Qabs_case; intros; lra.
Qed.

Lemma double_small (y : Q) :
  (-32768 <= y)%Q -> (y <= 32768)%Q ->
  double (Fin y) = Fin (dbl y)
  /\ (y - (1 # 1024) <= dbl y)%Q /\ (dbl y <= y + (1 # 1024))%Q.
Proof.
  intros Hlo Hhi.
  assert (P15 : (pow2 15 == 32768)%Q) by reflexivity.
  destruct (dbl_error 15 y ltac:(lia)) as [E1 E2]; [lra|lra|].
  assert (Pe : (pow2 (15 - 53) <= 1 # 1024)%Q) by (vm_compute; discriminate).
  assert (Ha : (Qabs y <= pow2 15)%Q)
    by (apply Qabs_Qle_condition; split; lra).
  pose proof (round_bound 53 (-1074) ltac:(lia) 15 y ltac:(lia) Ha) as Hb.
  fold (dbl y) in Hb. apply Qabs_Qle_condition in Hb.
  split; [|split; lra].
  unfold double, binary. cbv zeta. fold (dbl y).
  destruct (Qle_bool (pow2 1024) (Qabs (dbl y))) eqn:E; [|reflexivity].
  apply Qle_bool_iff in E. exfalso.
  assert (H1 : (pow2 15 < pow2 1024)%Q) by (apply pow2_lt; lia).
  revert E. apply Qabs_case; intros; lra.
Qed.

Lemma dbl_mono (x y : Q) : (x <= y)%Q -> (dbl x <= dbl y)%Q.
Proof. apply round_mono. lia. Qed.

(** The conversion of a stored sample [s] in [-1, 1] by [flush]: the
    truncation of the rounded product, which needs no wrap-around. *)
Lemma quantize_stored (s : Q) :
  (-1 <= s)%Q -> (s <= 1)%Q ->
  PCM64.quantize (Fin s)
  = Qtrunc (dbl (if Qlt_le_dec s 0 then s * 32768 else s * 32767))
  /\ -32768 <= PCM64.quantize (Fin s) <= 32767
  /\ ((s < 0)%Q -> PCM64.quantize (Fin s) <= 0)
  /\ ((0 <= s)%Q -> 0 <= PCM64.quantize (Fin s)).
Proof.
  intros Hlo Hhi. unfold PCM64.quantize, PCM64.scale, flt, fmul64, fmul.
  destruct (Qlt_le_dec s 0) as [Hn|Hp].
  - destruct (double_small (s * 32768)) as (Ed & _); [lra|lra|].
    rewrite Ed. unfold ToInt16.
    pose proof (dbl_mono (-32768) (s * 32768) ltac:(lra)) as M1.
    pose proof (dbl_mono (s * 32768) 0 ltac:(lra)) as M2.
    change (dbl (-32768)) with (-32768)%Q in M1.
    change (dbl 0) with 0%Q in M2.
    pose proof (Qtrunc_mono _ _ M1) as T1. pose proof (Qtrunc_mono _ _ M2) as T2.
    change (Qtrunc (-32768)) with (-32768) in T1.
    change (Qtrunc 0) with 0 in T2.
    rewrite wrap16_id by lia.
    split; [reflexivity|]. split; [lia|]. split; intros; [lia|lra].
  - destruct (double_small (s * 32767)) as (Ed & _); [lra|lra|].
    rewrite Ed. unfold ToInt16.
    pose proof (dbl_mono 0 (s * 32767) ltac:(lra)) as M1.
    pose proof (dbl_mono (s * 32767) 32767 ltac:(lra)) as M2.
    change (dbl 0) with 0%Q in M1.
    change (dbl 32767) with 32767%Q in M2.
    pose proof (Qtrunc_mono _ _ M1) as T1. pose proof (Qtrunc_mono _ _ M2) as T2.
    change (Qtrunc 32767) with 32767 in T2.
    change (Qtrunc 0) with 0 in T1.
    rewrite wrap16_id by lia.
    split; [reflexivity|]. split; [lia|]. split; intros; [lra|lia].
Qed.

Lemma quantize_stored_mono (s1 s2 : Q) :
  (-1 <= s1)%Q -> (s1 <= s2)%Q -> (s2 <= 1)%Q ->
  PCM64.quantize (Fin s1) <= PCM64.quantize (Fin s2).
Proof.
  intros H1 H12 H2.
  destruct (quantize_stored s1) as (E1 & _ & N1 & P1); [lra|lra|].
  destruct (quantize_stored s2) as (E2 & _ & N2 & P2); [lra|lra|].
  destruct (Qlt_le_dec s1 0) as [A1|A1]; destruct (Qlt_le_dec s2 0) as [A2|A2].
  - rewrite E1, E2. apply Qtrunc_mono, dbl_mono. lra.
  - specialize (N1 A1). specialize (P2 A2). lia.
  - lra.
  - rewrite E1, E2. apply Qtrunc_mono, dbl_mono. lra.
Qed.

(** The posted value of a finite sample, through the clamp, the store and
    the conversion. *)
Lemma posted_Fin (a : Q) :
  exists c s : Q,
    clamp (Fin a) = Fin c
    /\ ((a <= -1)%Q -> c == -1) /\ ((1 <= a)%Q -> c == 1)
    /\ ((-1 <= a)%Q -> (a <= 1)%Q -> c == a)
    /\ (-1 <= c)%Q /\ (c <= 1)%Q
    /\ s = round 24 (-149) c
    /\ (-1 <= s)%Q /\ (s <= 1)%Q
    /\ (c - (1 # 16777216) <= s)%Q /\ (s <= c + (1 # 16777216))%Q
    /\ PCM64.posted (Fin a) = PCM64.quantize (Fin s).
Proof.
  destruct (clamp_Fin a) as (c & Ec & Clo & Chi & Cmid & C1 & C2).
  destruct (fround_clamped c C1 C2) as (Ef & S1 & S2 & S3 & S4).
  exists c, (round 24 (-149) c).
  unfold PCM64.posted. rewrite Ec, Ef.
  repeat split; assumption.
Qed.

Lemma posted_mono (a b : Q) :
  (a <= b)%Q -> PCM64.posted (Fin a) <= PCM64.posted (Fin b).
Proof.
  intros Hab.
  destruct (posted_Fin a)
    as (ca & sa & _ & Alo & Ahi & Amid & A1 & A2 & Esa & SA1 & SA2 & _ & _ & Pa).
  destruct (posted_Fin b)
    as (cb & sb & _ & Blo & Bhi & Bmid & B1 & B2 & Esb & SB1 & SB2 & _ & _ & Pb).
  rewrite Pa, Pb. apply quantize_stored_mono; try assumption.
  subst sa sb. apply round_mono; [lia|].
  destruct (Qlt_le_dec a (-1)); destruct (Qlt_le_dec 1 a);
  destruct (Qlt_le_dec b (-1)); destruct (Qlt_le_dec 1 b);
    try lra;
    repeat match goal with
           | H : (?x <= -1)%Q -> _ |- _ =>
               first [specialize (H ltac:(lra)) | clear H]
           | H : (1 <= ?x)%Q -> _ |- _ =>
               first [specialize (H ltac:(lra)) | clear H]
           | H : (-1 <= ?x)%Q -> (?x <= 1)%Q -> _ |- _ =>
               first [specialize (H ltac:(lra) ltac:(lra)) | clear H]
           end; lra.
Qed.

(** X3.  The conversion of a sample to Int16 as the code computes it: the
    clamp of [addSample], the store into the [Float32Array], then the
    scaling in double precision and the truncation of [flush].  The values
    posted after feeding samples and stopping are the conversions of the
    samples, in order.  The conversion is monotone; it saturates at -32768
    for samples at or below -1 (and minus infinity) and at 32767 for samples
    at or above 1 (and plus infinity), maps 0 and NaN to 0, and stays in the
    16-bit range; within [-1, 1] it differs from the scaled sample by less
    than [1 + 1/256].  It is not a truncation toward zero of the scaled
    sample: -20479999/2^25 is stored as -0.6103515625 and posted as -20000,
    below the scaled sample. *)
Theorem quantization_monotone_saturating
        (a b : Q) (xs : list float) (obs : option nat) (ots : option Q)
        (sampleRate : Q) :
  (a <= b)%Q ->
  audio_samples
    (port (PCM64.stop (fold_left (fun p s => PCM64.addSample s p) xs
                                 (PCM64.constructor obs ots sampleRate))))
    = map PCM64.posted xs
  /\ PCM64.posted (Fin a) <= PCM64.posted (Fin b)
  /\ ((a <= -1)%Q -> PCM64.posted (Fin a) = -32768)
  /\ ((1 <= a)%Q -> PCM64.posted (Fin a) = 32767)
  /\ PCM64.posted (Inf true) = -32768
  /\ PCM64.posted (Inf false) = 32767
  /\ PCM64.posted NaN = 0
  /\ (a == 0 -> PCM64.posted (Fin a) = 0)
  /\ -32768 <= PCM64.posted (Fin a) <= 32767
  /\ ((0 <= a)%Q -> (a <= 1)%Q ->
      (a * 32767 - (1 + (1 # 256)) < inject_Z (PCM64.posted (Fin a)))%Q
      /\ (inject_Z (PCM64.posted (Fin a)) <= a * 32767 + (1 # 256))%Q)
  /\ ((-1 <= a)%Q -> (a < 0)%Q ->
      (a * 32768 - (1 # 256) <= inject_Z (PCM64.posted (Fin a)))%Q
      /\ (inject_Z (PCM64.posted (Fin a)) < a * 32768 + (1 + (1 # 256)))%Q)
  /\ (fround (clamp (Fin (-20479999 # 33554432))) = Fin (-625 # 1024)
      /\ PCM64.posted (Fin (-20479999 # 33554432)) = -20000
      /\ (-20000 < (-20479999 # 33554432) * 32768)%Q).
Proof.
  intros Hab.
  destruct (posted_Fin a)
    as (c & s & Ec & Clo & Chi & Cmid & C1 & C2 & Es & S1 & S2 & S3 & S4 & Pa).
  destruct (quantize_stored s S1 S2) as (Eq & Hrange & _ & _).
  destruct (constructor_count obs ots sampleRate) as (Hwf & _).
  split.
  { rewrite stop_emitted64, (fold_addSample_emitted64 xs _ Hwf),
      constructor_emitted64. reflexivity. }
  split; [now apply posted_mono|].
  split.
  { intros H. rewrite Pa, Es, (round_comp 24 (-149) c (-1)) by auto.
    vm_compute. reflexivity. }
  split.
  { intros H. rewrite Pa, Es, (round_comp 24 (-149) c 1) by auto.
    vm_compute. reflexivity. }
  split; [vm_compute; reflexivity|].
  split; [vm_compute; reflexivity|].
  split; [vm_compute; reflexivity|].
  split.
  { intros H.
    rewrite Pa, Es, (round_comp 24 (-149) c 0)
      by (rewrite Cmid; lra).
    vm_compute. reflexivity. }
  split; [rewrite Pa; exact Hrange|].
  split; [|split].
  - intros H0 H1. specialize (Cmid ltac:(lra) H1). rewrite Pa, Eq.
    destruct (Qlt_le_dec s 0) as [Hn|Hp].
    + (* the stored value cannot be negative *)
      exfalso.
      pose proof (round_nonneg 24 (-149) c ltac:(lra)) as Hs.
      rewrite <- Es in Hs. lra.
    + destruct (double_small (s * 32767)) as (_ & D1 & D2); [lra|lra|].
      pose proof (dbl_mono 0 (s * 32767) ltac:(lra)) as M.
      change (dbl 0) with 0%Q in M.
      unfold Qtrunc. destruct (Qlt_le_dec (dbl (s * 32767)) 0); [lra|].
      pose proof (Qfloor_le (dbl (s * 32767))) as F1.
      pose proof (Qlt_floor (dbl (s * 32767))) as F2.
      rewrite inject_Z_plus in F2. change (inject_Z 1) with 1%Q in F2.
      split; lra.
  - intros H0 H1. specialize (Cmid H0 ltac:(lra)). rewrite Pa, Eq.
    destruct (Qlt_le_dec s 0) as [Hn|Hp].
    + destruct (double_small (s * 32768)) as (_ & D1 & D2); [lra|lra|].
      pose proof (dbl_mono (s * 32768) 0 ltac:(lra)) as M.
      change (dbl 0) with 0%Q in M.
      set (y := dbl (s * 32768)) in *.
      pose proof (Qtrunc_mono y 0 M) as T0. change (Qtrunc 0) with 0 in T0.
      unfold Qtrunc in *. destruct (Qlt_le_dec y 0) as [Y|Y].
      * pose proof (Qle_ceiling y) as F1. pose proof (Qceiling_lt y) as F2.
        assert (F3 : (inject_Z (Qceiling y) - 1 < y)%Q).
        { assert (E : inject_Z (Qceiling y)
                      == inject_Z (Qceiling y - 1) + 1).
          { rewrite <- (inject_Z_plus _ 1). apply inject_Z_injective. lia. }
          lra. }
        split; lra.
      * pose proof (Qfloor_resp_le 0 y Y) as F1. change (Qfloor 0) with 0 in F1.
        replace (Qfloor y) with 0 by lia.
        change (inject_Z 0) with 0%Q. split; lra.
    + (* the stored value is zero: the sample is within 2^-24 of zero *)
      assert (Hs0 : (s <= 0)%Q).
      { pose proof (round_nonpos 24 (-149) c ltac:(lra)) as Hs.
        rewrite <- Es in Hs. exact Hs. }
      assert (E0 : (s * 32767 == 0)%Q) by lra.
      unfold dbl. rewrite (round_comp 53 (-1074) _ _ E0).
      change (Qtrunc (round 53 (-1074) 0)) with 0.
      change (inject_Z 0) with 0%Q. split; lra.
  - split; [vm_compute; reflexivity|]. split; [vm_compute; reflexivity|].
    vm_compute. reflexivity.
Qed.

Lemma quantization_monotone_saturating_witness :
  audio_samples
    (port (PCM64.stop
             (fold_left (fun p s => PCM64.addSample s p)
                        [Fin (-3#2); Fin (1#3); Fin (-20479999 # 33554432)]
                        (PCM64.constructor (Some 2%nat) None 48000))))
    = [-32768; 10922; -20000]
  /\ PCM64.posted (Fin (-3#2)) <= PCM64.posted (Fin (1#3)).
Proof.
  destruct (quantization_monotone_saturating (-3#2) (1#3)
              [Fin (-3#2); Fin (1#3); Fin (-20479999 # 33554432)]
              (Some 2%nat) None 48000) as (H1 & H2 & _).
  - vm_compute. discriminate.
  - split; [rewrite H1; vm_compute; reflexivity|exact H2].
Defined.

(** *** The level window *)









(** *** Every call returns, in the code's arithmetic *)

Lemma stop_fields64 (p : PCMProcessor) :
  bytesWritten (PCM64.stop p) = 0%nat
  /\ buffer (PCM64.stop p) = buffer p
  /\ bufferSize (PCM64.stop p) = bufferSize p
  /\ resampleRatio (PCM64.stop p) = resampleRatio p
  /\ resamplePosition (PCM64.stop p) = resamplePosition p
  /\ inputSampleRate (PCM64.stop p) = inputSampleRate p.
Proof.
  unfold PCM64.stop, PCM64.flush.
  destruct (bytesWritten p) as [|n] eqn:E; cbn [Nat.ltb Nat.leb Nat.eqb];
    pcm_simpl; repeat split; assumption || reflexivity.
Qed.

Lemma handleMessage_steady64 (k : Z) (L : nat) (c : Command) (p : PCMProcessor) :
  PCM64.steady k L p ->
  PCM64.keeps_steady k L (inputSampleRate p) (InMessage c) ->
  PCM64.steady k L (PCM64.handleMessage c p)
  /\ inputSampleRate (PCM64.handleMessage c p) = inputSampleRate p.
Proof.
  intros ((Hlen & Hlt) & H0 & Hr) Hk.
  destruct c as [|bs ts|]; cbn [PCM64.handleMessage].
  - destruct (stop_fields64 p) as (A & B & C & D & E & F).
    unfold PCM64.steady, wf. rewrite A, B, C, D, E, F.
    split; [split; [split; [assumption|lia]|split; assumption]|reflexivity].
  - cbn [PCM64.keeps_steady] in Hk.
    assert (Hwf1 : forall q,
               q = match bs with
                   | Some (S n) =>
                       set_buffer (repeat (Fin 0) (S n)) 0
                                  (set_bufferSize (S n) p)
                   | _ => p
                   end ->
               wf q /\ resamplePosition q = resamplePosition p
               /\ resampleRatio q = resampleRatio p
               /\ inputSampleRate q = inputSampleRate p).
    { intros q ->. destruct bs as [[|n]|]; unfold wf; pcm_simpl;
        rewrite ?repeat_length; repeat split; try assumption; lia. }
    match goal with
    | |- context [match ts with Some _ => _ | None => ?q end] =>
        destruct (Hwf1 q eq_refl) as (W & P & R & I); set (p1 := q) in *
    end.
    clearbody p1. clear Hwf1.
    destruct ts as [t|].
    + destruct (Qlt_le_dec 0 t) as [Ht|Ht].
      * specialize (Hk Ht). unfold PCM64.steady, wf in *. pcm_simpl.
        rewrite I, P.
        split; [split; [exact W|split; [assumption|exact Hk]]|reflexivity].
      * unfold PCM64.steady. rewrite P, R, I. auto.
    + unfold PCM64.steady. rewrite P, R, I. auto.
  - unfold PCM64.steady, wf. auto.
Qed.

Lemma pow2_double (k : Z) : (pow2 (k - 52) == 2 * pow2 (k - 53))%Q.
Proof.
  replace (k - 52) with (k - 53 + 1) by lia. apply pow2_S.
Qed.

Lemma processWithDownsampling_steady64
      (k : Z) (L : nat) (inputData : list float) (p : PCMProcessor) :
  -1022 <= k ->
  PCM64.steady k L p ->
  (length inputData <= L)%nat ->
  exists (m : nat) (p' : PCMProcessor),
    (forall fuel, (m <= fuel)%nat ->
       PCM64.processWithDownsampling fuel inputData p = Some p')
    /\ PCM64.steady k L p'
    /\ inputSampleRate p' = inputSampleRate p.
Proof.
  intros Hk (Hwf & H0 & Hlo & Hhi) HL.
  unfold PCM64.processWithDownsampling.
  destruct (PCM64.bypass (resampleRatio p)) eqn:Hby.
  - exists 0%nat. eexists. split; [reflexivity|].
    destruct (fold_addSample_count inputData p Hwf) as (W & _ & R & P & I).
    unfold PCM64.steady, PCM64.usable_step. rewrite R, P, I. auto.
  - pose proof (pow2_pos (k - 53)) as He0.
    pose proof (pow2_double k) as E2.
    assert (Hn : (inject_Z (Z.of_nat (length inputData))
                  <= inject_Z (Z.of_nat L))%Q) by (rewrite <- Zle_Qle; lia).
    destruct (enough_steps (inject_Z (Z.of_nat (length inputData))
                            - resamplePosition p)
                           (resampleRatio p - pow2 (k - 53)))
      as [m Hm]; [lra|].
    destruct (resample_loop_count inputData k (resampleRatio p) m Hk
                ltac:(lra) ltac:(lra) p Hwf eq_refl H0 Hm)
      as (j & p1 & Hrun & Hwf1 & _ & Hr1 & Hi1 & _ & Hend & _).
    exists m. eexists. split.
    { intros fuel Hfuel. rewrite (Hrun fuel Hfuel). reflexivity. }
    unfold PCM64.steady, PCM64.usable_step, wf in *. pcm_simpl.
    rewrite Hr1. repeat split; try apply Hwf1; try assumption.
    apply dbl_nonneg. lra.
Qed.

Lemma engine_step_steady64 (k : Z) (L : nat) (i : Input) (p : PCMProcessor) :
  -1022 <= k ->
  PCM64.steady k L p ->
  PCM64.keeps_steady k L (inputSampleRate p) i ->
  exists (m : nat) (p' : PCMProcessor),
    (forall fuel, (m <= fuel)%nat -> PCM64.engine_step fuel p i = Some p')
    /\ PCM64.steady k L p'
    /\ inputSampleRate p' = inputSampleRate p.
Proof.
  intros Hk Hs Hi. destruct i as [c|inputs]; cbn [PCM64.engine_step].
  - exists 0%nat. eexists. split; [reflexivity|].
    now apply handleMessage_steady64.
  - unfold PCM64.process. destruct (negb (isRunning p)).
    { exists 0%nat, p. auto. }
    destruct inputs as [|[|[|x ch] chs] rest];
      try solve [exists 0%nat, p; auto].
    cbn [PCM64.keeps_steady] in Hi.
    destruct (processWithDownsampling_steady64 k L (x :: ch) p Hk Hs Hi)
      as (m & p' & Hrun & Hs' & Hin').
    exists m, p'. split; [|auto].
    intros fuel Hfuel. now rewrite (Hrun fuel Hfuel).
Qed.

(** X5.  A processor in working order, in the code's arithmetic: frames of
    at most [L] samples, a step of at least [2^(k-52)] with [L] plus the
    step at most [2^k].  Whatever messages and render quanta reach it (a
    [config] message with a positive target rate giving a usable step
    again), every call returns, given enough iterations of the resampling
    loop, and between two calls the accumulator has its configured size
    and is not full: the write cursor is below [bufferSize]. *)
Theorem accumulator_never_overflows
        (k : Z) (L : nat) (ins : list Input) (p : PCMProcessor) :
  -1022 <= k ->
  PCM64.steady k L p ->
  Forall (PCM64.keeps_steady k L (inputSampleRate p)) ins ->
  exists (fuel0 : nat) (p' : PCMProcessor),
    (forall fuel : nat, (fuel0 <= fuel)%nat ->
       PCM64.engine_run fuel ins p = Some p')
    /\ length (buffer p') = bufferSize p'
    /\ (bytesWritten p' < bufferSize p')%nat
    /\ PCM64.steady k L p'.
Proof.
  intros Hk. revert p. induction ins as [|i ins IH]; intros p Hs Hi.
  - exists 0%nat, p. split; [reflexivity|].
    pose proof Hs as ([A B] & _). auto.
  - inversion Hi as [|? ? Hi1 Hins]; subst.
    destruct (engine_step_steady64 k L i p Hk Hs Hi1)
      as (m & p1 & E1 & Hs1 & Hin1).
    rewrite <- Hin1 in Hins.
    destruct (IH p1 Hs1 Hins) as (f2 & p' & E2 & Hres).
    exists (Nat.max m f2), p'. split; [|exact Hres].
    intros fuel Hfuel. cbn [PCM64.engine_run].
    rewrite (E1 fuel) by lia. apply E2. lia.
Qed.

Lemma accumulator_never_overflows_witness :
  let p := PCM64.constructor (Some 2%nat) (Some 16000%Q) 44100%Q in
  let ins := [InProcess [[[Fin 1; Fin 0; Fin (1 # 2); Fin 0; Fin 0; Fin 0; Fin 0]]];
              InMessage (CmdConfig (Some 3%nat) (Some 8000%Q));
              InProcess [[[Fin 1; Fin 0; Fin (1 # 2); Fin 0; Fin 0; Fin 0; Fin 0]]];
              InMessage CmdStop] in
  PCM64.steady 8 128 p
  /\ Forall (PCM64.keeps_steady 8 128 (inputSampleRate p)) ins
  /\ exists (fuel0 : nat) (p' : PCMProcessor),
       (forall fuel : nat, (fuel0 <= fuel)%nat ->
          PCM64.engine_run fuel ins p = Some p')
       /\ length (buffer p') = bufferSize p'
       /\ (bytesWritten p' < bufferSize p')%nat
       /\ PCM64.steady 8 128 p'.
Proof.
  intros p ins.
  assert (Hs : PCM64.steady 8 128 p).
  { unfold PCM64.steady, PCM64.usable_step, wf. vm_compute.
    repeat split; try lia; discriminate. }
  assert (Hi : Forall (PCM64.keeps_steady 8 128 (inputSampleRate p)) ins).
  { apply Forall_cons; [cbn [PCM64.keeps_steady length]; lia|].
    apply Forall_cons;
      [cbn [PCM64.keeps_steady]; intros _; vm_compute; split; discriminate|].
    apply Forall_cons; [cbn [PCM64.keeps_steady length]; lia|].
    apply Forall_cons; [exact I|apply Forall_nil]. }
  split; [exact Hs|]. split; [exact Hi|].
  apply (accumulator_never_overflows 8 128 ins p); [lia|exact Hs|exact Hi].
Defined.

(** *** Messages from the main thread *)

(** X6.  A [config] message with a positive buffer size replaces the
    accumulator by an empty one of that size without posting what it held:
    those samples are never output, not even by a later [stop].  A missing
    or zero buffer size and a missing or non-positive target rate leave the
    processor as it is; a positive target rate [t] sets the ratio to
    [inputSampleRate / t] and keeps the resample position. *)
Theorem config_discards_partial_chunk
        (p : PCMProcessor) (n : nat) (t : Q) :
  port (handleMessage (CmdConfig (Some (S n)) None) p) = port p
  /\ bytesWritten (handleMessage (CmdConfig (Some (S n)) None) p) = 0%nat
  /\ bufferSize (handleMessage (CmdConfig (Some (S n)) None) p) = S n
  /\ audio_samples
       (port (stop (handleMessage (CmdConfig (Some (S n)) None) p)))
     = audio_samples (port p)
  /\ handleMessage (CmdConfig None None) p = p
  /\ handleMessage (CmdConfig (Some 0%nat) None) p = p
  /\ ((t <= 0)%Q -> handleMessage (CmdConfig None (Some t)) p = p)
  /\ ((0 < t)%Q ->
      resampleRatio (handleMessage (CmdConfig None (Some t)) p)
        = (inputSampleRate p / t)%Q
      /\ targetSampleRate (handleMessage (CmdConfig None (Some t)) p) = t
      /\ resamplePosition (handleMessage (CmdConfig None (Some t)) p)
         = resamplePosition p
      /\ bytesWritten (handleMessage (CmdConfig None (Some t)) p)
         = bytesWritten p).
Proof.
  repeat match goal with |- _ /\ _ => split end;
    cbn [handleMessage]; pcm_simpl; try reflexivity.
  - rewrite stop_emitted. unfold emitted, pending. pcm_simpl.
    cbn [seq map]. now rewrite app_nil_r.
  - intros Ht. destruct (Qlt_le_dec 0 t); [lra|reflexivity].
  - intros Ht. destruct (Qlt_le_dec 0 t); [|lra]. pcm_simpl.
    repeat split; reflexivity.
Qed.

(** *** A ratio that is not positive *)

Lemma resample_loop_diverges (inputData : list float) (fuel : nat) :
  forall p,
    wf p ->
    (resampleRatio p <= 0)%Q ->
    (resamplePosition p < inject_Z (Z.of_nat (length inputData)))%Q ->
    resample_loop fuel inputData p = None.
Proof.
  induction fuel as [|fuel IH]; intros p Hwf Hr Hpos;
    cbn [resample_loop]; cbv zeta;
    destruct (Qlt_le_dec (resamplePosition p)
                         (inject_Z (Z.of_nat (length inputData)))) as [Hlt|Hge];
    try reflexivity; try lra.
  match goal with
  | |- context [addSample ?s p] => set (x := s) in *
  end.
  destruct (addSample_spec x p Hwf) as (Hwf1 & _ & Hr1 & Hp1 & _).
  apply IH.
  - destruct Hwf1. split; assumption.
  - pcm_simpl. now rewrite Hr1.
  - pcm_simpl. rewrite Hr1, Hp1. lra.
Qed.

(** X7.  The constructor keeps a negative [targetSampleRate] option (only a
    missing or zero one takes the default), which makes the ratio negative:
    on the first frame that is not empty the resampling loop then never
    ends, whatever the number of iterations allowed.  The [config] message
    does not have this problem, since it ignores a rate that is not
    positive. *)
Theorem negative_target_rate_never_returns
        (obs : option nat) (T R : Q) (x : float) (frame : list float)
        (fuel : nat) :
  (T < 0)%Q -> (0 < R)%Q ->
  processWithDownsampling fuel (x :: frame) (constructor obs (Some T) R) = None
  /\ process fuel [[x :: frame]] (constructor obs (Some T) R) = None
  /\ forall p, handleMessage (CmdConfig None (Some T)) p = p.
Proof.
  intros HT HR.
  destruct (constructor_spec obs (Some T) R) as (Hwf & _ & Hpos & _).
  assert (Hratio : resampleRatio (constructor obs (Some T) R) = (R / T)%Q).
  { unfold constructor. pcm_simpl. unfold Qzero.
    destruct (Qeq_bool T 0) eqn:E; [|reflexivity].
    apply Qeq_bool_eq in E. lra. }
  assert (Hneg : (R / T < 0)%Q).
  { assert (H : R / T == - (R / - T)).
    { field. lra. }
    rewrite H. assert (0 < R / - T)%Q by (apply Qlt_shift_div_l; lra). lra. }
  assert (Hby : bypass (R / T) = false).
  { unfold bypass. destruct (Qlt_le_dec (Qabs (R / T - 1)) (1 / 1000)) as [H|H];
      [|reflexivity].
    pose proof (Qle_Qabs (- (R / T - 1))) as Ha. rewrite Qabs_opp in Ha.
    assert (1 / 1000 < 1)%Q by reflexivity. lra. }
  assert (Hloop : resample_loop fuel (x :: frame) (constructor obs (Some T) R)
                  = None).
  { apply resample_loop_diverges; [exact Hwf|rewrite Hratio; lra|].
    rewrite Hpos. change 0%Q with (inject_Z 0). rewrite <- Zlt_Qlt.
    cbn [length]. lia. }
  assert (Hpwd : processWithDownsampling fuel (x :: frame)
                   (constructor obs (Some T) R) = None).
  { unfold processWithDownsampling. now rewrite Hratio, Hby, Hloop. }
  split; [exact Hpwd|]. split.
  - unfold process. rewrite Hpwd.
    replace (isRunning (constructor obs (Some T) R)) with true by reflexivity.
    reflexivity.
  - intros p. cbn [handleMessage]. destruct (Qlt_le_dec 0 T); [lra|reflexivity].
Qed.

Lemma negative_target_rate_never_returns_witness :
  processWithDownsampling 1000 [Fin 0; Fin 1]
    (constructor None (Some (-16000)%Q) 48000%Q) = None
  /\ process 1000 [[[Fin 0; Fin 1]]]
       (constructor None (Some (-16000)%Q) 48000%Q) = None
  /\ forall p, handleMessage (CmdConfig None (Some (-16000)%Q)) p = p.
Proof.
  apply (negative_target_rate_never_returns None (-16000) 48000 (Fin 0)
           [Fin 1] 1000); reflexivity.
Defined.

(** *** After [stop] *)

Lemma stopped_step (fuel : nat) (i : Input) (p : PCMProcessor) :
  isRunning p = false -> bytesWritten p = 0%nat ->
  exists p',
    engine_step fuel p i = Some p'
    /\ isRunning p' = false /\ bytesWritten p' = 0%nat
    /\ audio_chunks (port p') = audio_chunks (port p).
Proof.
  intros Hrun Hbw. destruct i as [c|inputs]; cbn [engine_step].
  - eexists. split; [reflexivity|]. destruct c as [|bs ts|]; cbn [handleMessage].
    + destruct (stop_spec p) as (Hport & Hb & _ & Hr).
      rewrite Hport, Hbw, Hb, Hr. cbn [Nat.eqb app].
      rewrite audio_chunks_app. cbn [audio_chunks]. rewrite app_nil_r. auto.
    + destruct bs as [[|n]|]; destruct ts as [t|];
        try destruct (Qlt_le_dec 0 t); pcm_simpl; auto.
    + auto.
  - unfold process. rewrite Hrun. cbn [negb]. eexists. split; [reflexivity|].
    auto.
Qed.

(** X8.  The stopped state is final: after [stop], whatever messages and
    render quanta follow, the processor returns from each of them, stays
    stopped and posts no further audio chunk. *)
Theorem stopped_is_final
        (fuel : nat) (ins : list Input) (p : PCMProcessor) :
  exists p',
    engine_run fuel ins (stop p) = Some p'
    /\ isRunning p' = false
    /\ audio_chunks (port p') = audio_chunks (port (stop p)).
Proof.
  destruct (stop_spec p) as (_ & Hb & _ & Hr).
  revert Hb Hr. generalize (stop p). clear p.
  induction ins as [|i ins IH]; intros p Hb Hr; cbn [engine_run].
  - exists p. auto.
  - destruct (stopped_step fuel i p Hr Hb) as (p1 & E & Hr1 & Hb1 & Ha1).
    rewrite E. destruct (IH p1 Hb1 Hr1) as (p' & Hrun & Hr' & Ha').
    exists p'. split; [exact Hrun|]. split; [exact Hr'|]. congruence.
Qed.

(** *** An integer ratio *)






End EngineFacts.

(* ================================================================== *)
(** ** Further properties of the transport client *)

Module ClientFacts.
Import Transport TransportAux TransportFacts.

(** *** Heartbeat *)

Lemma pingTimeout_spec (h : Hook) :
  missedPingsRef (pingTimeout h) = S (missedPingsRef h)
  /\ connectionHealth (state (pingTimeout h)) = health_of (S (missedPingsRef h))
  /\ error (state (pingTimeout h))
     = (if Nat.leb UNHEALTHY_THRESHOLD (S (missedPingsRef h))
        then Some dead_message else error (state h))
  /\ ws (pingTimeout h) = ws h
  /\ readyState (pingTimeout h) = readyState h
  /\ audioQueueRef (pingTimeout h) = audioQueueRef h.
Proof.
  unfold pingTimeout, updateConnectionHealth. cbv zeta. hook_simpl.
  destruct (Health_eqb (connectionHealth (state h))
                       (health_of (S (missedPingsRef h)))) eqn:E;
    hook_simpl;
    destruct (Nat.leb UNHEALTHY_THRESHOLD (S (missedPingsRef h)));
    hook_simpl; repeat split; try reflexivity.
  all: now apply Health_eqb_eq in E.
Qed.

Lemma pingTimeouts_spec (n : nat) (h : Hook) :
  missedPingsRef (Nat.iter (S n) pingTimeout h) = (missedPingsRef h + S n)%nat
  /\ connectionHealth (state (Nat.iter (S n) pingTimeout h))
     = health_of (missedPingsRef h + S n)
  /\ ws (Nat.iter (S n) pingTimeout h) = ws h
  /\ readyState (Nat.iter (S n) pingTimeout h) = readyState h
  /\ audioQueueRef (Nat.iter (S n) pingTimeout h) = audioQueueRef h
  /\ error (state (Nat.iter (S n) pingTimeout h))
     = (if Nat.leb UNHEALTHY_THRESHOLD (missedPingsRef h + S n)
        then Some dead_message else error (state h)).
Proof.
  induction n as [|n IH].
  - rewrite Nat.iter_succ. cbn [Nat.iter nat_rect].
    destruct (pingTimeout_spec h) as (A & B & C & D & E & F).
    rewrite Nat.add_1_r. repeat split; assumption.
  - rewrite Nat.iter_succ.
    destruct (pingTimeout_spec (Nat.iter (S n) pingTimeout h))
      as (A & B & C & D & E & F).
    destruct IH as (A' & B' & D' & E' & F' & C').
    rewrite A, B, C, D, E, F, A', D', E', F', C'.
    replace (S (missedPingsRef h + S n)) with (missedPingsRef h + S (S n))%nat
      by lia.
    repeat split; try reflexivity.
    unfold UNHEALTHY_THRESHOLD.
    destruct (Nat.leb_spec 3 (missedPingsRef h + S (S n)));
      destruct (Nat.leb_spec 3 (missedPingsRef h + S n)); try reflexivity; lia.
Qed.

(** X10.  After [n >= 1] ping timeouts in a row the missed-ping counter has
    grown by [n] and the health is the classification of the new count; the
    error [Connection appears dead] is set exactly when the new count is 3
    or more; the socket, [readyState] and the audio queue are untouched:
    the hook never closes the connection itself. *)
Theorem ping_timeouts_accumulate (n : nat) (h : Hook) :
  missedPingsRef (Nat.iter (S n) pingTimeout h) = (missedPingsRef h + S n)%nat
  /\ connectionHealth (state (Nat.iter (S n) pingTimeout h))
     = health_of (missedPingsRef h + S n)
  /\ error (state (Nat.iter (S n) pingTimeout h))
     = (if Nat.leb 3 (missedPingsRef h + S n)
        then Some dead_message else error (state h))
  /\ ws (Nat.iter (S n) pingTimeout h) = ws h
  /\ readyState (Nat.iter (S n) pingTimeout h) = readyState h
  /\ audioQueueRef (Nat.iter (S n) pingTimeout h) = audioQueueRef h.
Proof.
  destruct (pingTimeouts_spec n h) as (A & B & D & E & F & C).
  repeat split; assumption.
Qed.

Lemma handlePong_frame (timestamp now : Z) (h : Hook) :
  calls (handlePong timestamp now h) = calls h
  /\ error (state (handlePong timestamp now h)) = error (state h)
  /\ ws (handlePong timestamp now h) = ws h
  /\ audioQueueRef (handlePong timestamp now h) = audioQueueRef h
  /\ missedPingsRef (handlePong timestamp now h) = 0%nat
  /\ connectionHealth (state (handlePong timestamp now h)) = healthy.
Proof.
  unfold handlePong, updateConnectionHealth. cbv zeta. hook_simpl.
  cbn [health_of Nat.eqb Health_eqb]. hook_simpl. repeat split; reflexivity.
Qed.

(** X11.  A pong invokes no callback and leaves the error message alone.
    So when three or more pings were missed and a pong then arrives, the
    health returns to healthy and the counter to 0, but [onHealthChange] is
    not called for that recovery and the error still reads [Connection
    appears dead]. *)
Theorem pong_recovery_is_silent (k : nat) (timestamp now : Z) (h : Hook) :
  calls (handlePong timestamp now h) = calls h
  /\ error (state (handlePong timestamp now h)) = error (state h)
  /\ missedPingsRef (Nat.iter (3 + k) pingTimeout h) = (missedPingsRef h + 3 + k)%nat
  /\ connectionHealth (state (Nat.iter (3 + k) pingTimeout h)) = unhealthy
  /\ connectionHealth
       (state (handlePong timestamp now (Nat.iter (3 + k) pingTimeout h)))
     = healthy
  /\ missedPingsRef (handlePong timestamp now (Nat.iter (3 + k) pingTimeout h))
     = 0%nat
  /\ error (state (handlePong timestamp now (Nat.iter (3 + k) pingTimeout h)))
     = Some dead_message
  /\ calls (handlePong timestamp now (Nat.iter (3 + k) pingTimeout h))
     = calls (Nat.iter (3 + k) pingTimeout h).
Proof.
  destruct (handlePong_frame timestamp now h) as (A & B & _).
  destruct (handlePong_frame timestamp now (Nat.iter (3 + k) pingTimeout h))
    as (A' & B' & _ & _ & P1 & P2).
  change (3 + k)%nat with (S (2 + k)) in *.
  destruct (pingTimeouts_spec (2 + k) h) as (M & Hh & _ & _ & _ & He).
  split; [exact A|]. split; [exact B|].
  split; [rewrite M; lia|].
  split.
  { rewrite Hh. replace (missedPingsRef h + S (2 + k))%nat
      with (3 + (missedPingsRef h + k))%nat by lia. reflexivity. }
  split; [exact P2|]. split; [exact P1|].
  split; [|exact A'].
  rewrite B', He. unfold UNHEALTHY_THRESHOLD.
  destruct (Nat.leb_spec 3 (missedPingsRef h + S (2 + k))); [reflexivity|lia].
Qed.

(** *** The queue and the wire *)

(** The loop over the queue sends a prefix of the queue and keeps the rest:
    no chunk is lost, repeated or reordered, whichever calls of [send]
    throw. *)
Lemma drain_conserves (q : list ArrayBuffer) :
  forall (w : WebSocket) (b : nat) q' w' b',
    drain q w b = (q', w', b') ->
    exists done : list ArrayBuffer,
      q = done ++ q'
      /\ sent w' = sent w ++ map BinaryFrame done
      /\ b' = (b + total_bytes done)%nat
      /\ ws_readyState w' = ws_readyState w.
Proof.
  induction q as [|c q IH]; intros w b q' w' b' Hd; cbn [drain] in Hd.
  - injection Hd as <- <- <-. exists []. simpl.
    rewrite app_nil_r. unfold total_bytes. simpl. auto.
  - destruct (ws_send c w) as [[|] w1] eqn:Es.
    + apply IH in Hd. destruct Hd as (done & Hq & Hs & Hb & Hr).
      exists (c :: done). rewrite total_bytes_cons.
      unfold ws_send in Es.
      destruct (outcomes w) as [|[|] outs]; try discriminate;
        injection Es as <-; cbn [sent ws_readyState] in *;
        (split; [cbn [app]; congruence|]);
        (split; [rewrite Hs, <- app_assoc; reflexivity|]);
        (split; [lia|assumption]).
    + injection Hd as <- <- <-. exists []. unfold ws_send in Es.
      destruct (outcomes w) as [|[|] outs]; try discriminate.
      injection Es as <-. cbn [sent ws_readyState app map].
      rewrite app_nil_r. unfold total_bytes. simpl. auto.
Qed.

(** X12.  [processQueue], in any state and whichever calls of [send] throw,
    sends a prefix of the queue, oldest first, and keeps the rest in order:
    what was queued is what was sent followed by what is still queued, and
    [bytesSentRef] grows by exactly the bytes sent.  On an open socket whose
    [send] works it sends the whole queue and publishes the new counts. *)
Theorem processQueue_conserves (h : Hook) :
  (exists done : list ArrayBuffer,
     audioQueueRef h = done ++ audioQueueRef (processQueue h)
     /\ delivered (processQueue h) = delivered h ++ done
     /\ bytesSentRef (processQueue h) = (bytesSentRef h + total_bytes done)%nat)
  /\ isProcessingQueueRef (processQueue h) = isProcessingQueueRef h
  /\ (forall w,
        isProcessingQueueRef h = false ->
        readyState h = OPEN ->
        ws h = Some w ->
        ws_readyState w = OPEN ->
        sends_succeed (length (audioQueueRef h)) w ->
        audioQueueRef (processQueue h) = []
        /\ delivered (processQueue h) = delivered h ++ audioQueueRef h
        /\ (audioQueueRef h <> [] ->
            queuedChunks (state (processQueue h)) = 0%nat
            /\ bytesSent (state (processQueue h))
               = (bytesSentRef h + total_bytes (audioQueueRef h))%nat)).
Proof.
  assert (Hnoop : forall (q d : list ArrayBuffer) (n : nat),
             exists done : list ArrayBuffer,
               q = done ++ q /\ d = d ++ done
               /\ n = (n + total_bytes done)%nat).
  { intros q d n. exists []. unfold total_bytes. simpl.
    rewrite app_nil_r. auto. }
  split; [|split].
  - unfold processQueue.
    destruct (isProcessingQueueRef h); [apply Hnoop|].
    destruct (negb (ReadyState_eqb (readyState h) OPEN)); [apply Hnoop|].
    destruct (is_empty (audioQueueRef h)); [apply Hnoop|].
    hook_simpl. destruct (ws h) as [w|] eqn:Ew; hook_simpl.
    + destruct (negb (ReadyState_eqb (ws_readyState w) OPEN)); hook_simpl.
      * unfold delivered. hook_simpl. rewrite Ew. apply Hnoop.
      * unfold drain_queue, delivered. hook_simpl.
        destruct (drain (audioQueueRef h) w (bytesSentRef h))
          as [[q' w'] b'] eqn:Ed.
        apply drain_conserves in Ed. destruct Ed as (done & Hq & Hs & Hb & _).
        hook_simpl. rewrite Ew. exists done.
        rewrite Hs, binary_frames_app, binary_frames_map. auto.
    + unfold delivered. hook_simpl. rewrite Ew. apply Hnoop.
  - unfold processQueue, drain_queue.
    destruct (isProcessingQueueRef h) eqn:Ei; [exact Ei|].
    destruct (negb (ReadyState_eqb (readyState h) OPEN)); [exact Ei|].
    destruct (is_empty (audioQueueRef h)); [exact Ei|].
    hook_simpl. destruct (ws h) as [w|]; hook_simpl; [|reflexivity].
    destruct (negb (ReadyState_eqb (ws_readyState w) OPEN)); hook_simpl;
      [reflexivity|].
    destruct (drain (audioQueueRef h) w (bytesSentRef h)) as [[q' w'] b'].
    reflexivity.
  - intros w Hi Hrs Hws Hw Hok. destruct w as [rs snt outs].
    cbn [ws_readyState] in Hw. subst rs.
    unfold processQueue, drain_queue, delivered.
    rewrite Hi, Hrs, Hws. cbn [ReadyState_eqb negb].
    destruct (audioQueueRef h) as [|c q] eqn:Eq; cbn [is_empty].
    + rewrite Eq, Hws. rewrite app_nil_r.
      split; [reflexivity|]. split; [reflexivity|]. intros H. now contradiction H.
    + hook_simpl. rewrite Hws. cbn [ws_readyState ReadyState_eqb negb].
      rewrite Eq, (drain_all (c :: q) OPEN snt outs (bytesSentRef h) Hok).
      hook_simpl. rewrite binary_frames_app, binary_frames_map.
      repeat split; reflexivity.
Qed.

(** [sendAudio] on an open socket whose [send] never throws. *)
Lemma sendAudio_working (o : Options) (buf : ArrayBuffer) (h : Hook)
      (snt : list Frame) :
  readyState h = OPEN ->
  ws h = Some (mkWS OPEN snt []) ->
  isProcessingQueueRef h = false ->
  fst (sendAudio o buf h) = true
  /\ readyState (snd (sendAudio o buf h)) = OPEN
  /\ ws (snd (sendAudio o buf h))
     = Some (mkWS OPEN
               (snt ++ map BinaryFrame (audioQueueRef h) ++ [BinaryFrame buf])
               [])
  /\ isProcessingQueueRef (snd (sendAudio o buf h)) = false
  /\ audioQueueRef (snd (sendAudio o buf h)) = []
  /\ bytesSentRef (snd (sendAudio o buf h))
     = (bytesSentRef h + total_bytes (audioQueueRef h) + byteLength buf)%nat.
Proof.
  intros Hrs Hws Hip.
  destruct h as [st cs pi pt lp mp q ip bs rs ows cl]. hook_simpl. subst.
  unfold sendAudio, drain_queue. hook_simpl.
  cbn [ReadyState_eqb negb andb].
  destruct q as [|c q].
  - cbn [is_empty negb ws_send outcomes]. hook_simpl. cbn [fst snd]. hook_simpl.
    cbn [map app]. unfold total_bytes. simpl. rewrite Nat.add_0_r.
    repeat split; reflexivity.
  - cbn [is_empty negb]. hook_simpl.
    rewrite (drain_all (c :: q) OPEN snt [] bs).
    2:{ unfold sends_succeed. hook_simpl. now rewrite firstn_nil. }
    hook_simpl. rewrite skipn_nil. cbn [ws_send outcomes]. hook_simpl.
    cbn [fst snd]. hook_simpl. rewrite <- app_assoc.
    repeat split; reflexivity.
Qed.

(** X13.  On an open socket whose [send] never throws, a run of [sendAudio]
    calls returns true each time and puts on the wire, in this order, what
    was queued before and then the chunks in the order of the calls; the
    queue is empty after the first call. *)
Theorem audio_is_sent_in_call_order
        (o : Options) (chunks : list ArrayBuffer) (h : Hook) (snt : list Frame) :
  readyState h = OPEN ->
  ws h = Some (mkWS OPEN snt []) ->
  isProcessingQueueRef h = false ->
  fst (sendAudio_all o chunks h) = repeat true (length chunks)
  /\ delivered (snd (sendAudio_all o chunks h))
       ++ audioQueueRef (snd (sendAudio_all o chunks h))
     = delivered h ++ audioQueueRef h ++ chunks
  /\ (chunks <> [] -> audioQueueRef (snd (sendAudio_all o chunks h)) = [])
  /\ (bytesSentRef (snd (sendAudio_all o chunks h))
      + total_bytes (audioQueueRef (snd (sendAudio_all o chunks h)))
      = bytesSentRef h + total_bytes (audioQueueRef h) + total_bytes chunks)%nat.
Proof.
  revert h snt. induction chunks as [|c chunks IH]; intros h snt Hrs Hws Hip.
  - cbn [sendAudio_all fst snd length repeat]. rewrite app_nil_r.
    split; [reflexivity|]. split; [reflexivity|].
    split; [intros H; now contradiction H|].
    unfold total_bytes at 3. simpl. lia.
  - cbn [sendAudio_all].
    destruct (sendAudio_working o c h snt Hrs Hws Hip)
      as (Hr & Hrs1 & Hws1 & Hip1 & Hq1 & Hb1).
    destruct (sendAudio o c h) as [r h1]. cbn [fst snd] in *.
    destruct (IH h1 _ Hrs1 Hws1 Hip1) as (I1 & I2 & I3 & I4).
    destruct (sendAudio_all o chunks h1) as [rs h2] eqn:E2. cbn [fst snd] in *.
    subst r. cbn [length repeat]. split; [now rewrite I1|].
    assert (Hd1 : delivered h1 = delivered h ++ audioQueueRef h ++ [c]).
    { unfold delivered. rewrite Hws1, Hws. cbn [sent].
      rewrite !binary_frames_app, binary_frames_map. reflexivity. }
    split.
    { rewrite I2, Hd1, Hq1. cbn [app]. now rewrite <- !app_assoc. }
    split.
    { intros _. destruct chunks as [|d chunks].
      - cbn [sendAudio_all] in E2. injection E2 as _ <-. exact Hq1.
      - apply I3. discriminate. }
    rewrite I4, Hb1, Hq1, total_bytes_cons. unfold total_bytes at 2. simpl. lia.
Qed.

Lemma audio_is_sent_in_call_order_witness :
  let o := default_options "zipformer"%string in
  let h := set_audioQueueRef [[Byte.x01]]
             (set_ws (Some (mkWS OPEN [] [])) (set_readyState OPEN mount)) in
  let chunks := [[Byte.x02]; [Byte.x03; Byte.x04]] in
  fst (sendAudio_all o chunks h) = repeat true (length chunks)
  /\ delivered (snd (sendAudio_all o chunks h))
       ++ audioQueueRef (snd (sendAudio_all o chunks h))
     = delivered h ++ audioQueueRef h ++ chunks
  /\ (chunks <> [] -> audioQueueRef (snd (sendAudio_all o chunks h)) = [])
  /\ (bytesSentRef (snd (sendAudio_all o chunks h))
      + total_bytes (audioQueueRef (snd (sendAudio_all o chunks h)))
      = bytesSentRef h + total_bytes (audioQueueRef h) + total_bytes chunks)%nat.
Proof.
  intros o h chunks.
  apply (audio_is_sent_in_call_order o chunks h []); reflexivity.
Defined.

Lemma ws_send_spec (c : ArrayBuffer) (w : WebSocket) :
  (fst (ws_send c w) = true
   /\ sent (snd (ws_send c w)) = sent w ++ [BinaryFrame c])
  \/ (fst (ws_send c w) = false /\ sent (snd (ws_send c w)) = sent w).
Proof.
  unfold ws_send. destruct (outcomes w) as [|[|] outs]; cbn [fst snd sent]; auto.
Qed.

Lemma push_bounded_room (m : nat) (c : ArrayBuffer) (q : list ArrayBuffer) :
  (length q < m)%nat -> push_bounded m c q = q ++ [c].
Proof.
  intros H. unfold push_bounded. rewrite length_app. cbn [length].
  destruct (Nat.ltb_spec m (length q + 1)); [lia|reflexivity].
Qed.

(** X14.  With queuing enabled and room in the queue, [sendAudio] neither
    loses nor duplicates audio, whichever calls of [send] throw: the chunks
    queued before together with the new buffer are, up to order, the chunks
    it put on the wire together with the chunks queued after, and
    [bytesSentRef] grows by the bytes put on the wire.  (When [readyState]
    is open this needs the socket to be there and open; otherwise the call
    returns false and drops the buffer.) *)
Theorem sendAudio_conserves_audio
        (o : Options) (buf : ArrayBuffer) (h : Hook) :
  enableQueue o = true ->
  (length (audioQueueRef h) < maxQueueSize o)%nat ->
  (readyState h = OPEN -> exists w, ws h = Some w /\ ws_readyState w = OPEN) ->
  exists new : list ArrayBuffer,
    delivered (snd (sendAudio o buf h)) = delivered h ++ new
    /\ Permutation (audioQueueRef h ++ [buf])
                   (new ++ audioQueueRef (snd (sendAudio o buf h)))
    /\ bytesSentRef (snd (sendAudio o buf h))
       = (bytesSentRef h + total_bytes new)%nat.
Proof.
  intros Hq Hroom Hopen. unfold sendAudio, drain_queue. rewrite Hq.
  destruct (ReadyState_eqb (readyState h) OPEN) eqn:Ers; cbn [negb].
  2:{ exists []. cbn [snd]. unfold delivered. hook_simpl.
      rewrite push_bounded_room by assumption. rewrite app_nil_r.
      unfold total_bytes. simpl. rewrite Nat.add_0_r. auto. }
  destruct Hopen as (w & Hws & Hw); [destruct (readyState h); now inversion Ers|].
  rewrite Hws, Hw. cbn [ReadyState_eqb negb].
  assert (Hfinal : forall (h1 : Hook) (w1 : WebSocket) (done : list ArrayBuffer),
    ws h1 = Some w1 ->
    sent w1 = sent w ++ map BinaryFrame done ->
    audioQueueRef h = done ++ audioQueueRef h1 ->
    bytesSentRef h1 = (bytesSentRef h + total_bytes done)%nat ->
    exists new : list ArrayBuffer,
      delivered
        (snd (let (b, w') := ws_send buf w1 in
              if b then
                (true, set_bytesSentRef (bytesSentRef h1 + byteLength buf)
                         (set_ws (Some w') h1))
              else
                (false,
                 setState (fun prev =>
                   mkState (interimText prev) (finalizedSegments prev)
                           (fullTranscript prev) (sessionId prev)
                           (connectionState prev) (error prev)
                           (bytesSent prev)
                           (length (audioQueueRef
                              (set_audioQueueRef
                                 (push_bounded (maxQueueSize o) buf
                                    (audioQueueRef (set_ws (Some w') h1)))
                                 (set_ws (Some w') h1))))
                           (lastPingLatency prev) (connectionHealth prev)
                           (latestModeration prev) (moderationResults prev))
                   (set_audioQueueRef
                      (push_bounded (maxQueueSize o) buf
                         (audioQueueRef (set_ws (Some w') h1)))
                      (set_ws (Some w') h1)))))
      = delivered h ++ new
      /\ Permutation (audioQueueRef h ++ [buf])
           (new ++ audioQueueRef
              (snd (let (b, w') := ws_send buf w1 in
              if b then
                (true, set_bytesSentRef (bytesSentRef h1 + byteLength buf)
                         (set_ws (Some w') h1))
              else
                (false,
                 setState (fun prev =>
                   mkState (interimText prev) (finalizedSegments prev)
                           (fullTranscript prev) (sessionId prev)
                           (connectionState prev) (error prev)
                           (bytesSent prev)
                           (length (audioQueueRef
                              (set_audioQueueRef
                                 (push_bounded (maxQueueSize o) buf
                                    (audioQueueRef (set_ws (Some w') h1)))
                                 (set_ws (Some w') h1))))
                           (lastPingLatency prev) (connectionHealth prev)
                           (latestModeration prev) (moderationResults prev))
                   (set_audioQueueRef
                      (push_bounded (maxQueueSize o) buf
                         (audioQueueRef (set_ws (Some w') h1)))
                      (set_ws (Some w') h1))))))
      /\ bytesSentRef
           (snd (let (b, w') := ws_send buf w1 in
              if b then
                (true, set_bytesSentRef (bytesSentRef h1 + byteLength buf)
                         (set_ws (Some w') h1))
              else
                (false,
                 setState (fun prev =>
                   mkState (interimText prev) (finalizedSegments prev)
                           (fullTranscript prev) (sessionId prev)
                           (connectionState prev) (error prev)
                           (bytesSent prev)
                           (length (audioQueueRef
                              (set_audioQueueRef
                                 (push_bounded (maxQueueSize o) buf
                                    (audioQueueRef (set_ws (Some w') h1)))
                                 (set_ws (Some w') h1))))
                           (lastPingLatency prev) (connectionHealth prev)
                           (latestModeration prev) (moderationResults prev))
                   (set_audioQueueRef
                      (push_bounded (maxQueueSize o) buf
                         (audioQueueRef (set_ws (Some w') h1)))
                      (set_ws (Some w') h1)))))
         = (bytesSentRef h + total_bytes new)%nat).
  { intros h1 w1 done Hw1 Hs1 Hq1 Hb1.
    assert (Hlen1 : (length (audioQueueRef h1) < maxQueueSize o)%nat).
    { rewrite Hq1, length_app in Hroom. lia. }
    assert (Hd : delivered h = binary_frames (sent w))
      by (unfold delivered; now rewrite Hws).
    destruct (ws_send_spec buf w1) as [[Hb Hs]|[Hb Hs]];
      destruct (ws_send buf w1) as [b w']; cbn [fst snd] in Hb, Hs; subst b.
    - exists (done ++ [buf]). cbn [snd]. unfold delivered. hook_simpl.
      rewrite Hs, Hs1, !binary_frames_app, binary_frames_map, <- Hd.
      cbn [binary_frames]. rewrite <- app_assoc.
      split; [reflexivity|]. split.
      + rewrite Hq1, <- !app_assoc. apply Permutation_app_head.
        apply Permutation_app_comm.
      + rewrite Hb1. unfold total_bytes. rewrite map_app, list_sum_app.
        simpl. lia.
    - exists done. cbn [snd]. unfold delivered. hook_simpl.
      rewrite push_bounded_room by assumption.
      rewrite Hs, Hs1, binary_frames_app, binary_frames_map, <- Hd.
      split; [reflexivity|]. split; [|exact Hb1].
      rewrite Hq1, <- app_assoc. apply Permutation_refl. }
  destruct (negb (isProcessingQueueRef h) && negb (is_empty (audioQueueRef h))).
  - hook_simpl.
    destruct (drain (audioQueueRef h) w (bytesSentRef h)) as [[q' w'] b'] eqn:Ed.
    apply drain_conserves in Ed. destruct Ed as (done & Hq' & Hs' & Hb' & _).
    hook_simpl.
    apply (Hfinal
             (set_isProcessingQueueRef false
                (set_bytesSentRef b'
                   (set_ws (Some w')
                      (set_audioQueueRef q' (set_isProcessingQueueRef true h)))))
             w' done); hook_simpl; auto.
  - rewrite Hws.
    apply (Hfinal h w []); auto.
    cbn [map]. now rewrite app_nil_r.
Qed.

Lemma sendAudio_conserves_audio_witness :
  let o := default_options "zipformer"%string in
  let h := set_audioQueueRef [[Byte.x01]; [Byte.x02]]
             (set_ws (Some (mkWS OPEN [] [true; false; true]))
                     (set_readyState OPEN mount)) in
  let buf := [Byte.x03] in
  exists new : list ArrayBuffer,
    delivered (snd (sendAudio o buf h)) = delivered h ++ new
    /\ Permutation (audioQueueRef h ++ [buf])
                   (new ++ audioQueueRef (snd (sendAudio o buf h)))
    /\ bytesSentRef (snd (sendAudio o buf h))
       = (bytesSentRef h + total_bytes new)%nat.
Proof.
  intros o h buf.
  apply (sendAudio_conserves_audio o buf h).
  - reflexivity.
  - vm_compute. lia.
  - intros _. eexists. split; reflexivity.
Defined.

Lemma configEffect_fresh
      (o : Options) (sid : string) (now : Z) (h : Hook) (w : WebSocket) :
  readyState h = OPEN -> configSentRef h = false -> ws h = Some w ->
  ws (configEffect o sid now h)
    = Some (mkWS (ws_readyState w)
                 (sent w ++ [TextFrame (ConfigMessage (model o) (sampleRate o));
                             TextFrame (StartSessionMessage sid);
                             TextFrame (PingMessage now)])
                 (outcomes w))
  /\ sessionId (state (configEffect o sid now h)) = Some sid
  /\ configSentRef (configEffect o sid now h) = true
  /\ pingIntervalRef (configEffect o sid now h) = true
  /\ pingTimeoutRef (configEffect o sid now h) = true
  /\ lastPingTimeRef (configEffect o sid now h) = now
  /\ calls (configEffect o sid now h) = calls h.
Proof.
  intros Hr Hc Hw. unfold configEffect. rewrite Hr, Hc.
  cbn [ReadyState_eqb negb andb].
  unfold sendPing, sendJsonMessage. hook_simpl. rewrite Hw. hook_simpl.
  rewrite Hr. cbn [ReadyState_eqb negb]. hook_simpl.
  rewrite <- !app_assoc. cbn [app].
  repeat split; reflexivity.
Qed.

Lemma opened_before_config (h : Hook) :
  let h0 :=
    connectionStateEffect
      (set_readyState OPEN
         (onOpen
            match ws h with
            | Some w => set_ws (Some (mkWS OPEN (sent w) (outcomes w))) h
            | None => set_ws (Some (mkWS OPEN [] [])) h
            end)) in
  readyState h0 = OPEN
  /\ configSentRef h0 = false
  /\ ws h0 = Some (mkWS OPEN (frames_sent h)
                        match ws h with Some w => outcomes w | None => [] end)
  /\ calls h0 = calls h ++ [onConnectionChange OPEN].
Proof.
  unfold frames_sent, connectionStateEffect, processQueue, onOpen.
  destruct (ws h) as [w|]; hook_simpl;
    cbn [ReadyState_eqb is_empty negb]; hook_simpl;
    destruct (isProcessingQueueRef h); hook_simpl;
    repeat split; reflexivity.
Qed.

Lemma socket_opens_handshake
      (o : Options) (sid : string) (now : Z) (h : Hook) :
  frames_sent (socket_opens o sid now h)
    = frames_sent h
      ++ [TextFrame (ConfigMessage (model o) (sampleRate o));
          TextFrame (StartSessionMessage sid);
          TextFrame (PingMessage now)]
  /\ sessionId (state (socket_opens o sid now h)) = Some sid
  /\ configSentRef (socket_opens o sid now h) = true
  /\ pingIntervalRef (socket_opens o sid now h) = true
  /\ pingTimeoutRef (socket_opens o sid now h) = true
  /\ lastPingTimeRef (socket_opens o sid now h) = now
  /\ calls (socket_opens o sid now h) = calls h ++ [onConnectionChange OPEN].
Proof.
  unfold socket_opens.
  destruct (opened_before_config h) as (Hr & Hc & Hw & Hk).
  destruct (configEffect_fresh o sid now _ _ Hr Hc Hw)
    as (Hw' & Hs & Hc' & Hi & Ht & Hl & Hk').
  unfold frames_sent at 1. rewrite Hw', Hk', Hk. hook_simpl.
  repeat split; assumption.
Qed.

(** X15.  When the socket opens the hook sends exactly three text frames,
    in this order: the configuration, the start of the session, a first
    ping; it records the session id and arms the heartbeat.  The config
    effect is then spent: run again, with whatever options, session id and
    time, it changes nothing, so a model or sample rate chosen later is not
    sent on this connection. *)
Theorem handshake_sent_once
        (o o' : Options) (sid sid' : string) (now now' : Z) (h : Hook) :
  frames_sent (socket_opens o sid now h)
    = frames_sent h
      ++ [TextFrame (ConfigMessage (model o) (sampleRate o));
          TextFrame (StartSessionMessage sid);
          TextFrame (PingMessage now)]
  /\ sessionId (state (socket_opens o sid now h)) = Some sid
  /\ configSentRef (socket_opens o sid now h) = true
  /\ pingIntervalRef (socket_opens o sid now h) = true
  /\ pingTimeoutRef (socket_opens o sid now h) = true
  /\ lastPingTimeRef (socket_opens o sid now h) = now
  /\ calls (socket_opens o sid now h) = calls h ++ [onConnectionChange OPEN]
  /\ configEffect o' sid' now' (socket_opens o sid now h)
     = socket_opens o sid now h.
Proof.
  destruct (socket_opens_handshake o sid now h)
    as (Hf & Hs & Hc & Hi & Ht & Hl & Hk).
  repeat (split; [assumption|]).
  generalize dependent (socket_opens o sid now h). intros h1 _ _ Hc _ _ _ _.
  unfold configEffect. rewrite Hc, andb_false_r. reflexivity.
Qed.

(** *** Finalized segments *)

Lemma sendAudio_segments (o : Options) (c : ArrayBuffer) (h : Hook) :
  finalizedSegments (state (snd (sendAudio o c h)))
  = finalizedSegments (state h).
Proof.
  unfold sendAudio, drain_queue.
  destruct (negb (ReadyState_eqb (readyState h) OPEN)).
  - destruct (enableQueue o); cbn [snd]; hook_simpl; reflexivity.
  - destruct (ws h) as [w|]; [|reflexivity].
    destruct (negb (ReadyState_eqb (ws_readyState w) OPEN)); [reflexivity|].
    destruct (negb (isProcessingQueueRef h) && negb (is_empty (audioQueueRef h))).
    + hook_simpl.
      destruct (drain (audioQueueRef h) w (bytesSentRef h)) as [[q' w'] b'].
      hook_simpl.
      destruct (ws_send c w') as [[|] w'']; cbn [snd]; hook_simpl;
        [reflexivity|].
      destruct (enableQueue o); cbn [snd]; hook_simpl; reflexivity.
    + destruct (ws h) as [w1|];
        [destruct (ws_send c w1) as [[|] w'']|destruct (ws_send c w) as [[|] w'']];
        cbn [snd]; hook_simpl; try reflexivity;
        destruct (enableQueue o); cbn [snd]; hook_simpl; reflexivity.
Qed.

(** What an event can do to the finalized segments: nothing, clear them, or
    append one trimmed, non-empty text. *)
Lemma step_segments (o : Options) (h : Hook) (e : Event) :
  finalizedSegments (state (step o h e)) = finalizedSegments (state h)
  \/ finalizedSegments (state (step o h e)) = []
  \/ exists txt : string,
       truthy (trim txt) = true
       /\ finalizedSegments (state (step o h e))
          = finalizedSegments (state h) ++ [trim txt].
Proof.
  destruct e as [| |sid now| | |m now|now| |c| |outs]; cbn [step].
  - left. reflexivity.
  - left. unfold disconnect. crunch; reflexivity.
  - right. left. apply socket_opens_transcript.
  - left. unfold socket_closes, connectionStateEffect, processQueue, onClose.
    destruct (ws h); hook_simpl; cbn [ReadyState_eqb]; hook_simpl; reflexivity.
  - left. reflexivity.
  - destruct m as [ts|[txt fin]|r|]; unfold onMessage.
    + left. unfold handlePong, updateConnectionHealth. crunch; reflexivity.
    + unfold transcriptionUpdate. hook_simpl. cbn [is_final text].
      destruct fin; [|left; reflexivity].
      destruct (truthy (trim txt)) eqn:Et; [|left; reflexivity].
      right. right. exists txt. split; [exact Et|reflexivity].
    + left. hook_simpl. reflexivity.
    + left. reflexivity.
  - left. unfold sendPing, sendJsonMessage. crunch; reflexivity.
  - left. unfold pingTimeout, updateConnectionHealth. crunch; reflexivity.
  - left. apply sendAudio_segments.
  - right. left. reflexivity.
  - left. crunch; reflexivity.
Qed.

Lemma filter_truthy_clean (segs : list string) :
  Forall clean_segment segs -> filter truthy segs = segs.
Proof.
  induction 1 as [|s l [Hs _] _ IH]; [reflexivity|].
  cbn [filter]. rewrite Hs, IH. reflexivity.
Qed.

(** X16.  In every state the hook can reach, each finalized segment is a
    non-empty text without whitespace at either end, so the filter of the
    transcript assembly only ever decides on the interim text: the full
    transcript is the segments, followed by the interim text when there is
    one, joined by single spaces. *)
Theorem finalized_segments_are_clean (o : Options) (events : list Event) :
  Forall clean_segment (finalizedSegments (state (run o events)))
  /\ fullTranscript (state (run o events))
     = String.concat " "
         (finalizedSegments (state (run o events))
          ++ (if truthy (interimText (state (run o events)))
              then [interimText (state (run o events))] else [])).
Proof.
  assert (Hclean : Forall clean_segment (finalizedSegments (state (run o events)))).
  { unfold run.
    assert (Hgen : forall h : Hook,
               Forall clean_segment (finalizedSegments (state h)) ->
               Forall clean_segment
                 (finalizedSegments (state (fold_left (step o) events h)))).
    { induction events as [|e es IH]; intros h Hh; [exact Hh|].
      cbn [fold_left]. apply IH.
      destruct (step_segments o h e) as [E|[E|(txt & Ht & E)]]; rewrite E.
      - exact Hh.
      - constructor.
      - apply Forall_app. split; [exact Hh|].
        constructor; [|constructor].
        split; [exact Ht|apply trim_spec]. }
    apply Hgen. constructor. }
  split; [exact Hclean|].
  rewrite (run_transcript_consistent o events).
  rewrite filter_app, (filter_truthy_clean _ Hclean).
  cbn [filter]. reflexivity.
Qed.

(** *** Moderation *)

Lemma last_cons_default {A : Type} (l : list A) (a d : A) :
  last (a :: l) d = last l a.
Proof.
  revert a d. induction l as [|b l IH]; intros a d; [reflexivity|].
  change (last (a :: b :: l) d) with (last (b :: l) d).
  rewrite (IH b d), (IH b a). reflexivity.
Qed.

Lemma moderation_calls_app (a b : list Callback) :
  moderation_calls (a ++ b) = moderation_calls a ++ moderation_calls b.
Proof.
  induction a as [|[r|m|c|e|x] a IH]; cbn [app moderation_calls];
    rewrite ?IH; reflexivity.
Qed.

Lemma onMessage_moderation (m : ServerMessage) (now : Z) (h : Hook) :
  moderationResults (state (onMessage m now h))
    = moderationResults (state h) ++ moderations [m]
  /\ latestModeration (state (onMessage m now h))
     = last (map Some (moderations [m])) (latestModeration (state h))
  /\ moderation_calls (calls (onMessage m now h))
     = moderation_calls (calls h) ++ moderations [m].
Proof.
  destruct m as [ts|r|r|]; unfold onMessage; cbn [moderations map last].
  - unfold handlePong, updateConnectionHealth.
    crunch; rewrite ?moderation_calls_app, ?app_nil_r; auto.
  - unfold transcriptionUpdate. hook_simpl.
    rewrite ?moderation_calls_app, ?app_nil_r; auto.
  - hook_simpl. rewrite moderation_calls_app. auto.
  - rewrite !app_nil_r. auto.
Qed.

(** X17.  Moderation results pile up in arrival order whatever else
    arrives in between: after any sequence of server messages the list of
    results is the old list followed by the results the sequence carried,
    the latest result is the last of them (the old one when there was
    none), and [onModeration] was called once for each, in order. *)
Theorem moderation_results_accumulate
        (ms : list ServerMessage) (now : Z) (h : Hook) :
  moderationResults (state (onMessages ms now h))
    = moderationResults (state h) ++ moderations ms
  /\ latestModeration (state (onMessages ms now h))
     = last (map Some (moderations ms)) (latestModeration (state h))
  /\ moderation_calls (calls (onMessages ms now h))
     = moderation_calls (calls h) ++ moderations ms.
Proof.
  unfold onMessages. revert h.
  induction ms as [|m ms IH]; intros h.
  - cbn [fold_left moderations map last]. rewrite !app_nil_r. auto.
  - cbn [fold_left].
    destruct (IH (onMessage m now h)) as (H1 & H2 & H3).
    destruct (onMessage_moderation m now h) as (E1 & E2 & E3).
    rewrite H1, H2, H3, E1, E2, E3, <- !app_assoc.
    destruct m as [ts|r|r|]; cbn [moderations map app];
      rewrite ?last_cons_default; cbn [last];
      repeat split; reflexivity.
Qed.

Lemma disconnect_spec (h : Hook) :
  ws (disconnect h)
    = match ws h with
      | Some w => Some (mkWS CLOSING (sent w) (outcomes w))
      | None => None
      end
  /\ audioQueueRef (disconnect h) = []
  /\ readyState (disconnect h) = readyState h.
Proof.
  destruct h as [st cs pi pt lp mp q ip bs rs [w|] cl];
    unfold disconnect; hook_simpl; repeat split; reflexivity.
Qed.

Lemma socket_closes_spec (h : Hook) :
  readyState (socket_closes h) = CLOSED
  /\ audioQueueRef (socket_closes h) = audioQueueRef h.
Proof.
  destruct h as [st cs pi pt lp mp q ip bs rs [w|] cl];
    unfold socket_closes, connectionStateEffect, onClose; hook_simpl;
    cbn [ReadyState_eqb]; hook_simpl; split; reflexivity.
Qed.

(** X18.  Between [disconnect()] and the render that sees the socket
    closed the hook still holds [readyState] open: audio handed to
    [sendAudio] then is neither sent nor queued, queuing enabled or not,
    and what was queued is gone.  Once the close has been seen, audio is
    queued again. *)
Theorem audio_after_disconnect_is_dropped
        (o : Options) (buf : ArrayBuffer) (h : Hook) :
  readyState h = OPEN ->
  sendAudio o buf (disconnect h) = (false, disconnect h)
  /\ audioQueueRef (disconnect h) = []
  /\ delivered (disconnect h) = delivered h
  /\ (enableQueue o = true -> (0 < maxQueueSize o)%nat ->
      sendAudio o buf (socket_closes (disconnect h))
      = (true, set_audioQueueRef [buf] (socket_closes (disconnect h)))).
Proof.
  intros Hr.
  destruct (disconnect_spec h) as (Hw & Hq & Hr').
  rewrite Hr in Hr'.
  split; [|split; [exact Hq|split]].
  - unfold sendAudio. rewrite Hr', Hw. cbn [ReadyState_eqb negb].
    destruct (ws h); hook_simpl; reflexivity.
  - unfold delivered. rewrite Hw. destruct (ws h); reflexivity.
  - intros He Hm.
    destruct (socket_closes_spec (disconnect h)) as [Hc1 Hc2].
    rewrite Hq in Hc2.
    unfold sendAudio. rewrite Hc1, He, Hc2. cbn [ReadyState_eqb negb].
    unfold push_bounded. cbn [app length tl].
    destruct (Nat.ltb_spec (maxQueueSize o) 1); [lia|reflexivity].
Qed.

Lemma audio_after_disconnect_is_dropped_witness :
  let o := default_options "zipformer"%string in
  let h := socket_opens o "s1"%string 0 (connect mount) in
  sendAudio o [Byte.x01] (disconnect h) = (false, disconnect h)
  /\ audioQueueRef (disconnect h) = []
  /\ delivered (disconnect h) = delivered h
  /\ (enableQueue o = true -> (0 < maxQueueSize o)%nat ->
      sendAudio o [Byte.x01] (socket_closes (disconnect h))
      = (true, set_audioQueueRef [[Byte.x01]] (socket_closes (disconnect h)))).
Proof.
  intros o h.
  apply (audio_after_disconnect_is_dropped o [Byte.x01] h).
  reflexivity.
Defined.

(** *** The lock of the queue *)

Lemma processQueue_not_processing (h : Hook) :
  isProcessingQueueRef h = false ->
  isProcessingQueueRef (processQueue h) = false.
Proof.
  intros Hf. unfold processQueue, drain_queue. rewrite Hf.
  destruct (negb (ReadyState_eqb (readyState h) OPEN)); [exact Hf|].
  destruct (is_empty (audioQueueRef h)); [exact Hf|].
  hook_simpl. destruct (ws h) as [w|]; hook_simpl; [|reflexivity].
  destruct (negb (ReadyState_eqb (ws_readyState w) OPEN)); hook_simpl;
    [reflexivity|].
  destruct (drain (audioQueueRef h) w (bytesSentRef h)) as [[q' w'] b'].
  hook_simpl. reflexivity.
Qed.

Lemma sendAudio_all_not_processing
      (o : Options) (chunks : list ArrayBuffer) (h : Hook) :
  isProcessingQueueRef h = false ->
  isProcessingQueueRef (snd (sendAudio_all o chunks h)) = false.
Proof.
  revert h. induction chunks as [|c chunks IH]; intros h Hf; [exact Hf|].
  cbn [sendAudio_all].
  pose proof (sendAudio_not_processing o c h Hf) as H1.
  destruct (sendAudio o c h) as [r h1]. cbn [snd] in H1.
  specialize (IH h1 H1).
  destruct (sendAudio_all o chunks h1) as [rs h2]. exact IH.
Qed.

(** X19.  The flag that guards the queue against re-entrant processing is
    never left set: it is clear in every state the hook can reach, and
    clear again after [processQueue] and after any calls of [sendAudio]
    from there, whichever sends throw.  So the early return of
    [processQueue] on a set flag is never taken. *)
Theorem queue_lock_never_held
        (o : Options) (events : list Event) (chunks : list ArrayBuffer) :
  isProcessingQueueRef (run o events) = false
  /\ isProcessingQueueRef (processQueue (run o events)) = false
  /\ isProcessingQueueRef (snd (sendAudio_all o chunks (run o events))) = false.
Proof.
  pose proof (run_not_processing o events) as Hf.
  split; [exact Hf|]. split; [now apply processQueue_not_processing|].
  now apply sendAudio_all_not_processing.
Qed.

End ClientFacts.

(* ================================================================== *)
(** ** Properties of the recorder hook *)

Module RecorderFacts.
Import JS PCM PCMAux PCMFacts EngineFacts Recorder.

Lemma find_fallback_differs (f : Z -> bool) (l : list Z) (p r : Z) :
  f p = false -> find f l = Some r -> (r =? p) = false.
Proof.
  intros Hp Hf. apply find_some in Hf. destruct Hf as [_ Hr].
  apply Z.eqb_neq. intros ->. congruence.
Qed.

(** X20.  [getBestSampleRate] announces downsampling exactly when the rate
    it chose is not the preferred one, the preferred rate is chosen
    exactly when the browser supports it, and a processor created on a
    context at the chosen rate without downsampling announced passes every
    sample through. *)
Theorem sample_rate_choice
        (testSampleRateSupport : Z -> bool) (defaultRate preferredRate : Z)
        (bufferSize : option nat) :
  0 < preferredRate ->
  let choice :=
    getBestSampleRate testSampleRateSupport defaultRate preferredRate in
  snd choice = negb (fst choice =? preferredRate)
  /\ (testSampleRateSupport preferredRate = true
      -> fst choice = preferredRate)
  /\ (testSampleRateSupport preferredRate = false
      -> In (fst choice) (fallbackRates ++ [defaultRate]))
  /\ (snd choice = false ->
      bypass (resampleRatio
                (constructor bufferSize (Some (inject_Z preferredRate))
                             (inject_Z (fst choice)))) = true).
Proof.
  intros Hpos choice.
  assert (H1 : snd choice = negb (fst choice =? preferredRate)).
  { unfold choice, getBestSampleRate.
    destruct (testSampleRateSupport preferredRate) eqn:Hp.
    - cbn [fst snd]. now rewrite Z.eqb_refl.
    - destruct (find testSampleRateSupport fallbackRates) as [r|] eqn:Hf;
        cbn [fst snd]; [|reflexivity].
      now rewrite (find_fallback_differs _ _ _ _ Hp Hf). }
  split; [exact H1|]. split; [|split].
  - intros Hp. unfold choice, getBestSampleRate. now rewrite Hp.
  - intros Hp. unfold choice, getBestSampleRate. rewrite Hp.
    destruct (find testSampleRateSupport fallbackRates) as [r|] eqn:Hf;
      cbn [fst]; apply in_or_app.
    + left. now apply find_some in Hf.
    + right. now left.
  - intros Hs. rewrite H1 in Hs. apply negb_false_iff, Z.eqb_eq in Hs.
    rewrite Hs.
    rewrite constructor_ratio
      by (change 0%Q with (inject_Z 0); rewrite <- Zlt_Qlt; exact Hpos).
    unfold bypass.
    destruct (Qlt_le_dec
                (Qabs (inject_Z preferredRate / inject_Z preferredRate - 1))
                (1 / 1000)) as [_|Hge]; [reflexivity|].
    exfalso.
    assert (Ht : (0 < inject_Z preferredRate)%Q)
      by (change 0%Q with (inject_Z 0); rewrite <- Zlt_Qlt; exact Hpos).
    assert (E : (inject_Z preferredRate / inject_Z preferredRate - 1 == 0)%Q)
      by (field; lra).
    rewrite E in Hge. revert Hge. apply Qlt_not_le. reflexivity.
Qed.

Lemma sample_rate_choice_witness :
  let choice := getBestSampleRate (fun r => r =? 44100) 96000 16000 in
  snd choice = negb (fst choice =? 16000)
  /\ ((16000 =? 44100) = true -> fst choice = 16000)
  /\ ((16000 =? 44100) = false
      -> In (fst choice) (fallbackRates ++ [96000]))
  /\ (snd choice = false ->
      bypass (resampleRatio
                (constructor (Some 4%nat) (Some (inject_Z 16000))
                             (inject_Z (fst choice)))) = true).
Proof.
  apply (sample_rate_choice (fun r => r =? 44100) 96000 16000 (Some 4%nat)).
  lia.
Defined.

(** *** The relay *)

Lemma audio_forwarded_app (a b : list Callback) :
  audio_forwarded (a ++ b) = audio_forwarded a ++ audio_forwarded b.
Proof.
  induction a as [|[d|l|e|s] a IH]; cbn [app audio_forwarded];
    rewrite ?IH; reflexivity.
Qed.

Lemma handler_spec (m : Msg) (r : AudioRecorder) :
  processor (handler m r) = processor r
  /\ onmessage (handler m r) = onmessage r
  /\ dispatched (handler m r) = dispatched r
  /\ audio_forwarded (calls (handler m r))
     = audio_forwarded (calls r) ++ audio_chunks [m].
Proof.
  destruct m as [d|l|[|a e]|s]; cbn [handler call processor onmessage
    dispatched calls audio_chunks];
    rewrite ?audio_forwarded_app, ?app_nil_r; auto.
Qed.

Lemma skipn_nth_error {A : Type} (l : list A) (n : nat) (x : A) :
  nth_error l n = Some x -> skipn n l = x :: skipn (S n) l.
Proof.
  revert n. induction l as [|a l IH]; intros [|n] H; cbn in H; try discriminate.
  - now inversion H.
  - cbn [skipn]. rewrite (IH n H). reflexivity.
Qed.

Lemma dispatch_attached (r : AudioRecorder) (p : PCMProcessor) (m : Msg) :
  processor r = Some p -> onmessage r = true ->
  nth_error (port p) (dispatched r) = Some m ->
  processor (dispatch r) = Some p
  /\ onmessage (dispatch r) = true
  /\ dispatched (dispatch r) = S (dispatched r)
  /\ audio_forwarded (calls (dispatch r))
     = audio_forwarded (calls r) ++ audio_chunks [m].
Proof.
  intros Hp Ho Hm. unfold dispatch. rewrite Hp, Hm.
  cbn [onmessage]. rewrite Ho.
  match goal with |- context [handler m ?x] =>
    destruct (handler_spec m x) as (H1 & H2 & H3 & H4) end.
  cbn [processor onmessage dispatched calls] in H1, H2, H3, H4.
  rewrite H1, H2, H3, H4, ?Hp, ?Ho. auto.
Qed.

Lemma dispatch_many (n : nat) (r : AudioRecorder) (p : PCMProcessor) :
  processor r = Some p -> onmessage r = true ->
  (dispatched r + n <= length (port p))%nat ->
  processor (Nat.iter n dispatch r) = Some p
  /\ onmessage (Nat.iter n dispatch r) = true
  /\ dispatched (Nat.iter n dispatch r) = (dispatched r + n)%nat
  /\ audio_forwarded (calls (Nat.iter n dispatch r))
     = audio_forwarded (calls r)
       ++ audio_chunks (firstn n (skipn (dispatched r) (port p))).
Proof.
  induction n as [|n IH]; intros Hp Ho Hle.
  - cbn [Nat.iter nat_rect firstn audio_chunks].
    rewrite Nat.add_0_r, app_nil_r. auto.
  - rewrite Nat.iter_succ.
    destruct IH as (I1 & I2 & I3 & I4); [assumption|assumption|lia|].
    destruct (nth_error (port p) (dispatched r + n)) as [m|] eqn:Hm.
    2:{ apply nth_error_None in Hm. lia. }
    destruct (dispatch_attached (Nat.iter n dispatch r) p m) as (D1 & D2 & D3 & D4);
      [assumption|assumption|now rewrite I3|].
    rewrite D1, D2, D3, D4, I3, I4, <- app_assoc, <- audio_chunks_app.
    repeat split; try reflexivity; try lia.
    f_equal. f_equal.
    clear -Hm. revert Hm. generalize (dispatched r). intros d Hm.
    rewrite <- (firstn_skipn d (port p)) in Hm at 1.
    assert (Hd : (d <= length (port p))%nat).
    { assert (nth_error (port p) (d + n) <> None) as Hn.
      { rewrite firstn_skipn in Hm. congruence. }
      apply nth_error_Some in Hn. lia. }
    rewrite nth_error_app2 in Hm by (rewrite length_firstn; lia).
    rewrite length_firstn, Nat.min_l in Hm by lia.
    replace (d + n - d)%nat with n in Hm by lia.
    generalize dependent (skipn d (port p)). clear. intros l.
    revert l. induction n as [|n IH]; intros [|a l] Hm; cbn in Hm; try discriminate.
    + now inversion Hm.
    + cbn [firstn app]. rewrite (IH l Hm). reflexivity.
Qed.

(** X21.  While the handler is attached, dispatching what the processor
    posted hands every audio chunk to [onAudioData], unchanged, once, in
    the order posted, whatever other messages lie in between. *)
Theorem relay_forwards_every_chunk (r : AudioRecorder) (p : PCMProcessor) :
  processor r = Some p -> onmessage r = true ->
  (dispatched r <= length (port p))%nat ->
  let r' := Nat.iter (length (port p) - dispatched r) dispatch r in
  audio_forwarded (calls r')
    = audio_forwarded (calls r) ++ audio_chunks (skipn (dispatched r) (port p))
  /\ dispatched r' = length (port p)
  /\ dispatch r' = r'.
Proof.
  intros Hp Ho Hle r'.
  destruct (dispatch_many (length (port p) - dispatched r) r p)
    as (D1 & D2 & D3 & D4); [assumption|assumption|lia|].
  fold r' in D1, D2, D3, D4.
  rewrite firstn_all2 in D4 by (rewrite length_skipn; lia).
  split; [exact D4|]. split; [lia|].
  unfold dispatch. rewrite D1.
  assert (Hn : nth_error (port p) (dispatched r') = None)
    by (apply nth_error_None; lia).
  now rewrite Hn.
Qed.

Lemma relay_forwards_every_chunk_witness :
  let r := start 16000 2 16000 mount in
  exists r1 p,
    render 10 [[[Fin 1; Fin (1 # 2); Fin 0; Fin (-1)]]] r = Some r1
    /\ processor r1 = Some p
    /\ audio_forwarded
         (calls (Nat.iter (length (port p) - dispatched r1) dispatch r1))
       = audio_forwarded (calls r1)
         ++ audio_chunks (skipn (dispatched r1) (port p)).
Proof.
  intros r.
  destruct (render 10 [[[Fin 1; Fin (1 # 2); Fin 0; Fin (-1)]]] r)
    as [r1|] eqn:Hr; [|vm_compute in Hr; discriminate].
  destruct (processor r1) as [p|] eqn:Hp.
  2:{ vm_compute in Hr. injection Hr as <-. discriminate. }
  exists r1, p. split; [reflexivity|]. split; [exact Hp|].
  apply (relay_forwards_every_chunk r1 p).
  - exact Hp.
  - vm_compute in Hr. injection Hr as <-. reflexivity.
  - vm_compute in Hr. injection Hr as <-. cbn. lia.
Defined.

(** *** Stopping *)

Lemma dispatch_detached (n : nat) (r : AudioRecorder) :
  onmessage r = false ->
  onmessage (Nat.iter n dispatch r) = false
  /\ calls (Nat.iter n dispatch r) = calls r.
Proof.
  intros Ho. induction n as [|n [I1 I2]]; [auto|].
  rewrite Nat.iter_succ.
  set (x := Nat.iter n dispatch r) in *. clearbody x.
  unfold dispatch.
  destruct (processor x) as [p|]; [|auto].
  destruct (nth_error (port p) (dispatched x)); [|auto].
  cbn [onmessage]. rewrite I1. cbn [onmessage calls]. auto.
Qed.

(** X22.  [stop()] posts the stop signal and detaches the handler in the
    same task, so what the processor posts on receiving the signal finds
    no handler: the processor does flush the samples it holds into a last,
    short chunk, but neither that chunk nor anything else still
    undispatched is ever handed to [onAudioData]; no callback is invoked
    after [stop()] at all. *)
Theorem stop_discards_final_flush (r : AudioRecorder) (p : PCMProcessor) :
  processor r = Some p -> workletNodeRef r = true -> inbox r = [] ->
  (0 < bytesWritten p)%nat ->
  let r' := receive (Recorder.stop r) in
  audio_chunks (port_log r') = audio_chunks (port p) ++ [pending p]
  /\ length (pending p) = bytesWritten p
  /\ inbox r' = []
  /\ forall n : nat, calls (Nat.iter n dispatch r') = calls r.
Proof.
  intros Hp Hw Hi Hb r'.
  assert (Hr' : r' = mkRecorder false (Recorder.error r) (Fin 0) false false
                       (Some (PCM.stop p)) [] (dispatched r) (calls r)).
  { unfold r', Recorder.stop, receive. rewrite Hw.
    cbn [processor inbox]. rewrite Hp, Hi. reflexivity. }
  rewrite Hr'. unfold port_log. cbn [processor inbox].
  destruct (stop_spec p) as (Hport & _).
  rewrite Hport.
  destruct (Nat.eqb_spec (bytesWritten p) 0) as [E|_]; [lia|].
  rewrite !audio_chunks_app. cbn [audio_chunks]. rewrite app_nil_r.
  split; [reflexivity|]. split; [apply pending_length|].
  split; [reflexivity|].
  intros n.
  match goal with |- calls (Nat.iter n dispatch ?x) = _ =>
    destruct (dispatch_detached n x) as [_ H]; [reflexivity|exact H] end.
Qed.

Lemma stop_discards_final_flush_witness :
  let r := start 16000 4 16000 mount in
  exists r1 p,
    render 10 [[[Fin 1; Fin (1 # 2); Fin 0; Fin (-1); Fin (1 # 4); Fin (-1 # 4)]]] r
    = Some r1
    /\ processor r1 = Some p
    /\ pending p = [8191; -8192]
    /\ let r' := receive (Recorder.stop r1) in
       audio_chunks (port_log r') = audio_chunks (port p) ++ [pending p]
       /\ length (pending p) = bytesWritten p
       /\ inbox r' = []
       /\ forall n : nat, calls (Nat.iter n dispatch r') = calls r1.
Proof.
  intros r.
  destruct (render 10 [[[Fin 1; Fin (1 # 2); Fin 0; Fin (-1); Fin (1 # 4); Fin (-1 # 4)]]] r)
    as [r1|] eqn:Hr; [|vm_compute in Hr; discriminate].
  destruct (processor r1) as [p|] eqn:Hp.
  2:{ vm_compute in Hr. injection Hr as <-. discriminate. }
  exists r1, p. split; [reflexivity|]. split; [exact Hp|].
  assert (Hall : pending p = [8191; -8192] /\ workletNodeRef r1 = true
                 /\ inbox r1 = [] /\ (0 < bytesWritten p)%nat).
  { vm_compute in Hr. injection Hr as <-.
    cbn [processor] in Hp. injection Hp as <-.
    vm_compute. repeat split; auto. }
  destruct Hall as (Hpend & Hw & Hi & Hb).
  split; [exact Hpend|].
  apply (stop_discards_final_flush r1 p Hp Hw Hi Hb).
Defined.

End RecorderFacts.

(* ================================================================== *)
(** ** Properties of the models hook *)

Module ModelsFacts.
Import Models.




End ModelsFacts.

(* ================================================================== *)
(** ** Properties of the recording hook *)

Module RecordingFacts.
Import Transport TransportAux TransportFacts Recording.

Lemma append_assoc' (a b c : string) :
  ((a ++ b) ++ c = a ++ (b ++ c))%string.
Proof.
  induction a as [|x a IH]; cbn [String.append]; [reflexivity|].
  now rewrite IH.
Qed.

Lemma concat_snoc (l : list string) (t : string) :
  l <> [] ->
  String.concat " " (l ++ [t])
  = (String.concat " " l ++ " " ++ t)%string.
Proof.
  induction l as [|x [|y l] IH]; intros Hne.
  - congruence.
  - reflexivity.
  - change (String.concat " " ((x :: y :: l) ++ [t]))
      with (x ++ " " ++ String.concat " " ((y :: l) ++ [t]))%string.
    rewrite IH by discriminate.
    change (String.concat " " (x :: y :: l))
      with (x ++ " " ++ String.concat " " (y :: l))%string.
    rewrite !append_assoc'. reflexivity.
Qed.

Lemma truthy_concat (l : list string) :
  Forall clean_segment l ->
  truthy (String.concat " " l) = negb (is_empty l).
Proof.
  intros H. destruct H as [|x l [Hx _] _]; [reflexivity|].
  destruct x as [|a x]; [discriminate|].
  destruct l; reflexivity.
Qed.

Lemma message_store (now : Z) (m : ServerMessage) (h : Hook) (s : Store) :
  snd (message now (h, s) m)
  = render match m with
           | Transcription response => handleTranscription response s
           | _ => s
           end.
Proof.
  assert (Hs : forall (A : Type) (a b : list A), skipn (length a) (a ++ b) = b).
  { intros A a b. rewrite skipn_app, skipn_all, Nat.sub_diag. reflexivity. }
  assert (Hn : forall (A : Type) (a : list A), skipn (length a) a = []).
  { intros A a. apply skipn_all. }
  unfold message. cbn [fst snd]. f_equal.
  destruct m as [ts|r|r|]; unfold onMessage.
  - unfold handlePong, updateConnectionHealth. hook_simpl.
    cbn [health_of Nat.eqb Health_eqb]. hook_simpl. now rewrite Hn.
  - hook_simpl. now rewrite Hs.
  - hook_simpl. now rewrite Hs.
  - now rewrite Hn.
Qed.

Lemma message_segments (now : Z) (m : ServerMessage) (h : Hook) :
  finalizedSegments (state (onMessage m now h))
  = finalizedSegments (state h)
    ++ match m with
       | Transcription response =>
           if is_final response && truthy (trim (text response))
           then [trim (text response)] else []
       | _ => []
       end.
Proof.
  destruct m as [ts|[txt fin]|r|]; unfold onMessage.
  - unfold handlePong, updateConnectionHealth. hook_simpl.
    cbn [health_of Nat.eqb Health_eqb]. hook_simpl. now rewrite app_nil_r.
  - unfold transcriptionUpdate. hook_simpl. cbn [is_final text].
    destruct fin; cbn [andb]; [|now rewrite app_nil_r].
    destruct (truthy (trim txt)); [reflexivity|now rewrite app_nil_r].
  - hook_simpl. now rewrite app_nil_r.
  - now rewrite app_nil_r.
Qed.

Lemma message_synced (now : Z) (m : ServerMessage) (h : Hook) (s : Store) :
  Forall clean_segment (finalizedSegments (state h)) ->
  currentTranscript s = String.concat " " (finalizedSegments (state h)) ->
  currentTranscriptRef s = currentTranscript s ->
  Forall clean_segment
    (finalizedSegments (state (fst (message now (h, s) m))))
  /\ currentTranscript (snd (message now (h, s) m))
     = String.concat " "
         (finalizedSegments (state (fst (message now (h, s) m))))
  /\ currentTranscriptRef (snd (message now (h, s) m))
     = currentTranscript (snd (message now (h, s) m)).
Proof.
  intros Hc Hs Hr. rewrite message_store.
  unfold message at 1 2. cbn [fst]. rewrite message_segments.
  split; [|split; [|reflexivity]].
  - apply Forall_app. split; [exact Hc|].
    destruct m as [ts|[txt fin]|r|]; try constructor.
    cbn [is_final text].
    destruct (fin && truthy (trim txt)) eqn:E; [|constructor].
    apply andb_prop in E. destruct E as [_ E].
    constructor; [|constructor]. split; [exact E|apply trim_spec].
  - destruct m as [ts|[txt fin]|r|]; cbn [render currentTranscript];
      rewrite ?app_nil_r; try exact Hs.
    unfold handleTranscription. cbn [is_final text].
    destruct (truthy (trim txt)) eqn:Et; cbn [negb].
    2:{ rewrite andb_false_r, app_nil_r. exact Hs. }
    destruct fin; cbn [andb].
    2:{ rewrite app_nil_r. exact Hs. }
    cbn [currentTranscript]. rewrite Hr, Hs, (truthy_concat _ Hc).
    destruct (finalizedSegments (state h)) as [|x l] eqn:El.
    + reflexivity.
    + cbn [is_empty negb]. rewrite concat_snoc by discriminate.
      reflexivity.
Qed.

(** X24.  The transcript the recording hook keeps in the store follows the
    transcription hook's finalized segments: if it is their join by single
    spaces before a sequence of server messages, each followed by a
    render, it is their join after it, whatever the messages were. *)
Theorem store_follows_finalized_segments
        (ms : list ServerMessage) (now : Z) (h : Hook) (s : Store) :
  Forall clean_segment (finalizedSegments (state h)) ->
  currentTranscript s = String.concat " " (finalizedSegments (state h)) ->
  currentTranscriptRef s = currentTranscript s ->
  fst (messages ms now (h, s)) = onMessages ms now h
  /\ currentTranscript (snd (messages ms now (h, s)))
     = String.concat " "
         (finalizedSegments (state (onMessages ms now h))).
Proof.
  unfold messages, onMessages. revert h s.
  induction ms as [|m ms IH]; intros h s Hc Hs Hr.
  - cbn [fold_left fst snd]. auto.
  - cbn [fold_left].
    destruct (message_synced now m h s Hc Hs Hr) as (Hc' & Hs' & Hr').
    destruct (message now (h, s) m) as [h1 s1] eqn:E.
    assert (Hh : h1 = onMessage m now h).
    { unfold message in E. cbn [fst] in E. now injection E as <- _. }
    cbn [fst snd] in Hc', Hs', Hr'. subst h1.
    apply IH; assumption.
Qed.

Lemma store_follows_finalized_segments_witness :
  let ms := [Transcription (mkResponse "Hel" false);
             Transcription (mkResponse " Hello " true);
             Pong 5;
             Transcription (mkResponse "world" true)] in
  fst (messages ms 7 (mount, mkStore EmptyString EmptyString)) = onMessages ms 7 mount
  /\ currentTranscript (snd (messages ms 7 (mount, mkStore EmptyString EmptyString)))
     = String.concat " "
         (finalizedSegments (state (onMessages ms 7 mount))).
Proof.
  intros ms.
  apply (store_follows_finalized_segments ms 7 mount (mkStore EmptyString EmptyString)).
  - constructor.
  - reflexivity.
  - reflexivity.
Defined.

(** *** The wait of [stopRecording] *)

Lemma wait_loop_spec (maxWait : Z) (observed : nat -> nat) (fuel : nat) :
  forall (k : nat) (w : Wait),
    maxWait <= waited w + checkInterval * Z.of_nat fuel ->
    0 <= stableTime w <= waited w ->
    waited w < maxWait + checkInterval ->
    exists w' : Wait,
      wait_loop fuel maxWait observed k w = Some w'
      /\ waited w <= waited w' < maxWait + checkInterval
      /\ 0 <= stableTime w' <= waited w'
      /\ (waited w' < maxWait ->
          hadAnyData w' = true /\ stableThreshold <= stableTime w')
      /\ (hadAnyData w = false ->
          (forall j : nat, observed j = lastTranscriptLength w) ->
          maxWait <= waited w').
Proof.
  unfold checkInterval, stableThreshold.
  induction fuel as [|fuel IH]; intros k w Hfuel Hst Hw.
  - cbn [wait_loop]. destruct (Z.ltb_spec (waited w) maxWait) as [Hlt|Hge];
      [lia|].
    exists w. repeat split; try lia.
  - cbn [wait_loop]. destruct (Z.ltb_spec (waited w) maxWait) as [Hlt|Hge].
    2:{ exists w. repeat split; try lia. }
    unfold checkInterval, stableThreshold.
    destruct (Nat.eqb_spec (observed k) (lastTranscriptLength w)) as [Eo|No];
      cbn [negb stableTime hadAnyData].
    + destruct (Z.leb_spec 1000 (stableTime w + 100)) as [Hs|Hs];
        cbn [andb].
      * destruct (hadAnyData w) eqn:Hh.
        -- eexists. split; [reflexivity|].
           cbn [waited stableTime hadAnyData]. repeat split; try lia;
             try discriminate.
        -- destruct (IH (S k) (mkWait (waited w + 100) (lastTranscriptLength w)
                                    (stableTime w + 100) false))
             as (w' & E & B1 & B2 & B3 & B4);
             cbn [waited stableTime]; try lia.
           exists w'. split; [exact E|].
           cbn [waited stableTime hadAnyData lastTranscriptLength] in *.
           repeat split; try lia; try apply B3; auto.
      * destruct (IH (S k) (mkWait (waited w + 100) (lastTranscriptLength w)
                                  (stableTime w + 100) (hadAnyData w)))
          as (w' & E & B1 & B2 & B3 & B4);
          cbn [waited stableTime]; try lia.
        exists w'. split; [exact E|].
        cbn [waited stableTime hadAnyData lastTranscriptLength] in *.
        repeat split; try lia; try apply B3; auto.
    + destruct (Z.leb_spec 1000 0) as [Hs|_]; [lia|]. cbn [andb].
      destruct (IH (S k) (mkWait (waited w + 100) (observed k) 0 true))
        as (w' & E & B1 & B2 & B3 & B4);
        cbn [waited stableTime]; try lia.
      exists w'. split; [exact E|].
      cbn [waited stableTime hadAnyData lastTranscriptLength] in *.
      repeat split; try lia; try (apply B3; assumption).
      intros _ Hall. exfalso. apply No. apply Hall.
Qed.

(** X25.  After a flush that was sent, [stopRecording] waits at least one
    second and less than the timeout plus one polling interval, the
    timeout being the recommended one of the selected model, at least five
    seconds.  It leaves before the timeout only when some transcript was
    seen and its length has not changed for a second; when no transcript
    ever shows, it waits out the whole timeout. *)
Theorem stop_wait_is_bounded
        (models : option (list Models.ModelInfo)) (currentModel : string)
        (initialLength : nat) (observed : nat -> nat) :
  let maxWait := Models.getRecommendedTimeout models currentModel in
  exists w : Wait,
    wait_for_final (Z.to_nat (maxWait / 100 + 1)) models currentModel
                   initialLength observed = Some w
    /\ 5000 <= maxWait
    /\ 1000 <= waited w < maxWait + 100
    /\ (waited w < maxWait ->
        hadAnyData w = true /\ 1000 <= stableTime w)
    /\ (initialLength = 0%nat -> (forall j : nat, observed j = 0%nat) ->
        maxWait <= waited w).
Proof.
  intros maxWait. unfold wait_for_final.
  assert (Hm : 5000 <= maxWait)
    by (unfold maxWait, Models.getRecommendedTimeout; lia).
  fold maxWait.
  replace (Z.max maxWait 5000) with maxWait by lia.
  destruct (wait_loop_spec maxWait observed (Z.to_nat (maxWait / 100 + 1)) 0%nat
              (mkWait 0 initialLength 0 (Nat.ltb 0 initialLength)))
    as (w & E & B1 & B2 & B3 & B4); unfold checkInterval, stableThreshold in *;
    cbn [waited stableTime]; try lia.
  { rewrite Z2Nat.id by (assert (0 <= maxWait / 100) by (apply Z.div_pos; lia); lia).
    pose proof (Z.mul_succ_div_gt maxWait 100). lia. }
  exists w. split; [exact E|]. split; [exact Hm|].
  cbn [waited stableTime hadAnyData lastTranscriptLength] in *.
  split; [|split].
  - split; [|lia].
    destruct (Z.lt_ge_cases (waited w) maxWait) as [Hlt|Hge]; [|lia].
    destruct (B3 Hlt) as [_ Hs]. lia.
  - exact B3.
  - intros H0 Hall. apply B4.
    + subst initialLength. reflexivity.
    + intros j. rewrite Hall. auto.
Qed.

(** *** The store's append *)





End RecordingFacts.
